(** * wizdm editor: the selection engine [EditableSelection]

    A shallow embedding of the [EditableSelection] class, the object that maps
    the browser's range selection onto the editable document tree and carries
    out every text mutation through that mapping.

    The document tree ([EditableContent] / [EditableText]) is an external
    collaborator of the class: the engine is written against the interface
    [Tree.Ops], one member per method or accessor the class calls on a node.
    [Model] is a tree that provides the interface.

    Conventions.  A JavaScript number is an integer of [Z]; a string is a
    Rocq [string], whose [length] is the one JavaScript gives on ASCII text.
    [null] and [undefined] are [None].  A method runs in the monad [M]: it
    reads and writes the pair of the tree and the selection, it may throw --
    then the writes done so far stay, as [try] / [catch] sees them -- and
    every [while] loop runs for at most [fuel] turns. *)

From Stdlib Require Import ZArith List String Ascii Bool Lia.
From Stdlib Require Import DecimalString.
Import ListNotations.
Local Open Scope Z_scope.

(** ** Shared types *)

(** A JavaScript object reference to a tree node.  Two references are the
    same object ([===]) exactly when they are equal. *)
Definition ref := nat.
Bind Scope nat_scope with ref.

(** Modelled from the spec: [wmNodeType] of [../common/editable-types], the
    string-typed [type] field of a node, with the values the class and the
    spec name. *)
Inductive wmNodeType :=
| ty_document | ty_paragraph | ty_blockquote | ty_bulleted | ty_numbered
| ty_item | ty_table | ty_row | ty_cell | ty_text | ty_link.

Definition wmNodeType_eqb (a b : wmNodeType) : bool :=
  match a, b with
  | ty_document, ty_document | ty_paragraph, ty_paragraph
  | ty_blockquote, ty_blockquote | ty_bulleted, ty_bulleted
  | ty_numbered, ty_numbered | ty_item, ty_item | ty_table, ty_table
  | ty_row, ty_row | ty_cell, ty_cell | ty_text, ty_text
  | ty_link, ty_link => true
  | _, _ => false
  end.

(** Modelled from the spec: [wmTextStyle] of [../common/editable-types], a
    style flag, a string literal such as ['bold']. *)
Definition wmTextStyle := string.

Definition opt_ref_eqb (a b : option ref) : bool :=
  match a, b with
  | Some x, Some y => Nat.eqb x y
  | None, None => true
  | _, _ => false
  end.

Definition isSome {A : Type} (o : option A) : bool :=
  match o with Some _ => true | None => false end.

(** ** The tree collaborator *)

Module Tree.

(** The members of [EditableContent] and [EditableText] the selection
    engine uses.  [T] is the state of the whole tree; a method that mutates
    the tree returns the new state, together with the node it returns when
    it returns one.  A node-valued result is an [option]: [None] is JavaScript's
    [null] / [undefined]. *)
Class Ops (T : Type) := {
  (* accessors *)
  length : T -> ref -> nat;
  value : T -> ref -> string;
  empty : T -> ref -> bool;
  type : T -> ref -> wmNodeType;
  style : T -> ref -> list wmTextStyle;
  removed : T -> ref -> bool;
  container : T -> ref -> option ref;
  content : T -> ref -> list ref;
  first : T -> ref -> bool;
  last : T -> ref -> bool;
  (* navigation *)
  compare : T -> ref -> ref -> Z;
  previousText : T -> ref -> bool -> option ref;
  nextText : T -> ref -> bool -> option ref;
  siblings : T -> ref -> ref -> bool;
  climb : T -> ref -> list wmNodeType -> option ref;
  ancestor : T -> ref -> nat -> option ref;
  lastChild : T -> ref -> option ref;
  next : T -> ref -> option ref;
  nextSibling : T -> ref -> option ref;
  walkTree : T -> ref -> option string -> option ref;
  (* text mutation *)
  insert : T -> ref -> string -> Z -> T;
  extract : T -> ref -> Z -> Z -> T;
  cut : T -> ref -> Z -> option Z -> T;
  merge : T -> ref -> ref -> T;
  join : T -> ref -> ref -> T;
  split : T -> ref -> Z -> option Z -> T * option ref;
  break : T -> ref -> T * option ref;
  createTextPrev : T -> ref -> string -> option (list wmTextStyle) -> T * option ref;
  createTextNext : T -> ref -> string -> option (list wmTextStyle) -> T * option ref;
  (* attributes *)
  link : T -> ref -> option string -> T;
  setStyle : T -> ref -> list wmTextStyle -> T;
  format : T -> ref -> list wmTextStyle -> T;
  unformat : T -> ref -> list wmTextStyle -> T;
  (* structure *)
  defrag : T -> ref -> T;
  indent : T -> ref -> wmNodeType -> T * option ref;
  unindent : T -> ref -> wmNodeType -> T
}.

End Tree.

(** ** The selection object *)

(** An absolute point [[container, offset]] as [save()] pushes it.  The tuple
  is a JavaScript array, compared by identity in [restore()]; [ap_id] is
  that identity. *)
Record AbsPoint := mkAbsPoint {
  ap_id : nat;
  ap_node : option ref;
  ap_ofs : Z
}.

(** The fields of [EditableSelection].  [allocated] counts the tuples
  [save()] has created, so that each gets its own identity. *)
Record Selection := mkSelection {
  root : option ref;
  start : option ref;
  startOfs : Z;
  end_ : option ref;
  endOfs : Z;
  modified : bool;
  stack : list AbsPoint;
  allocated : nat
}.

(** A selection right after construction: no root, no endpoints. *)
Definition newSelection : Selection :=
  mkSelection None None 0 None 0 false [] 0.

(** What a chainable method hands back: the selection itself, or [null]. *)
Inductive Returned := RThis | RNull.

(** Exceptions: a [TypeError] from dereferencing [null] / [undefined], or an
  exception raised by the host document. *)
Inductive Exn := TypeError | HostError.

(** ** Strings and the host's DOM *)

(** [\w] of a JavaScript regular expression: [[A-Za-z0-9_]]. *)
Definition isWordChar (c : ascii) : bool :=
  let n := nat_of_ascii c in
  ((48 <=? n) && (n <=? 57) || (65 <=? n) && (n <=? 90) ||
   (n =? 95) || (97 <=? n) && (n <=? 122))%nat.

(** The positions from [i] on at which [\b] matches: those where exactly one
    of the characters before and after is a word character ([prev] tells
    whether the character before position [i] is one). *)
Fixpoint boundariesFrom (prev : bool) (i : nat) (s : string) : list nat :=
  match s with
  | EmptyString => if prev then [i] else []
  | String c s' =>
      let w := isWordChar c in
      (if xorb prev w then [i] else []) ++ boundariesFrom w (S i) s'
  end.

Set Warnings "-register-all".

(** A DOM node as [fromDom] sees it: a text node with the [id] of its parent
    element ([None] when it has no parent element) and its text, an element
    with its children, or any other node (a comment), which has no
    children. *)
Inductive DomNode :=
| DomText (parent : option string) (data : string)
| DomElement (children : list DomNode)
| DomOther (data : string).

Definition isElementOrText (n : DomNode) : bool :=
  match n with DomOther _ => false | _ => true end.

(** [node.textContent] *)
Fixpoint textContent (n : DomNode) : string :=
  match n with
  | DomText _ data => data
  | DomOther data => data
  | DomElement children =>
      (fix all (cs : list DomNode) : string :=
         match cs with
         | [] => EmptyString
         | c :: rest =>
             ((if isElementOrText c then textContent c else EmptyString)
                ++ all rest)%string
         end) children
  end.

(** A call into the host document: it gives a result or raises. *)
Inductive HostCall (A : Type) :=
| Gives (a : A)
| Raises.
Arguments Gives {A} a.
Arguments Raises {A}.

Record DomRange := mkDomRange {
  range_collapsed : bool;
  startContainer : option DomNode;
  startOffset : Z;
  endContainer : option DomNode;
  endOffset : Z
}.

Record DomSelection := mkDomSelection {
  rangeCount : Z;
  getRangeAt0 : HostCall DomRange
}.

Record Document := mkDocument {
  getSelection : HostCall (option DomSelection)
}.

(** The result of running a method in a state of type [W]: it returns, it
    throws (the mutations done so far stay), or a loop used up the iteration
    bound. *)
Inductive Outcome (W A : Type) :=
| Return (a : A) (w : W)
| Throw (e : Exn) (w : W)
| OutOfFuel.
Arguments Return {W A} a w.
Arguments Throw {W A} e w.
Arguments OutOfFuel {W A}.

Section Engine.

Context {T : Type} {ops : Tree.Ops T}.

(** Iteration bound given to every [while] loop of the class. *)
Variable fuel : nat.

Definition World : Type := T * Selection.

Definition M (A : Type) : Type := World -> Outcome World A.

Definition ret {A} (a : A) : M A := fun w => Return a w.
Definition throw {A} (e : Exn) : M A := fun w => Throw e w.
Definition bind {A B} (m : M A) (k : A -> M B) : M B :=
  fun w => match m w with
           | Return a w' => k a w'
           | Throw e w' => Throw e w'
           | OutOfFuel => OutOfFuel
           end.

Notation "x <- m ;; k" := (bind m (fun x => k))
  (at level 100, m at next level, right associativity).
Notation "m ;;; k" := (bind m (fun _ => k))
  (at level 100, right associativity).

Definition getTree : M T := fun w => Return (fst w) w.
Definition getSel : M Selection := fun w => Return (snd w) w.
Definition putTree (t : T) : M unit := fun w => Return tt (t, snd w).
Definition putSel (s : Selection) : M unit := fun w => Return tt (fst w, s).

(** Dereferencing: a member access on [null] throws a [TypeError]. *)
Definition deref (o : option ref) : M ref :=
  match o with Some r => ret r | None => throw TypeError end.

(** Running out of the iteration bound. *)
Definition orOutOfFuel {A} (o : option A) : M A :=
  match o with Some a => ret a | None => fun _ => OutOfFuel end.

(** A tree method that mutates and returns nothing. *)
Definition mutate (f : T -> T) : M unit :=
  fun w => Return tt (f (fst w), snd w).

(** A tree method that mutates and returns a node. *)
Definition mutateGet (f : T -> T * option ref) : M (option ref) :=
  fun w => let (t', r) := f (fst w) in Return r (t', snd w).

Definition when (b : bool) (m : M unit) : M unit :=
  if b then m else ret tt.

(** [try { body } catch(e) {}]: an exception is dropped, the state reached
    when it was thrown stays. *)
Definition tryCatch (body : M unit) : M unit :=
  fun w => match body w with
           | Return a w' => Return tt w'
           | Throw _ w' => Return tt w'
           | OutOfFuel => OutOfFuel
           end.

(** *** Predicates *)

(** The getters [valid], [single], [multi], [whole], [partial], [collapsed] and [marked]. *)
Definition valid (s : Selection) : bool :=
  isSome (start s) && isSome (end_ s).

Definition single (s : Selection) : bool :=
  valid s && opt_ref_eqb (start s) (end_ s).

Definition multi (s : Selection) : bool := negb (single s).

Definition whole (t : T) (s : Selection) : bool :=
  valid s && (startOfs s =? 0) &&
  match end_ s with
  | Some e => endOfs s =? Z.of_nat (Tree.length t e)
  | None => false
  end.

Definition partial (t : T) (s : Selection) : bool := negb (whole t s).

Definition collapsed (s : Selection) : bool :=
  single s && (startOfs s =? endOfs s).

Definition marked (s : Selection) : bool := modified s.

(** *** Direct assignment *)

(** [attach(document)] *)
Definition attach (document : option ref) : M Returned :=
  s <- getSel ;;
  putSel (mkSelection document (start s) (startOfs s) (end_ s) (endOfs s)
                      (modified s) (stack s) (allocated s)) ;;;
  ret RThis.

(** [mark(modified = true)] *)
Definition mark (m : bool) : M Returned :=
  s <- getSel ;;
  putSel (mkSelection (root s) (start s) (startOfs s) (end_ s) (endOfs s)
                      (valid s && m) (stack s) (allocated s)) ;;;
  ret RThis.

(** [(!!node && ofs < 0) ? node.length : ofs] *)
Definition resolveOfs (t : T) (node : option ref) (ofs : Z) : Z :=
  match node with
  | Some n => if ofs <? 0 then Z.of_nat (Tree.length t n) else ofs
  | None => ofs
  end.

(** [setStart(node, ofs)] *)
Definition setStart (node : option ref) (ofs : Z) : M unit :=
  t <- getTree ;; s <- getSel ;;
  putSel (mkSelection (root s) node (resolveOfs t node ofs) (end_ s) (endOfs s)
                      true (stack s) (allocated s)).

(** [setEnd(node, ofs)] *)
Definition setEnd (node : option ref) (ofs : Z) : M unit :=
  t <- getTree ;; s <- getSel ;;
  putSel (mkSelection (root s) (start s) (startOfs s) node (resolveOfs t node ofs)
                      true (stack s) (allocated s)).

(** [set(start, startOfs, end, endOfs)] *)
Definition set (start : option ref) (startOfs : Z)
               (end_ : option ref) (endOfs : Z) : M Returned :=
  setStart start startOfs ;;;
  setEnd end_ endOfs ;;;
  ret RThis.

(** [setCursor(node, ofs)] *)
Definition setCursor (node : option ref) (ofs : Z) : M Returned :=
  set node ofs node ofs.

(** [collapse()] *)
Definition collapse : M Returned :=
  s <- getSel ;;
  set (start s) (startOfs s) (start s) (startOfs s).

(** *** Points *)

(** The [for .. of] loop of [absPoint] over the container's children. *)
Fixpoint absPoint_loop (t : T) (node : ref) (children : list ref)
         (ofs : Z) : option ref * Z :=
  match children with
  | [] => (None, 0)
  | child :: rest =>
      if Nat.eqb child node then (Tree.container t child, ofs)
      else absPoint_loop t node rest (ofs + Z.of_nat (Tree.length t child))
  end.

(** [absPoint(node, ofs)] *)
Definition absPoint (node : option ref) (ofs : Z) : M (option ref * Z) :=
  t <- getTree ;;
  match node with
  | None => ret (None, 0)
  | Some n =>
      if Tree.removed t n then ret (None, 0)
      else
        c <- deref (Tree.container t n) ;;
        ret (absPoint_loop t n (Tree.content t c) ofs)
  end.

(** The [for .. of] loop of [relPoint]. *)
Fixpoint relPoint_loop (t : T) (children : list ref) (ofs : Z)
  : option ref * Z :=
  match children with
  | [] => (None, 0)
  | child :: rest =>
      if ofs <=? Z.of_nat (Tree.length t child) then (Some child, ofs)
      else relPoint_loop t rest (ofs - Z.of_nat (Tree.length t child))
  end.

(** [relPoint(node, ofs)] *)
Definition relPoint (t : T) (node : option ref) (ofs : Z) : option ref * Z :=
  match node with
  | None => (None, 0)
  | Some c => relPoint_loop t (Tree.content t c) ofs
  end.

(** First loop of [movePoint]: [while(offset < 0)]. *)
Fixpoint movePoint_back (n : nat) (t : T) (node : ref) (offset : Z)
  : option (ref * Z) :=
  if offset <? 0 then
    match n with
    | O => None
    | S n' =>
        match Tree.previousText t node true with
        | None => Some (node, 0)
        | Some prev =>
            let offset :=
              if negb (Tree.siblings t prev node) then offset + 1 else offset in
            movePoint_back n' t prev (offset + Z.of_nat (Tree.length t prev))
        end
    end
  else Some (node, offset).

(** Second loop of [movePoint]: [while(offset > node.length)]. *)
Fixpoint movePoint_forth (n : nat) (t : T) (node : ref) (offset : Z)
  : option (ref * Z) :=
  if offset >? Z.of_nat (Tree.length t node) then
    match n with
    | O => None
    | S n' =>
        match Tree.nextText t node true with
        | None => Some (node, Z.of_nat (Tree.length t node))
        | Some next =>
            let offset :=
              if negb (Tree.siblings t next node) then offset - 1 else offset in
            movePoint_forth n' t next (offset - Z.of_nat (Tree.length t node))
        end
    end
  else Some (node, offset).

(** [movePoint(node, offset, delta)] *)
Definition movePoint (t : T) (node : option ref) (offset delta : Z)
  : option (option ref * Z) :=
  match node with
  | None => Some (None, offset)
  | Some node =>
      match movePoint_back fuel t node (offset + delta) with
      | None => None
      | Some (node, offset) =>
          match movePoint_forth fuel t node offset with
          | None => None
          | Some (node, offset) => Some (Some node, offset)
          end
      end
  end.

(** [move(deltaStart, deltaEnd?)]: [deltaEnd = None] is the omitted
    argument. *)
Definition move (deltaStart : Z) (deltaEnd : option Z) : M Returned :=
  t <- getTree ;; s <- getSel ;;
  st <- orOutOfFuel (movePoint t (start s) (startOfs s) deltaStart) ;;
  en <- match deltaEnd with
        | None => ret st
        | Some d => orOutOfFuel (movePoint t (end_ s) (endOfs s) d)
        end ;;
  set (fst st) (snd st) (fst en) (snd en).


(** *** save / restore *)

Definition setStack (st : list AbsPoint) (alloc : nat) : M unit :=
  s <- getSel ;;
  putSel (mkSelection (root s) (start s) (startOfs s) (end_ s) (endOfs s)
                      (modified s) st alloc).

(** [save()]: the stack grows at its head. *)
Definition save : M Returned :=
  s <- getSel ;;
  p <- absPoint (start s) (startOfs s) ;;
  let a := mkAbsPoint (allocated s) (fst p) (snd p) in
  setStack (a :: stack s) (S (allocated s)) ;;;
  (if collapsed s then setStack (a :: a :: stack s) (S (allocated s))
   else
     q <- absPoint (end_ s) (endOfs s) ;;
     let b := mkAbsPoint (S (allocated s)) (fst q) (snd q) in
     setStack (b :: a :: stack s) (S (S (allocated s)))) ;;;
  ret RThis.

(** [restore()] *)
Definition restore : M Returned :=
  s <- getSel ;;
  match stack s with
  | [] => ret RThis
  | absEnd :: rest =>
      match rest with
      | [] =>
          (* the second [pop()] gives [undefined]; [absStart[0]] throws *)
          setStack [] (allocated s) ;;; throw TypeError
      | absStart :: rest' =>
          setStack rest' (allocated s) ;;;
          t <- getTree ;;
          cs <- deref (ap_node absStart) ;;
          if Tree.removed t cs then set None 0 None 0
          else
            ce <- deref (ap_node absEnd) ;;
            if Tree.removed t ce then set None 0 None 0
            else
              if Nat.eqb (ap_id absStart) (ap_id absEnd) then
                let p := relPoint t (ap_node absStart) (ap_ofs absStart) in
                setCursor (fst p) (snd p)
              else
                let p := relPoint t (ap_node absStart) (ap_ofs absStart) in
                let q := relPoint t (ap_node absEnd) (ap_ofs absEnd) in
                setStart (fst p) (snd p) ;;;
                setEnd (fst q) (snd q) ;;;
                ret RThis
      end
  end.

(** *** sort *)

(** The getter [reversed]. *)
Definition reversed (t : T) (s : Selection) : bool :=
  match start s, end_ s with
  | Some a, Some b =>
      (Nat.eqb a b && (startOfs s >? endOfs s)) || (Tree.compare t a b >? 0)
  | _, _ => false
  end.

(** [sort()] *)
Definition sort : M Returned :=
  t <- getTree ;; s <- getSel ;;
  when (reversed t s)
       (putSel (mkSelection (root s) (end_ s) (endOfs s) (start s) (startOfs s)
                            (modified s) (stack s) (allocated s))) ;;;
  ret RThis.

(** *** trim *)

(** [trim()] *)
Definition trim : M Returned :=
  s <- getSel ;;
  if negb (valid s) then ret RThis
  else
    when (endOfs s =? 0)
         (e <- deref (end_ s) ;;
          t <- getTree ;;
          match Tree.previousText t e true with
          | Some p => setEnd (Some p) (-1)
          | None => ret tt
          end) ;;;
    s <- getSel ;;
    if collapsed s then ret RThis
    else
      a <- deref (start s) ;;
      t <- getTree ;;
      when (startOfs s =? Z.of_nat (Tree.length t a))
           (match Tree.nextText t a true with
            | Some n => setStart (Some n) 0
            | None => ret tt
            end) ;;;
      ret RThis.

(** *** wordWrap *)

(** The offsets at which the regular expression [/\b/g] matches in [value],
    in increasing order, as <<String.prototype.replace>> passes them to its
    callback. *)
Definition wordBoundaries (value : string) : list Z :=
  map Z.of_nat (boundariesFrom false 0 value).

(** [edges(value, index)] *)
Definition edges (value : string) (index : Z) : Z * Z :=
  fold_left
    (fun (acc : Z * Z) (offset : Z) =>
       let before := fst acc in
       let after := snd acc in
       let before :=
         if (offset <=? index) && (offset >? before) then offset else before in
       let after :=
         if (offset >=? index) && (offset <? after) then offset else after in
       (before, after))
    (wordBoundaries value)
    (0, Z.of_nat (String.length value)).

(** [wordWrap()] *)
Definition wordWrap : M Returned :=
  s <- getSel ;;
  if negb (valid s) then ret RThis
  else
    a <- deref (start s) ;;
    t <- getTree ;;
    let e := edges (Tree.value t a) (startOfs s) in
    if collapsed s then set (start s) (fst e) (start s) (snd e)
    else
      b <- deref (end_ s) ;;
      let e' := edges (Tree.value t b) (endOfs s) in
      putSel (mkSelection (root s) (start s) (fst e) (end_ s) (snd e')
                          (modified s) (stack s) (allocated s)) ;;;
      mark true.

(** *** query / apply: the host document *)

Fixpoint fromDomNode (t : T) (rt : option ref) (node : DomNode) (offset : Z)
  : Exn + (option ref * Z) :=
  match node with
  | DomText parent data =>
      match rt with
      | None => inl TypeError
      | Some r =>
          match Tree.walkTree t r parent with
          | None => inr (None, 0)
          | Some txt =>
              if negb (wmNodeType_eqb (Tree.type t txt) ty_text) &&
                 negb (wmNodeType_eqb (Tree.type t txt) ty_link)
              then inr (None, 0)
              else inr (Some txt, if Tree.empty t txt then 0 else offset)
          end
      end
  | DomOther _ => inr (None, 0)
  | DomElement [] => inr (None, 0)
  | DomElement children =>
      (fix loop (cs : list DomNode) (offset : Z) : Exn + (option ref * Z) :=
         match cs with
         | [] => inr (None, offset)
         | child :: rest =>
             if isElementOrText child then
               let len := Z.of_nat (String.length (textContent child)) in
               if offset <=? len then fromDomNode t rt child offset
               else loop rest (offset - len)
             else loop rest offset
         end) children offset
  end.

(** [fromDom(node, offset)]; [fromDomNode] is the method on a node that is not [null]. *)
Definition fromDom (node : option DomNode) (offset : Z) : M (option ref * Z) :=
  match node with
  | None => ret (None, 0)
  | Some n =>
      t <- getTree ;; s <- getSel ;;
      match fromDomNode t (root s) n offset with
      | inl e => throw e
      | inr p => ret p
      end
  end.

(** A call into the host document that may raise. *)
Definition host {A} (c : HostCall A) : M A :=
  match c with
  | Gives a => ret a
  | Raises => throw HostError
  end.

(** [query(from)]: [from = None] is a [null] / [undefined] document. *)
Definition query (from : option Document) : M Returned :=
  match from with
  | None => ret RNull
  | Some doc =>
      tryCatch
        (sel <- host (getSelection doc) ;;
         range <- match sel with
                  | Some sl =>
                      if rangeCount sl >? 0
                      then r <- host (getRangeAt0 sl) ;; ret (Some r)
                      else ret None
                  | None => ret None
                  end ;;
         match range with
         | Some r =>
             if range_collapsed r then
               p <- fromDom (startContainer r) (startOffset r) ;;
               setCursor (fst p) (snd p) ;;; ret tt
             else
               p <- fromDom (startContainer r) (startOffset r) ;;
               setStart (fst p) (snd p) ;;;
               q <- fromDom (endContainer r) (endOffset r) ;;
               setEnd (fst q) (snd q) ;;;
               sort ;;; ret tt
         | None => setCursor None 0 ;;; ret tt
         end) ;;;
      mark false
  end.

(** [apply(to)]: inside the [try] the method only reads the selection and
    writes the host's range; whatever the host does there, the tree and the
    selection are as before when the [catch] is left. *)
Definition apply (to : option Document) : M Returned :=
  s <- getSel ;;
  match to with
  | None => ret RThis
  | Some _ =>
      if negb (valid s) then ret RThis
      else tryCatch (ret tt) ;;; mark false
  end.

(** *** Editing *)

Definition setStartNode (node : option ref) : M unit :=
  s <- getSel ;;
  putSel (mkSelection (root s) node (startOfs s) (end_ s) (endOfs s)
                      (modified s) (stack s) (allocated s)).

Definition setEndNode (node : option ref) : M unit :=
  s <- getSel ;;
  putSel (mkSelection (root s) (start s) (startOfs s) node (endOfs s)
                      (modified s) (stack s) (allocated s)).

(** [a || b] on node references *)
Definition orElse (a b : option ref) : option ref :=
  match a with Some _ => a | None => b end.

(** [delete()] *)
Definition delete : M Returned :=
  s <- getSel ;;
  if negb (valid s) then ret RThis
  else
    a <- deref (start s) ;;
    b <- deref (end_ s) ;;
    done <-
      (if single s then
         mutate (fun t => Tree.extract t a (startOfs s) (endOfs s)) ;;;
         t <- getTree ;;
         if negb (Tree.empty t a) then r <- collapse ;; ret (Some r)
         else ret None
       else
         mutate (fun t => Tree.cut t a 0 (Some (startOfs s))) ;;;
         mutate (fun t => Tree.cut t b (endOfs s) None) ;;;
         ret None) ;;
    match done with
    | Some r => ret r
    | None =>
        t <- getTree ;;
        when (Tree.empty t a)
             (setStartNode (orElse (Tree.previousText t a false) (Some a))) ;;;
        when (Tree.empty t b)
             (setEndNode (orElse (Tree.nextText t b false) (Some b))) ;;;
        s <- getSel ;;
        a <- deref (start s) ;;
        let ofs := Z.of_nat (Tree.length t a) in
        b <- deref (end_ s) ;;
        mutate (fun t => Tree.merge t a b) ;;;
        setCursor (Some a) ofs
    end.

(** [insert(char)] *)
Definition insert (char : string) : M Returned :=
  s <- getSel ;;
  if negb (valid s) then ret RThis
  else
    when (negb (collapsed s)) (delete ;;; ret tt) ;;;
    s <- getSel ;; t <- getTree ;;
    a <- deref (start s) ;;
    when (wmNodeType_eqb (Tree.type t a) ty_link &&
          (startOfs s =? Z.of_nat (Tree.length t a)))
         (nxt <- match Tree.nextText t a false with
                 | Some n => ret (Some n)
                 | None => mutateGet (fun t => Tree.createTextNext t a "" None)
                 end ;;
          setCursor nxt 0 ;;; ret tt) ;;;
    s <- getSel ;;
    a <- deref (start s) ;;
    mutate (fun t => Tree.insert t a char (startOfs s)) ;;;
    move (Z.of_nat (String.length char)) None.

Definition newlineChar : string := String (ascii_of_nat 10) EmptyString.

(** [break(newline = false)] *)
Definition break (newline : bool) : M Returned :=
  s <- getSel ;;
  if negb (valid s) then ret RThis
  else
    when (negb (collapsed s)) (delete ;;; ret tt) ;;;
    s <- getSel ;; t <- getTree ;;
    forced <-
      (if newline then ret true
       else
         a <- deref (start s) ;;
         ret (wmNodeType_eqb (Tree.type t a) ty_link &&
              (startOfs s <? Z.of_nat (Tree.length t a)))) ;;
    if (forced : bool) then
      a <- deref (start s) ;;
      mutate (fun t => Tree.insert t a newlineChar (startOfs s)) ;;;
      move 1 None
    else
      a <- deref (start s) ;;
      when (Tree.first t a && (startOfs s =? 0))
           (mutateGet (fun t => Tree.createTextPrev t a "" (Some (Tree.style t a))) ;;;
            ret tt) ;;;
      t <- getTree ;;
      when (Tree.last t a && (startOfs s =? Z.of_nat (Tree.length t a)))
           (mutateGet (fun t => Tree.createTextNext t a "" (Some (Tree.style t a))) ;;;
            ret tt) ;;;
      t <- getTree ;;
      when (startOfs s =? Z.of_nat (Tree.length t a))
           (setCursor (Tree.nextText t a false) 0 ;;; ret tt) ;;;
      s <- getSel ;;
      a <- deref (start s) ;;
      piece <- mutateGet (fun t => Tree.split t a (startOfs s) None) ;;
      p <- deref piece ;;
      node <- mutateGet (fun t => Tree.break t p) ;;
      setCursor node 0.

(** [split()] *)
Definition split : M Returned :=
  s <- getSel ;;
  if negb (valid s) then ret RThis
  else
    a <- deref (start s) ;;
    (if single s then
       node <- mutateGet (fun t => Tree.split t a (startOfs s) (Some (endOfs s))) ;;
       set node 0 node (-1)
     else
       st <- mutateGet (fun t => Tree.split t a (startOfs s) None) ;;
       b <- deref (end_ s) ;;
       en <- mutateGet (fun t => Tree.split t b 0 (Some (endOfs s))) ;;
       set st 0 en (-1)) ;;;
    ret RThis.

(** The [while] loop of [nodes]: [n] iterations at most. *)
Fixpoint nodes_loop (n : nat) (callbackfn : ref -> M unit) (node : option ref)
  : M unit :=
  match node with
  | None => ret tt
  | Some nd =>
      t <- getTree ;; s <- getSel ;;
      e <- deref (end_ s) ;;
      if Tree.compare t nd e <=? 0 then
        match n with
        | O => fun _ => OutOfFuel
        | S n' =>
            callbackfn nd ;;;
            t <- getTree ;;
            nodes_loop n' callbackfn (Tree.nextText t nd true)
        end
      else ret tt
  end.

(** [nodes(callbackfn)] *)
Definition nodes (callbackfn : ref -> M unit) : M Returned :=
  s <- getSel ;;
  if negb (valid s) then ret RThis
  else nodes_loop fuel callbackfn (start s) ;;; ret RThis.

(** The [while] loop of [containers]. *)
Fixpoint containers_loop (n : nat) (callbackfn : ref -> M unit)
         (container : option ref) : M unit :=
  match container with
  | None => ret tt
  | Some c =>
      t <- getTree ;; s <- getSel ;;
      e <- deref (end_ s) ;;
      if Tree.compare t c e <? 0 then
        match n with
        | O => fun _ => OutOfFuel
        | S n' =>
            callbackfn c ;;;
            t <- getTree ;;
            lc <- deref (Tree.lastChild t c) ;;
            containers_loop n' callbackfn
              (match Tree.next t lc with
               | Some nx => Tree.container t nx
               | None => None
               end)
        end
      else ret tt
  end.

(** [containers(callbackfn)] *)
Definition containers (callbackfn : ref -> M unit) : M Returned :=
  s <- getSel ;;
  if negb (valid s) then ret RThis
  else
    a <- deref (start s) ;;
    t <- getTree ;;
    containers_loop fuel callbackfn (Tree.container t a) ;;; ret RThis.

(** [defrag()] *)
Definition defrag : M Returned :=
  s <- getSel ;;
  if negb (valid s) then ret RThis
  else
    save ;;;
    containers (fun c => mutate (fun t => Tree.defrag t c)) ;;;
    restore ;;; trim ;;;
    ret RThis.

(** *** Formatting and links *)

(** The getter [style]. *)
Definition getStyle (t : T) (s : Selection) : list wmTextStyle :=
  if valid s then
    match start s with Some a => Tree.style t a | None => [] end
  else [].

(** The setter [style = ...]; it returns nothing. *)
Definition putStyle (style : list wmTextStyle) : M unit :=
  s <- getSel ;;
  if negb (valid s) then ret tt
  else
    when (collapsed s) (wordWrap ;;; ret tt) ;;;
    trim ;;; split ;;;
    nodes (fun node => mutate (fun t => Tree.setStyle t node style)) ;;;
    defrag ;;; ret tt.

(** [clear()] *)
Definition clear : M Returned :=
  putStyle [] ;;; ret RThis.

(** [format(style, remove = false)] *)
Definition format (style : list wmTextStyle) (remove : bool) : M Returned :=
  s <- getSel ;;
  if negb (valid s) then ret RThis
  else
    when (collapsed s) (wordWrap ;;; ret tt) ;;;
    trim ;;; split ;;;
    nodes (fun node =>
             if remove then mutate (fun t => Tree.unformat t node style)
             else mutate (fun t => Tree.format t node style)) ;;;
    defrag.

(** [toggleFormat(style)] *)
Definition toggleFormat (style : wmTextStyle) : M Returned :=
  t <- getTree ;; s <- getSel ;;
  let remove := existsb (String.eqb style) (getStyle t s) in
  format [style] remove.

(** [unlink()] *)
Definition unlink : M Returned :=
  s <- getSel ;;
  if negb (valid s) then ret RThis
  else
    nodes (fun node => mutate (fun t => Tree.link t node None)) ;;;
    defrag.

(** [!url]: [null], [undefined] and the empty string are falsy. *)
Definition falsy (url : option string) : bool :=
  match url with
  | None => true
  | Some u => String.eqb u ""
  end.

(** The [while] loop of [link] that joins the following nodes into the
    start node. *)
Fixpoint link_loop (n : nat) (node : option ref) : M unit :=
  match node with
  | None => ret tt
  | Some nd =>
      t <- getTree ;; s <- getSel ;;
      e <- deref (end_ s) ;;
      if Tree.compare t nd e <=? 0 then
        match n with
        | O => fun _ => OutOfFuel
        | S n' =>
            a <- deref (start s) ;;
            mutate (fun t => Tree.join t a nd) ;;;
            if Nat.eqb nd e then ret tt
            else
              t <- getTree ;;
              link_loop n' (Tree.nextText t a true)
        end
      else ret tt
  end.

(** [link(url)]: [url = None] is [null] / [undefined]. *)
Definition link (url : option string) : M Returned :=
  if falsy url then unlink
  else
    s <- getSel ;;
    if negb (valid s) then ret RThis
    else
      when (collapsed s) (wordWrap ;;; ret tt) ;;;
      trim ;;; split ;;;
      s <- getSel ;;
      when (multi s)
           (a <- deref (start s) ;;
            t <- getTree ;;
            link_loop fuel (Tree.nextText t a true)) ;;;
      s <- getSel ;;
      a <- deref (start s) ;;
      mutate (fun t => Tree.link t a url) ;;;
      set (start s) 0 (start s) (-1).

(** *** Indentation, lists and quotes *)

(** [unindent()] *)
Definition unindent : M Returned :=
  s <- getSel ;; t <- getTree ;;
  a <- deref (start s) ;;
  match Tree.climb t a [ty_blockquote; ty_bulleted; ty_numbered] with
  | None => ret RThis
  | Some indent =>
      containers (fun container =>
                    mutate (fun t => Tree.unindent t container (Tree.type t indent))) ;;;
      mark true
  end.

(** [indent()] *)
Definition indent : M Returned :=
  s <- getSel ;;
  if negb (valid s) then ret RThis
  else
    t <- getTree ;;
    a <- deref (start s) ;;
    match Tree.climb t a [ty_bulleted; ty_numbered] with
    | None => ret RThis
    | Some list =>
        containers (fun item =>
                      mutate (fun t => fst (Tree.indent t item (Tree.type t list)))) ;;;
        mark true
    end.

(** [toggleList(type)] *)
Definition toggleList (type : wmNodeType) : M Returned :=
  s <- getSel ;;
  if negb (valid s) then ret RThis
  else
    t <- getTree ;;
    a <- deref (start s) ;;
    off <-
      match Tree.climb t a [ty_bulleted; ty_numbered] with
      | Some list =>
          containers (fun item =>
                        mutate (fun t => Tree.unindent t item (Tree.type t list))) ;;;
          t <- getTree ;;
          ret (wmNodeType_eqb (Tree.type t list) type)
      | None => ret false
      end ;;
    if (off : bool) then mark true
    else
      containers (fun item =>
                    t <- getTree ;;
                    when (negb (wmNodeType_eqb (Tree.type t item) ty_cell))
                         (mutate (fun t => fst (Tree.indent t item type)))) ;;;
      mark true.

(** The [while] loop of [toggleQuote]. *)
Fixpoint toggleQuote_loop (n : nat) (node : option ref) : M unit :=
  match node with
  | None => ret tt
  | Some nd =>
      t <- getTree ;; s <- getSel ;;
      e <- deref (end_ s) ;;
      if Tree.compare t nd e <? 0 then
        match n with
        | O => fun _ => OutOfFuel
        | S n' =>
            quoted <- mutateGet (fun t => Tree.indent t nd ty_blockquote) ;;
            q <- deref quoted ;;
            t <- getTree ;;
            toggleQuote_loop n' (Tree.nextSibling t q)
        end
      else ret tt
  end.

(** [toggleQuote()] *)
Definition toggleQuote : M Returned :=
  s <- getSel ;;
  if negb (valid s) then ret RThis
  else
    t <- getTree ;;
    a <- deref (start s) ;;
    match Tree.climb t a [ty_blockquote] with
    | Some _ =>
        containers (fun item =>
                      mutate (fun t => Tree.unindent t item ty_blockquote)) ;;;
        mark true
    | None =>
        toggleQuote_loop fuel (Tree.ancestor t a 1) ;;;
        mark true
    end.

(** *** Where the selection lies *)

(** The getter [contained]. *)
Definition contained (t : T) (s : Selection) : bool :=
  single s ||
  (valid s &&
   match start s, end_ s with
   | Some a, Some b => opt_ref_eqb (Tree.container t a) (Tree.container t b)
   | _, _ => false
   end).

(** [belongsTo(type)]: the answer, or the [TypeError] of reading the type of
    a container that is [null]. *)
Definition belongsTo (t : T) (s : Selection) (type : wmNodeType) : Exn + bool :=
  match start s, end_ s with
  | Some a, Some b =>
      match type with
      | ty_document => inr true
      | ty_text | ty_link =>
          inr (single s && wmNodeType_eqb (Tree.type t a) type)
      | ty_item | ty_cell =>
          if contained t s then
            match Tree.container t a with
            | Some c => inr (wmNodeType_eqb (Tree.type t c) type)
            | None => inl TypeError
            end
          else inr false
      | ty_blockquote | ty_bulleted | ty_numbered | ty_row | ty_table =>
          match Tree.climb t a [type] with
          | None => inr false
          | Some block =>
              if single s then inr true
              else inr (opt_ref_eqb (Some block) (Tree.climb t b [type]))
          end
      | ty_paragraph => inr false
      end
  | _, _ => inr false
  end.

End Engine.

Arguments World T : clear implicits.
Arguments M T A : clear implicits.

(** ** Alignment and level *)

(** [wmAlignType] of [../common/editable-types]: a string literal, ['left']
    being the one the class names. *)
Definition wmAlignType := string.

Module Layout.

(** The attributes [align] and [level] as the selection engine uses them:
    read on the start node, assigned on a container. *)
Class Ops (T : Type) := {
  align : T -> ref -> wmAlignType;
  setAlign : T -> ref -> wmAlignType -> T;
  level : T -> ref -> Z;
  setLevel : T -> ref -> Z -> T
}.

End Layout.

Section Attributes.

Context {T : Type} {ops : Tree.Ops T} {layout : Layout.Ops T}.

Variable fuel : nat.

(** The getter [align]. *)
Definition getAlign (t : T) (s : Selection) : wmAlignType :=
  if valid s then
    match start s with Some a => Layout.align t a | None => "left"%string end
  else "left"%string.

(** The setter [align = ...]; it returns nothing. *)
Definition putAlign (align : wmAlignType) : M T unit :=
  bind (containers fuel
          (fun container => mutate (fun t => Layout.setAlign t container align)))
       (fun _ => ret tt).

(** The getter [level]. *)
Definition getLevel (t : T) (s : Selection) : Z :=
  if valid s then
    match start s with Some a => Layout.level t a | None => 0 end
  else 0.

(** The setter [level = ...]; it returns nothing. *)
Definition putLevel (level : Z) : M T unit :=
  bind (containers fuel
          (fun container => mutate (fun t => Layout.setLevel t container level)))
       (fun _ => bind (mark true) (fun _ => ret tt)).

End Attributes.

(** ** A document tree *)

(** Modelled from the spec: the classes [EditableContent] and [EditableText]
    of [../common/editable-content], which the source imports and does not
    contain.  The model follows the capability set the spec requires of the
    tree: a document is the sequence of its text containers in document
    order; a container owns an ordered run of leaves and knows the chain of
    structural nodes around it (innermost first); a leaf is a run of text or
    a hyperlink with one style.  A node is [removed] when it is no longer
    part of the tree. *)
Module Model.

Record Leaf := mkLeaf {
  leaf_id : ref;
  leaf_value : string;
  leaf_url : option string;      (* [Some] target: the leaf is a link *)
  leaf_style : list wmTextStyle
}.

Record Block := mkBlock {
  block_id : ref;
  block_type : wmNodeType;
  block_path : list (ref * wmNodeType);   (* enclosing nodes, innermost first *)
  block_content : list Leaf
}.

(** Modelled from the spec: the document tree, the state every method of
    [EditableContent] and [EditableText] reads or changes. *)
Record Doc := mkDoc {
  doc_root : ref;
  doc_blocks : list Block;
  doc_fresh : ref;                (* the next unused reference *)
  doc_gone : list (ref * wmNodeType)   (* structural nodes taken out, with the
                                          type they keep as objects *)
}.

(** *** Lookup *)

Definition findLeafIn (r : ref) (ls : list Leaf) : option Leaf :=
  find (fun l => Nat.eqb (leaf_id l) r) ls.

Fixpoint findLeaf (r : ref) (bs : list Block) : option (Block * Leaf) :=
  match bs with
  | [] => None
  | b :: rest =>
      match findLeafIn r (block_content b) with
      | Some l => Some (b, l)
      | None => findLeaf r rest
      end
  end.

Definition findBlock (r : ref) (bs : list Block) : option Block :=
  find (fun b => Nat.eqb (block_id b) r) bs.

(** The nodes from a container up to the root, with their types. *)
Definition chain (d : Doc) (b : Block) : list (ref * wmNodeType) :=
  (block_id b, block_type b) :: block_path b ++ [(doc_root d, ty_document)].

Definition inChain (r : ref) (c : list (ref * wmNodeType)) : bool :=
  existsb (fun x => Nat.eqb (fst x) r) c.

(** The chain of the first container that has [r] on its chain, from [r]
    upwards. *)
Fixpoint dropUntil (r : ref) (c : list (ref * wmNodeType))
  : list (ref * wmNodeType) :=
  match c with
  | [] => []
  | x :: rest => if Nat.eqb (fst x) r then c else dropUntil r rest
  end.

Definition chainFrom (d : Doc) (r : ref) : list (ref * wmNodeType) :=
  match findLeaf r (doc_blocks d) with
  | Some (b, _) => chain d b
  | None =>
      match find (fun b => inChain r (chain d b)) (doc_blocks d) with
      | Some b => dropUntil r (chain d b)
      | None => if Nat.eqb r (doc_root d) then [(r, ty_document)] else []
      end
  end.

Definition isLeaf (d : Doc) (r : ref) : bool :=
  isSome (findLeaf r (doc_blocks d)).

(** Every reference of the tree in document order: a container, then its
    leaves. *)
Definition blockIds (b : Block) : list ref :=
  block_id b :: map leaf_id (block_content b).

Definition ids (d : Doc) : list ref := flat_map blockIds (doc_blocks d).

Definition leafIds (d : Doc) : list ref :=
  flat_map (fun b => map leaf_id (block_content b)) (doc_blocks d).

Definition attached (d : Doc) (r : ref) : bool :=
  isLeaf d r || negb (Nat.eqb (List.length (chainFrom d r)) 0).

(** *** Accessors *)

Definition length (d : Doc) (r : ref) : nat :=
  match findLeaf r (doc_blocks d) with
  | Some (_, l) => String.length (leaf_value l)
  | None => 0
  end.

Definition value (d : Doc) (r : ref) : string :=
  match findLeaf r (doc_blocks d) with
  | Some (_, l) => leaf_value l
  | None => EmptyString
  end.

Definition empty (d : Doc) (r : ref) : bool :=
  Nat.eqb (length d r) 0.

Definition type (d : Doc) (r : ref) : wmNodeType :=
  match findLeaf r (doc_blocks d) with
  | Some (_, l) => if isSome (leaf_url l) then ty_link else ty_text
  | None =>
      match chainFrom d r with
      | (_, ty) :: _ => ty
      | [] =>
          match find (fun x => Nat.eqb (fst x) r) (doc_gone d) with
          | Some (_, ty) => ty
          | None => ty_document
          end
      end
  end.

Definition style (d : Doc) (r : ref) : list wmTextStyle :=
  match findLeaf r (doc_blocks d) with
  | Some (_, l) => leaf_style l
  | None => []
  end.

Definition removed (d : Doc) (r : ref) : bool := negb (attached d r).

Definition container (d : Doc) (r : ref) : option ref :=
  match findLeaf r (doc_blocks d) with
  | Some (b, _) => Some (block_id b)
  | None =>
      match chainFrom d r with
      | _ :: (p, _) :: _ => Some p
      | _ => None
      end
  end.

Definition content (d : Doc) (r : ref) : list ref :=
  match findBlock r (doc_blocks d) with
  | Some b => map leaf_id (block_content b)
  | None => []
  end.

Definition first (d : Doc) (r : ref) : bool :=
  match findLeaf r (doc_blocks d) with
  | Some (b, _) =>
      match block_content b with
      | l :: _ => Nat.eqb (leaf_id l) r
      | [] => false
      end
  | None => false
  end.

Definition last (d : Doc) (r : ref) : bool :=
  match findLeaf r (doc_blocks d) with
  | Some (b, _) =>
      match rev (block_content b) with
      | l :: _ => Nat.eqb (leaf_id l) r
      | [] => false
      end
  | None => false
  end.

(** *** Navigation *)

(** The index of [r] in [l], or [-1], as <<Array.prototype.indexOf>>. *)
Fixpoint indexOf (r : ref) (l : list ref) : Z :=
  match l with
  | [] => -1
  | x :: rest =>
      if Nat.eqb x r then 0
      else let i := indexOf r rest in if i <? 0 then -1 else i + 1
  end.

(** Where a node stands in document order; a structural node stands where
    the first container under it does. *)
Definition position (d : Doc) (r : ref) : Z :=
  let i := indexOf r (ids d) in
  if 0 <=? i then i
  else
    match find (fun b => inChain r (chain d b)) (doc_blocks d) with
    | Some b => indexOf (block_id b) (ids d)
    | None => -1
    end.

Definition compare (d : Doc) (a b : ref) : Z := position d a - position d b.

(** The element right after / before [r] in [l]. *)
Fixpoint after (r : ref) (l : list ref) : option ref :=
  match l with
  | x :: (y :: _) as rest => if Nat.eqb x r then Some y else after r rest
  | _ => None
  end.

Fixpoint before (r : ref) (l : list ref) : option ref :=
  match l with
  | x :: (y :: _) as rest => if Nat.eqb y r then Some x else before r rest
  | _ => None
  end.

Definition siblingIds (d : Doc) (r : ref) : list ref :=
  match findLeaf r (doc_blocks d) with
  | Some (b, _) => map leaf_id (block_content b)
  | None => []
  end.

Definition nextText (d : Doc) (r : ref) (traverse : bool) : option ref :=
  if traverse then after r (leafIds d) else after r (siblingIds d r).

Definition previousText (d : Doc) (r : ref) (traverse : bool) : option ref :=
  if traverse then before r (leafIds d) else before r (siblingIds d r).

Definition siblings (d : Doc) (a b : ref) : bool :=
  match container d a, container d b with
  | Some x, Some y => Nat.eqb x y
  | _, _ => false
  end.

Definition climbChain (types : list wmNodeType) (c : list (ref * wmNodeType))
  : option ref :=
  option_map fst
    (find (fun x => existsb (wmNodeType_eqb (snd x)) types) c).

(** From a leaf the climb starts at its container, from any other node at
    the node itself. *)
Definition climb (d : Doc) (r : ref) (types : list wmNodeType) : option ref :=
  climbChain types (chainFrom d r).

(** The node on the way from the root down to [r] at the given depth; the
    root is at depth 0. *)
Definition ancestor (d : Doc) (r : ref) (depth : nat) : option ref :=
  option_map fst (nth_error (rev (chainFrom d r)) depth).

Definition lastChild (d : Doc) (r : ref) : option ref :=
  match findBlock r (doc_blocks d) with
  | Some b => option_map leaf_id (hd_error (rev (block_content b)))
  | None => None
  end.

Definition next (d : Doc) (r : ref) : option ref := after r (leafIds d).

(** The chain of a container from the root down to depth [n] (the root
    excluded). *)
Definition downTo (d : Doc) (b : Block) (n : nat) : list ref :=
  firstn n (tl (rev (map fst (chain d b)))).

Definition depthOf (d : Doc) (r : ref) : nat :=
  Nat.pred (List.length (chainFrom d r)).

(** The next node under the same parent: the node at the depth of [r] on the
    chain of the first container that follows the ones below [r], when that
    container hangs under the parent of [r]. *)
Definition nextSibling (d : Doc) (r : ref) : option ref :=
  let n := depthOf d r in
  let under (b : Block) := inChain r (chain d b) in
  let fix skip (bs : list Block) (seen : bool) : option Block :=
    match bs with
    | [] => None
    | b :: rest =>
        if under b then skip rest true
        else if seen then Some b else skip rest false
    end in
  match find under (doc_blocks d), skip (doc_blocks d) false with
  | Some b0, Some b1 =>
      if list_eq_dec Nat.eq_dec (downTo d b0 (Nat.pred n)) (downTo d b1 (Nat.pred n))
      then nth_error (tl (rev (map fst (chain d b1)))) (Nat.pred n)
      else None
  | _, _ => None
  end.

(** The node with the given DOM identifier; a node's identifier is its
    reference written in decimal. *)
Definition walkTree (d : Doc) (rt : ref) (id : option string) : option ref :=
  match id with
  | None => None
  | Some name =>
      match NilEmpty.uint_of_string name with
      | Some u => let r := Nat.of_uint u in
                  if attached d r then Some r else None
      | None => None
      end
  end.

(** *** Text mutation *)

Definition take (n : nat) (s : string) : string := substring 0 n s.
Definition drop (n : nat) (s : string) : string :=
  substring n (String.length s - n) s.

Definition withValue (l : Leaf) (v : string) : Leaf :=
  mkLeaf (leaf_id l) v (leaf_url l) (leaf_style l).

Definition withContent (b : Block) (c : list Leaf) : Block :=
  mkBlock (block_id b) (block_type b) (block_path b) c.

Definition withBlocks (d : Doc) (bs : list Block) : Doc :=
  mkDoc (doc_root d) bs (doc_fresh d) (doc_gone d).

(** Applies [f] to the leaf [r]. *)
Definition mapLeaf (r : ref) (f : Leaf -> Leaf) (d : Doc) : Doc :=
  withBlocks d
    (map (fun b =>
            withContent b
              (map (fun l => if Nat.eqb (leaf_id l) r then f l else l)
                   (block_content b)))
         (doc_blocks d)).

Definition insert (d : Doc) (r : ref) (char : string) (ofs : Z) : Doc :=
  let n := Z.to_nat ofs in
  mapLeaf r (fun l => withValue l (take n (leaf_value l) ++ char
                                     ++ drop n (leaf_value l))%string) d.

Definition extract (d : Doc) (r : ref) (from to : Z) : Doc :=
  mapLeaf r (fun l => withValue l (take (Z.to_nat from) (leaf_value l)
                                     ++ drop (Z.to_nat to) (leaf_value l))%string) d.

(** [cut(from, to)] keeps the text between the two offsets, [cut(from)] the
    text from the offset on. *)
Definition cut (d : Doc) (r : ref) (from : Z) (to : option Z) : Doc :=
  mapLeaf r
    (fun l =>
       let v := leaf_value l in
       withValue l
         match to with
         | Some e => take (Z.to_nat e - Z.to_nat from) (drop (Z.to_nat from) v)
         | None => drop (Z.to_nat from) v
         end) d.

(** [ls] around the leaf [r]: what precedes it, the leaf, what follows. *)
Fixpoint around (r : ref) (ls : list Leaf)
  : option (list Leaf * Leaf * list Leaf) :=
  match ls with
  | [] => None
  | l :: rest =>
      if Nat.eqb (leaf_id l) r then Some ([], l, rest)
      else match around r rest with
           | Some (pre, x, post) => Some (l :: pre, x, post)
           | None => None
           end
  end.

(** The first container holding the leaf [r], with the containers before and
    after it. *)
Fixpoint aroundBlock (r : ref) (bs : list Block)
  : option (list Block * Block * list Block) :=
  match bs with
  | [] => None
  | b :: rest =>
      if isSome (findLeafIn r (block_content b)) then Some ([], b, rest)
      else match aroundBlock r rest with
           | Some (pre, x, post) => Some (b :: pre, x, post)
           | None => None
           end
  end.

Definition sameAttributes (a b : Leaf) : bool :=
  match leaf_url a, leaf_url b with
  | Some x, Some y => String.eqb x y
  | None, None => true
  | _, _ => false
  end &&
  if list_eq_dec string_dec (leaf_style a) (leaf_style b) then true else false.

Definition glue (a b : Leaf) : Leaf :=
  withValue a (leaf_value a ++ leaf_value b)%string.

(** Brings the leaf [b] right behind the leaf [a] that precedes it: whatever
    stands between the two goes, the rest of [b]'s container moves into
    [a]'s, and [fuse] tells what becomes of the two leaves. *)
Definition splice (fuse : Leaf -> Leaf -> list Leaf) (a b : ref)
           (bs : list Block) : list Block :=
  match aroundBlock a bs with
  | None => bs
  | Some (before, ba, behind) =>
      match around a (block_content ba) with
      | None => bs
      | Some (pre, la, post) =>
          match around b post with
          | Some (_, lb, post') =>
              before ++ withContent ba (pre ++ fuse la lb ++ post') :: behind
          | None =>
              match aroundBlock b behind with
              | None => bs
              | Some (_, bb, behind') =>
                  match around b (block_content bb) with
                  | None => bs
                  | Some (_, lb, post') =>
                      before ++ withContent ba (pre ++ fuse la lb ++ post')
                             :: behind'
                  end
              end
          end
      end
  end.

(** [merge]: the two leaves become one when they share their attributes and
    stay neighbours otherwise. *)
Definition merge (d : Doc) (a b : ref) : Doc :=
  withBlocks d
    (splice (fun x y => if sameAttributes x y then [glue x y] else [x; y])
            a b (doc_blocks d)).

(** [join]: the text of [b] is taken over by [a]. *)
Definition join (d : Doc) (a b : ref) : Doc :=
  withBlocks d (splice (fun x y => [glue x y]) a b (doc_blocks d)).

(** Replaces the leaf [r] by the leaves [f] makes of it. *)
Definition expandLeaf (r : ref) (f : Leaf -> list Leaf) (d : Doc) : list Block :=
  map (fun b =>
         withContent b
           (flat_map (fun l => if Nat.eqb (leaf_id l) r then f l else [l])
                     (block_content b)))
      (doc_blocks d).

(** [split(from, to)] isolates the text between the offsets in a leaf of its
    own and returns it; [split(from)] isolates the text from the offset on.
    The part before the first offset, when there is one, stays in the leaf
    split. *)
Definition split (d : Doc) (r : ref) (from : Z) (to : option Z)
  : Doc * option ref :=
  if negb (isLeaf d r) then (d, None)
  else
    let v := value d r in
    let a := Nat.min (Z.to_nat from) (String.length v) in
    let b := match to with
             | Some e => Nat.max a (Nat.min (Z.to_nat e) (String.length v))
             | None => String.length v
             end in
    let f := doc_fresh d in
    let hasPre := negb (Nat.eqb a 0) in
    let hasPost := Nat.ltb b (String.length v) in
    let midId := if hasPre then f else r in
    let postId := if hasPre then S f else f in
    let pieces (l : Leaf) :=
      (if hasPre then [withValue l (take a v)] else [])
        ++ [mkLeaf midId (take (b - a) (drop a v)) (leaf_url l) (leaf_style l)]
        ++ (if hasPost
            then [mkLeaf postId (drop b v) (leaf_url l) (leaf_style l)]
            else []) in
    (mkDoc (doc_root d) (expandLeaf r pieces d) (S (S f)) (doc_gone d),
     Some midId).

(** [break()]: the leaf and what follows it in its container move to a new
    container of the same kind, right behind the old one. *)
Definition break (d : Doc) (r : ref) : Doc * option ref :=
  match aroundBlock r (doc_blocks d) with
  | None => (d, None)
  | Some (before, b, behind) =>
      match around r (block_content b) with
      | None => (d, None)
      | Some (pre, l, post) =>
          (mkDoc (doc_root d)
                 (before ++ withContent b pre
                         :: mkBlock (doc_fresh d) (block_type b) (block_path b)
                                    (l :: post)
                         :: behind)
                 (S (doc_fresh d)) (doc_gone d),
           Some r)
      end
  end.

Definition newLeaf (d : Doc) (v : string) (st : option (list wmTextStyle)) : Leaf :=
  mkLeaf (doc_fresh d) v None (match st with Some x => x | None => [] end).

Definition createTextPrev (d : Doc) (r : ref) (v : string)
           (st : option (list wmTextStyle)) : Doc * option ref :=
  if negb (isLeaf d r) then (d, None)
  else (mkDoc (doc_root d) (expandLeaf r (fun l => [newLeaf d v st; l]) d)
              (S (doc_fresh d)) (doc_gone d),
        Some (doc_fresh d)).

Definition createTextNext (d : Doc) (r : ref) (v : string)
           (st : option (list wmTextStyle)) : Doc * option ref :=
  if negb (isLeaf d r) then (d, None)
  else (mkDoc (doc_root d) (expandLeaf r (fun l => [l; newLeaf d v st]) d)
              (S (doc_fresh d)) (doc_gone d),
        Some (doc_fresh d)).

(** *** Attributes *)

Definition link (d : Doc) (r : ref) (url : option string) : Doc :=
  mapLeaf r (fun l => mkLeaf (leaf_id l) (leaf_value l) url (leaf_style l)) d.

Definition setStyle (d : Doc) (r : ref) (st : list wmTextStyle) : Doc :=
  mapLeaf r (fun l => mkLeaf (leaf_id l) (leaf_value l) (leaf_url l) st) d.

Definition hasStyle (st : list wmTextStyle) (x : wmTextStyle) : bool :=
  existsb (String.eqb x) st.

Definition format (d : Doc) (r : ref) (st : list wmTextStyle) : Doc :=
  mapLeaf r
    (fun l => mkLeaf (leaf_id l) (leaf_value l) (leaf_url l)
                     (leaf_style l
                        ++ filter (fun x => negb (hasStyle (leaf_style l) x)) st))
    d.

Definition unformat (d : Doc) (r : ref) (st : list wmTextStyle) : Doc :=
  mapLeaf r
    (fun l => mkLeaf (leaf_id l) (leaf_value l) (leaf_url l)
                     (filter (fun x => negb (hasStyle st x)) (leaf_style l)))
    d.

(** *** Structure *)

(** Neighbouring leaves with the same attributes become one leaf, the first
    of the run, which takes over the text of the others. *)
Fixpoint defragLeaves (ls : list Leaf) : list Leaf :=
  match ls with
  | [] => []
  | l :: rest =>
      match defragLeaves rest with
      | l' :: rest' =>
          if sameAttributes l l' then glue l l' :: rest' else l :: l' :: rest'
      | [] => [l]
      end
  end.

Definition defragBlock (c : ref) (b : Block) : Block :=
  if Nat.eqb (block_id b) c then withContent b (defragLeaves (block_content b))
  else b.

Definition defrag (d : Doc) (c : ref) : Doc :=
  withBlocks d (map (defragBlock c) (doc_blocks d)).

(** Puts [x] right above the node [r] on a chain that runs innermost
    first. *)
Fixpoint wrapAbove (r : ref) (x : ref * wmNodeType)
         (path : list (ref * wmNodeType)) : list (ref * wmNodeType) :=
  match path with
  | [] => []
  | y :: rest =>
      if Nat.eqb (fst y) r then y :: x :: rest else y :: wrapAbove r x rest
  end.

(** [indent(type)]: a new node of the given type is put around the node; it
    is returned. *)
Definition indent (d : Doc) (r : ref) (ty : wmNodeType) : Doc * option ref :=
  if isLeaf d r || Nat.eqb r (doc_root d) || negb (attached d r) then (d, None)
  else
    let x := (doc_fresh d, ty) in
    (mkDoc (doc_root d)
           (map (fun b =>
                   if Nat.eqb (block_id b) r
                   then mkBlock (block_id b) (block_type b) (x :: block_path b)
                                (block_content b)
                   else mkBlock (block_id b) (block_type b)
                                (wrapAbove r x (block_path b)) (block_content b))
                (doc_blocks d))
           (S (doc_fresh d)) (doc_gone d),
     Some (doc_fresh d)).

(** Drops the innermost node of type [ty] from a chain. *)
Fixpoint dropFirst (ty : wmNodeType) (path : list (ref * wmNodeType))
  : list (ref * wmNodeType) :=
  match path with
  | [] => []
  | y :: rest =>
      if wmNodeType_eqb (snd y) ty then rest else y :: dropFirst ty rest
  end.

(** [unindent(type)]: the nearest node of the given type around the
    container goes. *)
Definition unindent (d : Doc) (r : ref) (ty : wmNodeType) : Doc :=
  let dropped :=
    match findBlock r (doc_blocks d) with
    | Some b =>
        match find (fun y => wmNodeType_eqb (snd y) ty) (block_path b) with
        | Some y => [y]
        | None => []
        end
    | None => []
    end in
  mkDoc (doc_root d)
        (map (fun b =>
                if Nat.eqb (block_id b) r
                then mkBlock (block_id b) (block_type b)
                             (dropFirst ty (block_path b)) (block_content b)
                else b)
             (doc_blocks d))
        (doc_fresh d)
        (dropped ++ doc_gone d).

(** *** Notions used in the statements about the model *)

Definition leavesOf (b : Block) : list ref := map leaf_id (block_content b).

Definition idsOf (bs : list Block) : list ref := flat_map blockIds bs.

(** The leaf [x] is a child of the [j]-th container. *)
Definition inBlock (bs : list Block) (j : nat) (x : ref) : Prop :=
  exists b, nth_error bs j = Some b /\ In x (leavesOf b).

(** A container [defrag()] has nothing to do in. *)
Definition fixedBlock (b : Block) : Prop :=
  defragLeaves (block_content b) = block_content b.

(** No two neighbours in the run share their attributes. *)
Fixpoint stable (ls : list Leaf) : Prop :=
  match ls with
  | a :: (b :: _) as rest => sameAttributes a b = false /\ stable rest
  | _ => True
  end.

(** The container with its leaves defragmented. *)
Definition defragged (b : Block) : Block :=
  withContent b (defragLeaves (block_content b)).

(** No two nodes of the tree are the same object. *)
Definition wellFormed (d : Doc) : Prop := NoDup (ids d).

(** When the selection is valid, its start leaf is in a container from the
    [lo]-th on and its end leaf in a container up to the [hi]-th. *)
Definition spans (bs : list Block) (lo hi : nat) (s : Selection) : Prop :=
  valid s = true ->
  exists a e i j,
    start s = Some a /\ end_ s = Some e /\
    inBlock bs i a /\ inBlock bs j e /\
    (lo <= i)%nat /\ (j <= hi)%nat.

(** The text of every leaf, container by container. *)
Definition texts (d : Doc) : list (list string) :=
  map (fun b => map leaf_value (block_content b)) (doc_blocks d).

End Model.

(** Modelled from the spec: the model provides every member of the
    interface. *)
#[export] Instance docOps : Tree.Ops Model.Doc := {|
  Tree.length := Model.length;
  Tree.value := Model.value;
  Tree.empty := Model.empty;
  Tree.type := Model.type;
  Tree.style := Model.style;
  Tree.removed := Model.removed;
  Tree.container := Model.container;
  Tree.content := Model.content;
  Tree.first := Model.first;
  Tree.last := Model.last;
  Tree.compare := Model.compare;
  Tree.previousText := Model.previousText;
  Tree.nextText := Model.nextText;
  Tree.siblings := Model.siblings;
  Tree.climb := Model.climb;
  Tree.ancestor := Model.ancestor;
  Tree.lastChild := Model.lastChild;
  Tree.next := Model.next;
  Tree.nextSibling := Model.nextSibling;
  Tree.walkTree := Model.walkTree;
  Tree.insert := Model.insert;
  Tree.extract := Model.extract;
  Tree.cut := Model.cut;
  Tree.merge := Model.merge;
  Tree.join := Model.join;
  Tree.split := Model.split;
  Tree.break := Model.break;
  Tree.createTextPrev := Model.createTextPrev;
  Tree.createTextNext := Model.createTextNext;
  Tree.link := Model.link;
  Tree.setStyle := Model.setStyle;
  Tree.format := Model.format;
  Tree.unformat := Model.unformat;
  Tree.defrag := Model.defrag;
  Tree.indent := Model.indent;
  Tree.unindent := Model.unindent
|}.

(** ** Notions used in the statements *)

Section Notions.

Context {T : Type} {ops : Tree.Ops T}.

(** The text length of a run of children. *)
Definition lengths (t : T) (l : list ref) : Z :=
  fold_right (fun c acc => Z.of_nat (Tree.length t c) + acc) 0 l.

(** The leaf [node] is part of the tree, under the container [c]. *)
Definition attachedTo (t : T) (node c : ref) : Prop :=
  Tree.removed t node = false /\
  Tree.container t node = Some c /\
  In node (Tree.content t c).

(** The point [(node, ofs)] is one that [save()] / [restore()] give back:
    [node] is a child of a container of the tree and the offset, at most the
    length of the leaf, is positive unless [node] is the first child. *)
Definition anchored (t : T) (node : ref) (ofs : Z) : Prop :=
  Tree.removed t node = false /\
  exists c pre post,
    Tree.container t node = Some c /\
    Tree.removed t c = false /\
    Tree.content t c = pre ++ node :: post /\
    ~ In node pre /\
    0 <= ofs <= Z.of_nat (Tree.length t node) /\
    (0 < ofs \/ pre = []).

(** The start point precedes or equals the end point in document order. *)
Definition ordered (t : T) (s : Selection) : Prop :=
  match start s, end_ s with
  | Some a, Some b =>
      Tree.compare t a b <= 0 /\ (a = b -> startOfs s <= endOfs s)
  | _, _ => False
  end.

(** The selection with its two points exchanged. *)
Definition swapped (s : Selection) : Selection :=
  mkSelection (root s) (end_ s) (endOfs s) (start s) (startOfs s)
              (modified s) (stack s) (allocated s).

(** The selection with the [modified] flag cleared. *)
Definition unmarked (s : Selection) : Selection :=
  mkSelection (root s) (start s) (startOfs s) (end_ s) (endOfs s)
              false (stack s) (allocated s).

(** A collapsed cursor at [(node, ofs)], marked as modified, on the
    selection [s]. *)
Definition cursorAt (s : Selection) (node : ref) (ofs : Z) : Selection :=
  mkSelection (root s) (Some node) ofs (Some node) ofs true
              (stack s) (allocated s).

(** Whatever the computation returns satisfies [Q]. *)
Definition yields {A} (m : M T A) (Q : A -> Prop) : Prop :=
  forall w a w', m w = Return a w' -> Q a.

(** The method hands back the selection itself whenever it returns. *)
Definition returnsThis (m : M T Returned) : Prop :=
  yields m (fun r => r = RThis).

(** The host raises while [query] reads its selection range: in
    [getSelection()] or in [getRangeAt(0)]. *)
Definition hostRaises (doc : Document) : bool :=
  match getSelection doc with
  | Raises => true
  | Gives (Some sl) =>
      (rangeCount sl >? 0) &&
      match getRangeAt0 sl with Raises => true | Gives _ => false end
  | Gives None => false
  end.

(** The leaf the text typed at the trailing edge of the link [a] goes to:
    the next leaf of the container, or a new empty one. *)
Definition behindLink (t : T) (a : ref) : T * option ref :=
  match Tree.nextText t a false with
  | Some n => (t, Some n)
  | None => Tree.createTextNext t a "" None
  end.

(** The leaves [unlink()] goes through, in the order it visits them: from
    [node] along [nextText(true)], up to the first leaf that comes after
    the end node [e] in document order or to the last leaf there is.  Every
    leaf visited has its link taken off before the next leaf is looked up,
    in the tree as it then is. *)
Fixpoint unlinkVisits (t : T) (e : ref) (node : option ref) (l : list ref)
  : Prop :=
  match l with
  | [] =>
      match node with
      | Some nd => 0 < Tree.compare t nd e
      | None => True
      end
  | x :: l' =>
      node = Some x /\ Tree.compare t x e <= 0 /\
      unlinkVisits (Tree.link t x None) e
                   (Tree.nextText (Tree.link t x None) x true) l'
  end.

(** The tree with the link taken off every leaf of [l]. *)
Definition unlinked (t : T) (l : list ref) : T :=
  fold_left (fun t x => Tree.link t x None) l t.

(** The selection [s'] has the root, the two points and the stack of [s];
    the [modified] flag may differ. *)
Definition samePoints (s s' : Selection) : Prop :=
  root s' = root s /\
  start s' = start s /\ startOfs s' = startOfs s /\
  end_ s' = end_ s /\ endOfs s' = endOfs s /\
  stack s' = stack s /\ allocated s' = allocated s.

(** Started in a state that satisfies [P], the method ends -- it returns or
    it throws -- in a state that satisfies [Q]. *)
Definition ensures {A} (P : World T -> Prop) (m : M T A)
           (Q : World T -> Prop) : Prop :=
  forall w, P w ->
    match m w with
    | Return _ w' | Throw _ w' => Q w'
    | OutOfFuel => True
    end.

(** However the method ends, the tree is the one it started with. *)
Definition keepsTree {A} (m : M T A) : Prop :=
  forall t, ensures (fun w => fst w = t) m (fun w => fst w = t).

(** However the method ends, the selection has the points it started
    with. *)
Definition keepsPoints {A} (m : M T A) : Prop :=
  forall s,
    ensures (fun w => samePoints s (snd w)) m (fun w => samePoints s (snd w)).

(** However the method ends, a selection that was valid is valid. *)
Definition keepsValid {A} (m : M T A) : Prop :=
  ensures (fun w => valid (snd w) = true) m (fun w => valid (snd w) = true).

(** The point [(node, ofs)] lies within the text of its node. *)
Definition inBounds (t : T) (node : option ref) (ofs : Z) : Prop :=
  forall n, node = Some n -> 0 <= ofs <= Z.of_nat (Tree.length t n).

(** The selection is a cursor: one point, or no point at all. *)
Definition isCursor (s : Selection) : Prop :=
  start s = end_ s /\ startOfs s = endOfs s.

End Notions.

Arguments returnsThis T m : clear implicits.
Arguments keepsTree T {A} m.
Arguments keepsPoints T {A} m.
Arguments keepsValid T {A} m.

(** ** Sample documents *)

Module Sample.

Local Open Scope string_scope.

(** Two paragraphs: ["abc"] and ["defg"] in the first, ["hello world"] in the
    second. *)
Definition twoParagraphs : Model.Doc :=
  Model.mkDoc 0
    [Model.mkBlock 1 ty_paragraph []
       [Model.mkLeaf 2 "abc" None []; Model.mkLeaf 3 "defg" None []];
     Model.mkBlock 4 ty_paragraph []
       [Model.mkLeaf 5 "hello world" None []]]
    6 [].

(** One paragraph with two hyperlinks side by side. *)
Definition twoLinks : Model.Doc :=
  Model.mkDoc 0
    [Model.mkBlock 1 ty_paragraph []
       [Model.mkLeaf 2 "ab" (Some "https://a.example") [];
        Model.mkLeaf 3 "cd" (Some "https://b.example") []]]
    4 [].

(** One paragraph that ends with a hyperlink. *)
Definition trailingLink : Model.Doc :=
  Model.mkDoc 0
    [Model.mkBlock 1 ty_paragraph []
       [Model.mkLeaf 2 "see " None [];
        Model.mkLeaf 3 "here" (Some "https://a.example") []]]
    4 [].

(** A collapsed cursor and a range, on a selection attached to the root. *)
Definition cursor (node : ref) (ofs : Z) : Selection :=
  mkSelection (Some 0%nat) (Some node) ofs (Some node) ofs false [] 0.

Definition range (a : ref) (aOfs : Z) (b : ref) (bOfs : Z) : Selection :=
  mkSelection (Some 0%nat) (Some a) aOfs (Some b) bOfs false [] 0.

End Sample.

(** * Properties *)

(** Runs the monadic plumbing of a method. *)
Ltac run :=
  cbv beta iota delta
    [bind ret throw getSel getTree putSel putTree deref mutate mutateGet when
     tryCatch orOutOfFuel host];
  simpl.


Section Properties.

Context {T : Type} {ops : Tree.Ops T}.
Variable fuel : nat.

#[local] Arguments resolveOfs : simpl never.
#[local] Arguments relPoint : simpl never.

(** ** Invalid selections *)

(** Every mutating operation that opens with the guard
    [if(!this.valid) { return this; }] leaves the tree and the selection as
    they are on an invalid selection. *)
Lemma guarded_operations_skip (t : T) (s : Selection) :
  valid s = false ->
  (forall char, insert fuel char (t, s) = Return RThis (t, s)) /\
  delete (t, s) = Return RThis (t, s) /\
  (forall newline, break fuel newline (t, s) = Return RThis (t, s)) /\
  split (t, s) = Return RThis (t, s) /\
  (forall style remove, format fuel style remove (t, s) = Return RThis (t, s)) /\
  (forall url, link fuel url (t, s) = Return RThis (t, s)) /\
  unlink fuel (t, s) = Return RThis (t, s) /\
  indent fuel (t, s) = Return RThis (t, s) /\
  (forall type, toggleList fuel type (t, s) = Return RThis (t, s)) /\
  toggleQuote fuel (t, s) = Return RThis (t, s).
Proof.
  intros H.
  repeat split; intros;
    try (unfold insert, delete, break, split, format, unlink, indent,
           toggleList, toggleQuote, bind, getSel, ret; simpl; rewrite H;
         reflexivity).
  unfold link. destruct (falsy url).
  - unfold unlink, bind, getSel, ret; simpl; rewrite H; reflexivity.
  - unfold bind, getSel, ret; simpl; rewrite H; reflexivity.
Qed.

(** [unindent] has no such guard.  With a start node and no end node it
    returns, and [mark()] clears the [modified] flag when the start node sits
    in a list or quote. *)
Lemma unindent_without_end (t : T) rt a so eo m st al indent :
  Tree.climb t a [ty_blockquote; ty_bulleted; ty_numbered] = Some indent ->
  unindent fuel (t, mkSelection rt (Some a) so None eo m st al)
  = Return RThis (t, mkSelection rt (Some a) so None eo false st al).
Proof.
  intros H. unfold unindent, bind, getSel, getTree, deref, ret. simpl.
  rewrite H. reflexivity.
Qed.

(** C1, at the input that breaks it: [unindent()] on a selection with no
    start node dereferences [this.start] and throws a [TypeError], where its
    sibling [indent()] returns the selection as it is. *)
Theorem unindent_without_start_throws (t : T) rt so e eo m st al :
  let s := mkSelection rt None so e eo m st al in
  valid s = false /\
  unindent fuel (t, s) = Throw TypeError (t, s) /\
  indent fuel (t, s) = Return RThis (t, s).
Proof.
  repeat split.
Qed.

(** ** move *)

(** C2, as the code has it: with [B] the leaf right after [A] in document
    order and in another container, [move(+1)] takes the collapsed cursor
    [(A, A.length)] to [(B, 0)]; the one unit moved is the container
    boundary. *)
Theorem move_across_containers (t : T) (s : Selection) (A B : ref) :
  (1 <= fuel)%nat ->
  start s = Some A -> end_ s = Some A ->
  startOfs s = Z.of_nat (Tree.length t A) ->
  endOfs s = Z.of_nat (Tree.length t A) ->
  Tree.nextText t A true = Some B ->
  Tree.siblings t B A = false ->
  move fuel 1 None (t, s)
  = Return RThis
      (t, mkSelection (root s) (Some B) 0 (Some B) 0 true (stack s) (allocated s)).
Proof.
  intros Hf Hs He Hso Heo Hn Hsib.
  destruct fuel as [|n]; [lia|].
  unfold move, bind, getTree, getSel, orOutOfFuel, movePoint. simpl.
  rewrite Hs, Hso.
  assert (Hb : (Z.of_nat (Tree.length t A) + 1 <? 0) = false)
    by (apply Z.ltb_ge; lia).
  rewrite Hb.
  assert (Hg : (Z.of_nat (Tree.length t A) + 1 >? Z.of_nat (Tree.length t A)) = true)
    by (apply Z.gtb_lt; lia).
  rewrite Hg, Hn, Hsib. simpl.
  replace (Z.of_nat (Tree.length t A) + 1 - 1 - Z.of_nat (Tree.length t A))
    with 0 by lia.
  assert (H0 : (0 >? Z.of_nat (Tree.length t B)) = false).
  { destruct (0 >? Z.of_nat (Tree.length t B)) eqn:E; [|reflexivity].
    apply Z.gtb_lt in E. lia. }
  destruct n; simpl; rewrite H0; reflexivity.
Qed.

(** ** link *)

(** The loop of [nodes] with the callback of [unlink()]: it takes the link
    off the leaves it visits, one after the other, and leaves the selection
    alone. *)
Lemma nodes_loop_unlinks (n : nat) (t : T) (s : Selection) (e : ref)
      (node : option ref) (l : list ref) :
  end_ s = Some e ->
  unlinkVisits t e node l ->
  (List.length l <= n)%nat ->
  nodes_loop n (fun x => mutate (fun t => Tree.link t x None)) node (t, s)
  = Return tt (unlinked t l, s).
Proof.
  intros He. revert n t node.
  induction l as [|x l IH]; intros n t node Hv Hn; simpl in Hv.
  - destruct node as [nd|].
    + assert (E : (Tree.compare t nd e <=? 0) = false)
        by (apply Z.leb_gt; exact Hv).
      destruct n; simpl; run; rewrite He; run; rewrite E; reflexivity.
    + destruct n; reflexivity.
  - destruct Hv as (-> & Hc & Hv).
    destruct n as [|n]; [simpl in Hn; lia|].
    assert (E : (Tree.compare t x e <=? 0) = true) by (apply Z.leb_le; exact Hc).
    simpl. run. rewrite He. run. rewrite E.
    apply IH; [exact Hv|simpl in Hn; lia].
Qed.

(** C9: [link(url)] with a falsy [url] -- [null] / [undefined] or the empty
    string -- is [unlink()], on every state.  On a valid selection it takes
    the link off every leaf from the start node along [nextText(true)] up to
    the end node ([node.link(null)], never [node.link(url)]) and then
    defragments.  The start node is among these leaves when it does not come
    after the end node in document order; when it does, no leaf is visited
    and no link is taken off. *)
Theorem link_falsy_is_unlink (url : option string) (t : T) (s : Selection)
        (a e : ref) (l : list ref) :
  falsy url = true ->
  start s = Some a -> end_ s = Some e ->
  unlinkVisits t e (Some a) l ->
  (List.length l <= fuel)%nat ->
  (forall w, link fuel url w = unlink fuel w) /\
  link fuel url (t, s) = defrag fuel (unlinked t l, s) /\
  (Tree.compare t a e <= 0 -> exists l', l = a :: l') /\
  (0 < Tree.compare t a e -> l = [] /\ unlinked t l = t).
Proof.
  intros Hurl Hs He Hv Hn.
  assert (D : forall w, link fuel url w = unlink fuel w)
    by (intros w; unfold link; rewrite Hurl; reflexivity).
  split; [exact D|]. split.
  - assert (V : valid s = true) by (unfold valid; rewrite Hs, He; reflexivity).
    pose proof (nodes_loop_unlinks fuel t s e (Some a) l He Hv Hn) as L.
    assert (N : nodes fuel (fun x => mutate (fun t => Tree.link t x None)) (t, s)
                = Return RThis (unlinked t l, s)).
    { unfold nodes, bind, getSel. cbn [snd]. rewrite V. cbn [negb].
      rewrite Hs, L. reflexivity. }
    rewrite D. unfold unlink, bind, getSel. cbn [snd]. rewrite V. cbn [negb].
    rewrite N. reflexivity.
  - destruct l as [|x l']; simpl in Hv.
    + split; [lia|]. intros _. split; reflexivity.
    + destruct Hv as (Hx & Hc & _). inversion Hx. subst x.
      split; [intros _; exists l'; reflexivity|lia].
Qed.

(** ** query *)

(** *** What the chainable methods return *)

Lemma returnsThis_ret : returnsThis T (ret RThis).
Proof. intros w r w' H. inversion H. reflexivity. Qed.

Lemma returnsThis_bind {A} (m : M T A) (k : A -> M T Returned) :
  (forall a, returnsThis T (k a)) -> returnsThis T (bind m k).
Proof.
  intros Hk w r w' H. unfold bind in H.
  destruct (m w) as [a w1| |]; try discriminate. exact (Hk a w1 r w' H).
Qed.

Lemma returnsThis_throw (e : Exn) : returnsThis T (throw e).
Proof. intros w r w' H. discriminate. Qed.

Lemma returnsThis_outOfFuel : returnsThis T (fun _ => OutOfFuel).
Proof. intros w r w' H. discriminate. Qed.

(** Follows the shape of a method down to its [return] statements. *)
Ltac returns_this :=
  repeat first
    [ apply returnsThis_ret
    | apply returnsThis_throw
    | apply returnsThis_outOfFuel
    | assumption
    | apply returnsThis_bind; intros
    | match goal with
      | |- returnsThis _ (if ?b then _ else _) => destruct b
      | |- returnsThis _ (match ?x with _ => _ end) => destruct x
      end ].

Lemma returnsThis_mark (m : bool) : returnsThis T (mark m).
Proof. unfold mark. returns_this. Qed.

Lemma returnsThis_set (a : option ref) (ao : Z) (b : option ref) (bo : Z) :
  returnsThis T (set a ao b bo).
Proof. unfold set. returns_this. Qed.

Lemma returnsThis_move (ds : Z) (de : option Z) : returnsThis T (move fuel ds de).
Proof. unfold move. returns_this; try apply returnsThis_set. Qed.

Lemma returnsThis_restore : returnsThis T restore.
Proof.
  unfold restore, setCursor. returns_this; try apply returnsThis_set.
Qed.

Lemma returnsThis_wordWrap : returnsThis T wordWrap.
Proof.
  unfold wordWrap. returns_this;
    try first [apply returnsThis_set | apply returnsThis_mark].
Qed.

Lemma yields_bind {A B} (m : M T A) (k : A -> M T B) (P : A -> Prop)
      (Q : B -> Prop) :
  yields m P -> (forall a, P a -> yields (k a) Q) -> yields (bind m k) Q.
Proof.
  intros Hm Hk w r w' H. unfold bind in H.
  destruct (m w) as [a w1| |] eqn:E; try discriminate.
  exact (Hk a (Hm w a w1 E) w1 r w' H).
Qed.

Lemma yields_anything {A} (m : M T A) : yields m (fun _ => True).
Proof. intros w a w' _. exact I. Qed.

Lemma yields_ret {A} (a : A) (Q : A -> Prop) : Q a -> yields (T:=T) (ret a) Q.
Proof. intros H w r w' E. inversion E. subst. exact H. Qed.

Lemma returnsThis_delete : returnsThis T delete.
Proof.
  unfold delete.
  apply returnsThis_bind; intros s.
  destruct (negb (valid s)); [apply returnsThis_ret|].
  apply returnsThis_bind; intros a.
  apply returnsThis_bind; intros b.
  apply (yields_bind _ _ (fun x => x = None \/ x = Some RThis)).
  - destruct (single s).
    + apply (yields_bind _ _ (fun _ => True)); [apply yields_anything|].
      intros _ _.
      apply (yields_bind _ _ (fun _ => True)); [apply yields_anything|].
      intros t _. destruct (negb (Tree.empty t a)).
      * apply (yields_bind _ _ (fun r => r = RThis)).
        -- unfold collapse. returns_this.
        -- intros r ->. apply yields_ret. right. reflexivity.
      * apply yields_ret. left. reflexivity.
    + apply (yields_bind _ _ (fun _ => True)); [apply yields_anything|].
      intros _ _.
      apply (yields_bind _ _ (fun _ => True)); [apply yields_anything|].
      intros _ _. apply yields_ret. left. reflexivity.
  - intros x [-> | ->]; unfold setCursor; returns_this.
Qed.

(** Every method declared to return the selection hands back the selection
    whenever it returns -- [query] with a host document included. *)
Lemma chainable_methods_return_this :
  (forall document, returnsThis T (attach document)) /\
  (forall m, returnsThis T (mark m)) /\
  (forall a ao b bo, returnsThis T (set a ao b bo)) /\
  (forall node ofs, returnsThis T (setCursor node ofs)) /\
  returnsThis T collapse /\
  (forall ds de, returnsThis T (move fuel ds de)) /\
  returnsThis T save /\
  returnsThis T restore /\
  returnsThis T sort /\
  returnsThis T trim /\
  returnsThis T wordWrap /\
  (forall doc, returnsThis T (query (Some doc))) /\
  (forall to, returnsThis T (apply to)) /\
  (forall char, returnsThis T (insert fuel char)) /\
  returnsThis T delete /\
  (forall newline, returnsThis T (break fuel newline)) /\
  returnsThis T split /\
  returnsThis T (defrag fuel) /\
  returnsThis T (clear fuel) /\
  (forall style remove, returnsThis T (format fuel style remove)) /\
  (forall style, returnsThis T (toggleFormat fuel style)) /\
  (forall url, returnsThis T (link fuel url)) /\
  returnsThis T (unlink fuel) /\
  returnsThis T (unindent fuel) /\
  returnsThis T (indent fuel) /\
  (forall type, returnsThis T (toggleList fuel type)) /\
  returnsThis T (toggleQuote fuel).
Proof.
  assert (Hdefrag : returnsThis T (defrag fuel))
    by (unfold defrag; returns_this).
  assert (Hunlink : returnsThis T (unlink fuel))
    by (unfold unlink; returns_this).
  assert (Hformat : forall style remove, returnsThis T (format fuel style remove))
    by (intros; unfold format; returns_this).
  repeat apply conj; intros.
  - unfold attach. returns_this.
  - apply returnsThis_mark.
  - apply returnsThis_set.
  - apply returnsThis_set.
  - unfold collapse. returns_this; try apply returnsThis_set.
  - apply returnsThis_move.
  - unfold save. returns_this.
  - apply returnsThis_restore.
  - unfold sort. returns_this.
  - unfold trim. returns_this.
  - apply returnsThis_wordWrap.
  - unfold query. returns_this; try apply returnsThis_mark.
  - unfold apply. returns_this; try apply returnsThis_mark.
  - unfold insert. returns_this; try apply returnsThis_move.
  - apply returnsThis_delete.
  - unfold break, setCursor. returns_this;
      try first [apply returnsThis_move | apply returnsThis_set].
  - unfold split. returns_this.
  - exact Hdefrag.
  - unfold clear. returns_this.
  - apply Hformat.
  - unfold toggleFormat. returns_this; try apply Hformat.
  - unfold link. returns_this; try apply returnsThis_set.
  - exact Hunlink.
  - unfold unindent. returns_this; try apply returnsThis_mark.
  - unfold indent. returns_this; try apply returnsThis_mark.
  - unfold toggleList. returns_this; try apply returnsThis_mark.
  - unfold toggleQuote. returns_this; try apply returnsThis_mark.
Qed.

(** C10: [query] without a host document returns [null], not the selection;
    the tree, the endpoints and the [modified] flag stay as they are.  It is
    the one case in which a method declared to return the selection returns
    something else: with a host document [query] returns the selection, and
    so does every other such method. *)
Theorem query_without_document (w : World T) :
  query None w = Return RNull w /\
  (forall doc, returnsThis T (query (Some doc))) /\
  (forall document, returnsThis T (attach document)) /\
  (forall m, returnsThis T (mark m)) /\
  (forall a ao b bo, returnsThis T (set a ao b bo)) /\
  (forall node ofs, returnsThis T (setCursor node ofs)) /\
  returnsThis T collapse /\
  (forall ds de, returnsThis T (move fuel ds de)) /\
  returnsThis T save /\
  returnsThis T restore /\
  returnsThis T sort /\
  returnsThis T trim /\
  returnsThis T wordWrap /\
  (forall to, returnsThis T (apply to)) /\
  (forall char, returnsThis T (insert fuel char)) /\
  returnsThis T delete /\
  (forall newline, returnsThis T (break fuel newline)) /\
  returnsThis T split /\
  returnsThis T (defrag fuel) /\
  returnsThis T (clear fuel) /\
  (forall style remove, returnsThis T (format fuel style remove)) /\
  (forall style, returnsThis T (toggleFormat fuel style)) /\
  (forall url, returnsThis T (link fuel url)) /\
  returnsThis T (unlink fuel) /\
  returnsThis T (unindent fuel) /\
  returnsThis T (indent fuel) /\
  (forall type, returnsThis T (toggleList fuel type)) /\
  returnsThis T (toggleQuote fuel).
Proof.
  pose proof chainable_methods_return_this as H.
  split; [reflexivity|]. tauto.
Qed.

(** C3, as the code has it: an exception raised by the host while [query]
    reads its selection range is swallowed -- [query] returns the selection
    -- and the tree and both endpoints stay as they were; only the
    [modified] flag is cleared.  No exception leaves [query] at all. *)
Theorem query_swallows_host_exception (doc : Document) (t : T) (s : Selection) :
  hostRaises doc = true ->
  query (Some doc) (t, s) = Return RThis (t, unmarked s) /\
  (forall from w e w', query from w <> Throw e w').
Proof.
  intros H. split.
  - unfold hostRaises in H. unfold query, mark, unmarked.
    destruct (getSelection doc) as [[sl|]|]; try discriminate.
    + apply andb_prop in H. destruct H as [H1 H2].
      destruct (getRangeAt0 sl) eqn:E; [discriminate|].
      run. rewrite H1, E. run. rewrite andb_false_r. reflexivity.
    + run. rewrite andb_false_r. reflexivity.
  - intros from w e w'. unfold query. destruct from as [d|]; [|discriminate].
    unfold bind at 1. unfold tryCatch.
    match goal with
    | |- context [match ?b w with _ => _ end] => destruct (b w)
    end; unfold mark, bind, getSel, putSel, ret; simpl; discriminate.
Qed.

(** ** save / restore *)

Lemma lengths_nonneg (t : T) (l : list ref) : 0 <= lengths t l.
Proof.
  induction l as [|x l IH]; simpl; lia.
Qed.

Lemma absPoint_loop_found (t : T) (node : ref) (pre post : list ref) (ofs : Z) :
  ~ In node pre ->
  absPoint_loop t node (pre ++ node :: post) ofs
  = (Tree.container t node, ofs + lengths t pre).
Proof.
  revert ofs. induction pre as [|x pre IH]; intros ofs Hn; simpl.
  - rewrite Nat.eqb_refl. f_equal. lia.
  - destruct (Nat.eqb x node) eqn:E.
    + apply Nat.eqb_eq in E. exfalso. apply Hn. left. exact E.
    + rewrite IH by (intros H; apply Hn; right; exact H). f_equal. lia.
Qed.

Lemma absPoint_loop_in (t : T) (node : ref) (l : list ref) (ofs : Z) :
  In node l ->
  fst (absPoint_loop t node l ofs) = Tree.container t node.
Proof.
  revert ofs. induction l as [|x l IH]; intros ofs Hin; simpl.
  - destruct Hin.
  - destruct (Nat.eqb x node) eqn:E.
    + apply Nat.eqb_eq in E. subst x. reflexivity.
    + apply IH. destruct Hin as [H|H]; [|exact H].
      subst x. rewrite Nat.eqb_refl in E. discriminate.
Qed.

Lemma relPoint_loop_found (t : T) (node : ref) (pre post : list ref) (ofs : Z) :
  ofs <= Z.of_nat (Tree.length t node) ->
  0 < ofs \/ pre = [] ->
  relPoint_loop t (pre ++ node :: post) (ofs + lengths t pre) = (Some node, ofs).
Proof.
  intros Hle Hpos. induction pre as [|x pre IH]; simpl.
  - replace (ofs + 0) with ofs by lia.
    apply Z.leb_le in Hle. rewrite Hle. reflexivity.
  - destruct Hpos as [Hpos|Hnil]; [|discriminate].
    pose proof (lengths_nonneg t pre) as Hp.
    assert (E : (ofs + (Z.of_nat (Tree.length t x) + lengths t pre)
                 <=? Z.of_nat (Tree.length t x)) = false)
      by (apply Z.leb_gt; lia).
    rewrite E.
    replace (ofs + (Z.of_nat (Tree.length t x) + lengths t pre)
             - Z.of_nat (Tree.length t x))
      with (ofs + lengths t pre) by lia.
    apply IH. left. exact Hpos.
Qed.

(** What [absPoint] makes of an anchored point, and what [relPoint] makes of
    that. *)
Lemma absPoint_anchored (t : T) (node : ref) (ofs : Z) :
  anchored t node ofs ->
  exists c abs,
    (forall s, absPoint (Some node) ofs (t, s) = Return (Some c, abs) (t, s)) /\
    Tree.removed t c = false /\
    relPoint t (Some c) abs = (Some node, ofs) /\
    0 <= ofs.
Proof.
  intros (Hr & c & pre & post & Hc & Hrc & Hcont & Hn & Hofs & Hpos).
  exists c, (ofs + lengths t pre). repeat split; try lia; try assumption.
  - intros s. unfold absPoint. run. rewrite Hr, Hc. run.
    rewrite Hcont, absPoint_loop_found by exact Hn. rewrite Hc. reflexivity.
  - unfold relPoint. rewrite Hcont. apply relPoint_loop_found; [lia|exact Hpos].
Qed.

Lemma resolveOfs_nonneg (t : T) (node : option ref) (ofs : Z) :
  0 <= ofs -> resolveOfs t node ofs = ofs.
Proof.
  intros H. unfold resolveOfs. destruct node; [|reflexivity].
  destruct (ofs <? 0) eqn:E; [|reflexivity]. apply Z.ltb_lt in E. lia.
Qed.

(** C4, as the code has it: [save()] then [restore()] on an unchanged tree
    gives back both endpoints -- leaf and offset -- when each endpoint is a
    child of a container of the tree and its offset is positive or its leaf
    is the first child.  (An endpoint at offset 0 of a later child is what
    [relPoint] resolves to the child before.) *)
Theorem save_restore_endpoints (t : T) (s : Selection) (a b : ref) :
  start s = Some a -> end_ s = Some b ->
  anchored t a (startOfs s) -> anchored t b (endOfs s) ->
  exists s',
    bind save (fun _ => restore) (t, s) = Return RThis (t, s') /\
    start s' = Some a /\ startOfs s' = startOfs s /\
    end_ s' = Some b /\ endOfs s' = endOfs s /\
    stack s' = stack s.
Proof.
  intros Hs He Ha Hb.
  destruct (absPoint_anchored t a (startOfs s) Ha)
    as (ca & oa & Pa & Ra & Qa & Na).
  destruct (collapsed s) eqn:Hcol.
  - (* the cursor: the same tuple is pushed twice *)
    assert (Hab : a = b /\ startOfs s = endOfs s).
    { unfold collapsed, single in Hcol. rewrite Hs, He in Hcol. simpl in Hcol.
      apply andb_prop in Hcol. destruct Hcol as [H1 H2].
      apply andb_prop in H1. destruct H1 as [_ H1].
      apply Nat.eqb_eq in H1. apply Z.eqb_eq in H2. split; assumption. }
    destruct Hab as [<- Eo].
    eexists. split.
    + unfold bind at 1. unfold save. unfold bind at 1. unfold getSel at 1.
      cbv beta iota. simpl snd. unfold bind at 1. rewrite Hs, Pa.
      cbv beta iota. unfold setStack. run. rewrite Hcol. run.
      unfold restore. run. rewrite Ra. rewrite Nat.eqb_refl.
      rewrite Qa. unfold setCursor, set, setStart, setEnd. run.
      rewrite resolveOfs_nonneg by exact Na. reflexivity.
    + simpl. repeat split; congruence.
  - destruct (absPoint_anchored t b (endOfs s) Hb)
      as (cb & ob & Pb & Rb & Qb & Nb).
    eexists. split.
    + unfold bind at 1. unfold save. unfold bind at 1. unfold getSel at 1.
      cbv beta iota. simpl snd. unfold bind at 1. rewrite Hs, Pa.
      cbv beta iota. unfold setStack. run. rewrite Hcol. run.
      rewrite He, Pb. run.
      unfold restore. run. rewrite Ra, Rb.
      assert (Hid : Nat.eqb (allocated s) (S (allocated s)) = false)
        by (apply Nat.eqb_neq; lia).
      rewrite Hid. rewrite Qa, Qb. unfold setStart, setEnd. run.
      rewrite !resolveOfs_nonneg by assumption. reflexivity.
    + simpl. repeat split; congruence.
Qed.

(** What [absPoint] makes of a leaf that is part of the tree. *)
Lemma absPoint_attached (t : T) (node c : ref) (ofs : Z) :
  attachedTo t node c ->
  exists abs,
    forall s, absPoint (Some node) ofs (t, s) = Return (Some c, abs) (t, s).
Proof.
  intros (Hr & Hc & Hin).
  exists (snd (absPoint_loop t node (Tree.content t c) ofs)).
  intros s. unfold absPoint. run. rewrite Hr, Hc. run.
  pose proof (absPoint_loop_in t node (Tree.content t c) ofs Hin) as E.
  destruct (absPoint_loop t node (Tree.content t c) ofs) as [x y].
  simpl in *. rewrite E, Hc. reflexivity.
Qed.

(** When both endpoints are leaves of the tree as the selection is saved,
    both saved positions have a container; when either container is removed
    from the tree before [restore()], [restore()] returns with both
    endpoints [null]. *)
Lemma restore_after_container_removed (t : T) (s : Selection) (a b ca cb : ref) :
  start s = Some a -> end_ s = Some b ->
  attachedTo t a ca -> attachedTo t b cb ->
  exists s1,
    save (t, s) = Return RThis (t, s1) /\
    forall (t' : T) (s1' : Selection),
      stack s1' = stack s1 ->
      Tree.removed t' ca = true \/ Tree.removed t' cb = true ->
      exists s2,
        restore (t', s1') = Return RThis (t', s2) /\
        start s2 = None /\ end_ s2 = None.
Proof.
  intros Hs He Ha Hb.
  destruct (absPoint_attached t a ca (startOfs s) Ha) as (oa & Pa).
  destruct (collapsed s) eqn:Hcol.
  - assert (Hab : a = b).
    { unfold collapsed, single in Hcol. rewrite Hs, He in Hcol. simpl in Hcol.
      apply andb_prop in Hcol. destruct Hcol as [H1 _].
      apply andb_prop in H1. destruct H1 as [_ H1].
      apply Nat.eqb_eq in H1. exact H1. }
    subst b.
    assert (cb = ca).
    { destruct Ha as (_ & Ha & _). destruct Hb as (_ & Hb & _). congruence. }
    subst cb.
    eexists. split.
    + unfold save. unfold bind at 1. unfold getSel at 1.
      cbv beta iota. simpl snd. unfold bind at 1. rewrite Hs, Pa.
      cbv beta iota. unfold setStack. run. rewrite Hcol. run. reflexivity.
    + intros t' s1' Hst Hrem. simpl in Hst.
      assert (Hr : Tree.removed t' ca = true) by (destruct Hrem; assumption).
      eexists. split.
      * unfold restore. run. rewrite Hst. unfold setStack. run. rewrite Hr.
        unfold set, setStart, setEnd. run. reflexivity.
      * split; reflexivity.
  - destruct (absPoint_attached t b cb (endOfs s) Hb) as (ob & Pb).
    eexists. split.
    + unfold save. unfold bind at 1. unfold getSel at 1.
      cbv beta iota. simpl snd. unfold bind at 1. rewrite Hs, Pa.
      cbv beta iota. unfold setStack. run. rewrite Hcol. run.
      rewrite He, Pb. run. reflexivity.
    + intros t' s1' Hst Hrem. simpl in Hst.
      eexists. split.
      * unfold restore. run. rewrite Hst. unfold setStack. run.
        destruct (Tree.removed t' ca) eqn:Hr.
        -- unfold set, setStart, setEnd. run. reflexivity.
        -- destruct Hrem as [Hx|Hx]; [discriminate|]. rewrite Hx.
           unfold set, setStart, setEnd. run. reflexivity.
      * destruct (Tree.removed t' ca); split; reflexivity.
Qed.

(** C5, at the input that breaks it: the start point is [null], or its
    leaf is off the tree, and the end point is on a leaf of the tree.
    [save()] returns; the start position it stores has no container.  When
    the container of the saved end position is then removed from the tree,
    [restore()] does not empty the selection: it reads [removed] of [null]
    and throws a [TypeError], with the two positions popped and both
    endpoints as they were -- the end still on the leaf of the removed
    container. *)
Theorem restore_after_removal_throws (t : T) (s : Selection) (b cb : ref)
        (t' : T) :
  (forall a, start s = Some a -> Tree.removed t a = true) ->
  end_ s = Some b ->
  attachedTo t b cb ->
  Tree.removed t' cb = true ->
  exists s1,
    save (t, s) = Return RThis (t, s1) /\
    start s1 = start s /\ end_ s1 = Some b /\
    restore (t', s1)
    = Throw TypeError
        (t', mkSelection (root s) (start s) (startOfs s) (Some b) (endOfs s)
                         (modified s) (stack s) (allocated s1)).
Proof.
  intros Hstale He Hb _.
  destruct (absPoint_attached t b cb (endOfs s) Hb) as (ob & Pb).
  assert (Pa : absPoint (start s) (startOfs s) (t, s) = Return (None, 0) (t, s)).
  { unfold absPoint. run. destruct (start s) as [a|]; [|reflexivity].
    rewrite (Hstale a eq_refl). reflexivity. }
  assert (Hcol : collapsed s = false).
  { unfold collapsed, single, valid. rewrite He.
    destruct (start s) as [a|] eqn:Hs; [|reflexivity]. simpl.
    destruct (Nat.eqb a b) eqn:E; [|reflexivity].
    apply Nat.eqb_eq in E. subst a.
    destruct Hb as (Hr & _). rewrite (Hstale b eq_refl) in Hr. discriminate. }
  eexists. split.
  - unfold save. unfold bind at 1. unfold getSel at 1. cbv beta iota.
    simpl snd. unfold bind at 1. rewrite Pa. cbv beta iota.
    unfold setStack. run. rewrite Hcol. run. rewrite He, Pb. run.
    reflexivity.
  - simpl. split; [reflexivity|]. split; [reflexivity|].
    unfold restore. run. unfold setStack. run. reflexivity.
Qed.

(** ** sort *)

(** C6: on a valid selection [sort()] returns with the start point before or
    at the end point in document order -- by [compare] on different leaves,
    by offset on the same leaf -- the two points being the ones it was given,
    exchanged or not.  [compare] is taken as the document order it is meant
    to be: when [x] comes after [y], [y] does not come after [x]. *)
Theorem sort_orders_endpoints (t : T) (s : Selection) :
  valid s = true ->
  (forall x y, Tree.compare t x y > 0 -> Tree.compare t y x <= 0) ->
  exists s',
    sort (t, s) = Return RThis (t, s') /\
    ordered t s' /\
    reversed t s' = false /\
    (s' = s \/ s' = swapped s).
Proof.
  intros Hv Hanti.
  unfold valid in Hv.
  destruct (start s) as [a|] eqn:Hs; [|discriminate].
  destruct (end_ s) as [b|] eqn:He; [|discriminate]. clear Hv.
  destruct (reversed t s) eqn:Hrev.
  - exists (swapped s).
    split; [unfold sort; run; rewrite Hrev; run; reflexivity|].
    unfold reversed in Hrev. rewrite Hs, He in Hrev.
    assert (Hba : Tree.compare t b a <= 0 /\ (b = a -> endOfs s <= startOfs s)).
    { apply orb_prop in Hrev. destruct Hrev as [H|H].
      - apply andb_prop in H. destruct H as [H1 H2].
        apply Nat.eqb_eq in H1. subst b. apply Z.gtb_lt in H2.
        split; [|lia].
        destruct (Z_le_gt_dec (Tree.compare t a a) 0) as [L|G]; [exact L|].
        apply Hanti. exact G.
      - apply Z.gtb_lt in H. split; [apply Hanti; lia|].
        intros ->. specialize (Hanti a a). lia. }
    destruct Hba as [Hc Ho].
    split; [|split; [|right; reflexivity]].
    + unfold ordered, swapped. simpl. rewrite Hs, He. split; assumption.
    + unfold reversed, swapped. simpl. rewrite Hs, He.
      apply orb_false_intro.
      * destruct (Nat.eqb b a) eqn:E; [|reflexivity]. simpl.
        apply Nat.eqb_eq in E. specialize (Ho E).
        destruct (endOfs s >? startOfs s) eqn:G; [|reflexivity].
        apply Z.gtb_lt in G. lia.
      * destruct (Tree.compare t b a >? 0) eqn:G; [|reflexivity].
        apply Z.gtb_lt in G. lia.
  - exists s.
    split; [unfold sort; run; rewrite Hrev; run; destruct s; reflexivity|].
    split; [|split; [exact Hrev|left; reflexivity]].
    unfold reversed in Hrev. rewrite Hs, He in Hrev.
    apply orb_false_elim in Hrev. destruct Hrev as [H1 H2].
    unfold ordered. rewrite Hs, He. split.
    + destruct (Tree.compare t a b >? 0) eqn:G; [discriminate|].
      destruct (Z_le_gt_dec (Tree.compare t a b) 0) as [L|G']; [exact L|].
      assert (X : (Tree.compare t a b >? 0) = true) by (apply Z.gtb_lt; lia).
      congruence.
    + intros ->. rewrite Nat.eqb_refl in H1. simpl in H1.
      destruct (Z_le_gt_dec (startOfs s) (endOfs s)) as [L|G]; [exact L|].
      assert (X : (startOfs s >? endOfs s) = true) by (apply Z.gtb_lt; lia).
      congruence.
Qed.

(** ** insert *)

(** C7, as the code has it: with the collapsed cursor at the trailing edge
    of the link leaf [a], [insert(char)] puts the text at offset 0 of the
    leaf that follows [a] in its container -- whatever the type of that leaf
    -- or of a new empty text leaf created behind [a] when none follows: the
    one write to the tree is [insert(char, 0)] on that leaf, and the cursor
    ends on it, at the length of the inserted text.  The tree's [insert] is
    taken to make the leaf hold the text it is given. *)
Theorem insert_behind_link (t t0 : T) (s : Selection) (a N : ref) (char : string) :
  start s = Some a -> end_ s = Some a ->
  startOfs s = Z.of_nat (Tree.length t a) ->
  endOfs s = Z.of_nat (Tree.length t a) ->
  Tree.type t a = ty_link ->
  behindLink t a = (t0, Some N) ->
  (String.length char <= Tree.length (Tree.insert t0 N char 0) N)%nat ->
  insert fuel char (t, s)
  = Return RThis
      (Tree.insert t0 N char 0, cursorAt s N (Z.of_nat (String.length char))).
Proof.
  intros Hs He Hso Heo Hty Hnext Hlen.
  assert (Hv : valid s = true) by (unfold valid; rewrite Hs, He; reflexivity).
  assert (Hc : collapsed s = true).
  { unfold collapsed, single. rewrite Hv, Hs, He, Hso, Heo. simpl.
    rewrite Nat.eqb_refl, Z.eqb_refl. reflexivity. }
  unfold insert. run. rewrite Hv, Hc. run. rewrite Hs. run.
  rewrite Hty, Hso, Z.eqb_refl. run.
  unfold behindLink in Hnext.
  assert (Hmove :
    forall t1 : T, t1 = Tree.insert t0 N char 0 ->
    forall st al rt m,
    move fuel (Z.of_nat (String.length char)) None
         (t1, mkSelection rt (Some N) 0 (Some N) 0 m st al)
    = Return RThis
        (t1, mkSelection rt (Some N) (Z.of_nat (String.length char))
                         (Some N) (Z.of_nat (String.length char)) true st al)).
  { intros t1 -> st al rt m. unfold move, movePoint. run.
    assert (B : (Z.of_nat (String.length char) <? 0) = false)
      by (apply Z.ltb_ge; lia).
    assert (F : (Z.of_nat (String.length char)
                 >? Z.of_nat (Tree.length (Tree.insert t0 N char 0) N)) = false).
    { destruct (_ >? _) eqn:G; [|reflexivity]. apply Z.gtb_lt in G. lia. }
    destruct fuel; simpl; rewrite B; destruct fuel; simpl; rewrite F;
      unfold set, setStart, setEnd; run;
      rewrite !resolveOfs_nonneg by lia; reflexivity. }
  destruct (Tree.nextText t a false) as [n|] eqn:Hn.
  - inversion Hnext; subst t0 n. run.
    unfold setCursor, set, setStart, setEnd. run.
    rewrite !resolveOfs_nonneg by lia.
    apply Hmove. reflexivity.
  - simpl fst. rewrite Hnext. run.
    unfold setCursor, set, setStart, setEnd. run.
    rewrite !resolveOfs_nonneg by lia.
    apply Hmove. reflexivity.
Qed.

(** ** defrag: the steps of one run *)


Lemma bind_return {A B} (m : M T A) (k : A -> M T B) (w w' : World T) (a : A) :
  m w = Return a w' -> bind m k w = k a w'.
Proof. intros H. unfold bind. rewrite H. reflexivity. Qed.

Lemma containers_loop_none (n : nat) (cb : ref -> M T unit) (w : World T) :
  containers_loop n cb None w = Return tt w.
Proof. destruct n; reflexivity. Qed.

(** One turn of the loop of [containers] that defragments. *)
Lemma containers_loop_defrag_step (n : nat) (c e : ref) (t : T) (s : Selection) :
  end_ s = Some e ->
  containers_loop n (fun c => mutate (fun t => Tree.defrag t c)) (Some c) (t, s)
  = if Tree.compare t c e <? 0 then
      match n with
      | O => OutOfFuel
      | S n' =>
          match Tree.lastChild (Tree.defrag t c) c with
          | None => Throw TypeError (Tree.defrag t c, s)
          | Some lc =>
              containers_loop n' (fun c => mutate (fun t => Tree.defrag t c))
                (match Tree.next (Tree.defrag t c) lc with
                 | Some nx => Tree.container (Tree.defrag t c) nx
                 | None => None
                 end)
                (Tree.defrag t c, s)
          end
      end
    else Return tt (t, s).
Proof.
  intros He.
  destruct n; simpl;
    cbv beta iota delta [bind ret throw getSel getTree deref mutate];
    simpl; rewrite He; simpl;
    destruct (Tree.compare t c e <? 0); try reflexivity.
  cbn [fst snd].
  destruct (Tree.lastChild (Tree.defrag t c) c); reflexivity.
Qed.


(** [save()] on a selection whose endpoints are leaves of the tree: two
    points go on the stack, each with the container of its leaf; they are
    one tuple for a cursor and two tuples otherwise. *)
Lemma save_attached (t : T) (s : Selection) (a b ca cb : ref) :
  start s = Some a -> end_ s = Some b ->
  attachedTo t a ca -> attachedTo t b cb ->
  exists ps pe al,
    save (t, s)
    = Return RThis
        (t, mkSelection (root s) (Some a) (startOfs s) (Some b) (endOfs s)
                        (modified s) (pe :: ps :: stack s) al) /\
    ap_node ps = Some ca /\ ap_node pe = Some cb /\
    (pe = ps \/ Nat.eqb (ap_id ps) (ap_id pe) = false).
Proof.
  intros Hs He Ha Hb.
  destruct (absPoint_attached t a ca (startOfs s) Ha) as (oa & Pa).
  destruct (collapsed s) eqn:Hcol.
  - assert (Hab : a = b).
    { unfold collapsed, single in Hcol. rewrite Hs, He in Hcol. simpl in Hcol.
      apply andb_prop in Hcol. destruct Hcol as [H1 _].
      apply andb_prop in H1. destruct H1 as [_ H1].
      apply Nat.eqb_eq in H1. exact H1. }
    subst b.
    assert (cb = ca).
    { destruct Ha as (_ & Ha & _). destruct Hb as (_ & Hb & _). congruence. }
    subst cb.
    exists (mkAbsPoint (allocated s) (Some ca) oa),
           (mkAbsPoint (allocated s) (Some ca) oa), (S (allocated s)).
    split; [|repeat split; left; reflexivity].
    unfold save. unfold bind at 1. unfold getSel at 1.
    cbv beta iota. simpl snd. unfold bind at 1. rewrite Hs, Pa.
    cbv beta iota. unfold setStack. run. rewrite Hcol. run.
    rewrite ?Hs, ?He. reflexivity.
  - destruct (absPoint_attached t b cb (endOfs s) Hb) as (ob & Pb).
    exists (mkAbsPoint (allocated s) (Some ca) oa),
           (mkAbsPoint (S (allocated s)) (Some cb) ob), (S (S (allocated s))).
    split; [|repeat split; right; simpl; apply Nat.eqb_neq; lia].
    unfold save. unfold bind at 1. unfold getSel at 1.
    cbv beta iota. simpl snd. unfold bind at 1. rewrite Hs, Pa.
    cbv beta iota. unfold setStack. run. rewrite Hcol. run.
    rewrite He, Pb. run. rewrite ?Hs, ?He. reflexivity.
Qed.

(** [restore()] of two saved points whose containers are in the tree: the
    endpoints are what [relPoint] makes of the points. *)
Lemma restore_saved (t : T) (s : Selection) (ps pe : AbsPoint)
      (rest : list AbsPoint) (cs ce : ref) :
  stack s = pe :: ps :: rest ->
  ap_node ps = Some cs -> ap_node pe = Some ce ->
  Tree.removed t cs = false -> Tree.removed t ce = false ->
  pe = ps \/ Nat.eqb (ap_id ps) (ap_id pe) = false ->
  exists so eo,
    restore (t, s)
    = Return RThis
        (t, mkSelection (root s)
                        (fst (relPoint t (Some cs) (ap_ofs ps))) so
                        (fst (relPoint t (Some ce) (ap_ofs pe))) eo
                        true rest (allocated s)).
Proof.
  intros Hst Hps Hpe Hrs Hre Hid.
  unfold restore. run. rewrite Hst. unfold setStack. run.
  rewrite Hps, Hpe. run. rewrite Hrs, Hre.
  destruct (Nat.eqb (ap_id ps) (ap_id pe)) eqn:E.
  - destruct Hid as [->|Hid]; [|discriminate].
    assert (ce = cs) by congruence. subst ce.
    unfold setCursor, set, setStart, setEnd. run.
    eexists. eexists. reflexivity.
  - unfold setStart, setEnd. run. eexists. eexists. reflexivity.
Qed.

Lemma relPoint_loop_In (t : T) (l : list ref) (ofs : Z) (x : ref) :
  fst (relPoint_loop t l ofs) = Some x -> In x l.
Proof.
  revert ofs. induction l as [|c l IH]; intros ofs; simpl; [discriminate|].
  destruct (ofs <=? Z.of_nat (Tree.length t c)).
  - simpl. intros H. inversion H. left. reflexivity.
  - intros H. right. exact (IH _ H).
Qed.

Lemma defrag_valid (t : T) (s : Selection) :
  valid s = true ->
  defrag fuel (t, s)
  = bind save
      (fun _ =>
         bind (containers fuel (fun c => mutate (fun t => Tree.defrag t c)))
              (fun _ => bind restore (fun _ => bind trim (fun _ => ret RThis))))
      (t, s).
Proof.
  intros H. unfold defrag. unfold bind at 1. unfold getSel. simpl.
  rewrite H. reflexivity.
Qed.

Lemma containers_valid (cb : ref -> M T unit) (t : T)
      (s : Selection) (a e : ref) :
  start s = Some a -> end_ s = Some e ->
  containers fuel cb (t, s)
  = bind (containers_loop fuel cb (Tree.container t a)) (fun _ => ret RThis)
         (t, s).
Proof.
  intros Hs He. unfold containers. unfold bind at 1. unfold getSel. simpl.
  unfold valid. rewrite Hs, He. simpl. reflexivity.
Qed.

End Properties.

(** * The document model: defragmentation *)

Section ListFacts.

Lemma indexOf_bounds (r : ref) (l : list ref) :
  -1 <= Model.indexOf r l < Z.of_nat (List.length l).
Proof.
  induction l as [|x l IH]; simpl; [lia|].
  destruct (Nat.eqb x r); [lia|].
  destruct (Model.indexOf r l <? 0) eqn:E; [lia|].
  apply Z.ltb_ge in E. lia.
Qed.

Lemma indexOf_In (r : ref) (l : list ref) :
  In r l -> 0 <= Model.indexOf r l.
Proof.
  induction l as [|x l IH]; simpl; [intros []|].
  intros H. destruct (Nat.eqb x r) eqn:E; [lia|].
  destruct H as [H|H]; [subst; rewrite Nat.eqb_refl in E; discriminate|].
  specialize (IH H).
  destruct (Model.indexOf r l <? 0) eqn:F; [apply Z.ltb_lt in F; lia|lia].
Qed.

Lemma indexOf_app_l (r : ref) (l1 l2 : list ref) :
  In r l1 -> Model.indexOf r (l1 ++ l2) = Model.indexOf r l1.
Proof.
  induction l1 as [|x l1 IH]; simpl; [intros []|].
  intros H. destruct (Nat.eqb x r) eqn:E; [reflexivity|].
  destruct H as [H|H]; [subst; rewrite Nat.eqb_refl in E; discriminate|].
  rewrite (IH H). reflexivity.
Qed.

Lemma indexOf_app_r (r : ref) (l1 l2 : list ref) :
  ~ In r l1 -> In r l2 ->
  Model.indexOf r (l1 ++ l2) = Z.of_nat (List.length l1) + Model.indexOf r l2.
Proof.
  intros Hn Hin. induction l1 as [|x l1 IH]; [simpl; lia|].
  replace (Z.of_nat (List.length (x :: l1)))
    with (Z.of_nat (List.length l1) + 1) by (simpl List.length; lia).
  simpl. destruct (Nat.eqb x r) eqn:E.
  - apply Nat.eqb_eq in E. exfalso. apply Hn. left. exact E.
  - rewrite IH by (intros H; apply Hn; right; exact H).
    pose proof (indexOf_In r l2 Hin).
    destruct (_ <? 0) eqn:F; [apply Z.ltb_lt in F; lia|lia].
Qed.

Lemma after_skip (x : ref) (l1 l2 : list ref) :
  ~ In x l1 -> Model.after x (l1 ++ l2) = Model.after x l2.
Proof.
  induction l1 as [|a l1 IH]; intros Hn; [reflexivity|].
  assert (Ha : Nat.eqb a x = false).
  { apply Nat.eqb_neq. intros ->. apply Hn. left. reflexivity. }
  assert (Hn' : ~ In x l1) by (intros H; apply Hn; right; exact H).
  specialize (IH Hn').
  simpl. destruct (l1 ++ l2) as [|y r] eqn:E.
  - destruct l1; [|discriminate]. simpl in E. subst l2. reflexivity.
  - rewrite Ha. exact IH.
Qed.

Lemma after_here (x : ref) (l1 l2 : list ref) :
  ~ In x l1 -> Model.after x (l1 ++ x :: l2) = hd_error l2.
Proof.
  intros Hn. rewrite after_skip by exact Hn.
  simpl. destruct l2; [reflexivity|]. rewrite Nat.eqb_refl. reflexivity.
Qed.

Lemma after_In (x y : ref) (l : list ref) :
  Model.after x l = Some y -> In y l.
Proof.
  induction l as [|a l IH]; [discriminate|].
  simpl. destruct l as [|b r]; [discriminate|].
  destruct (Nat.eqb a x).
  - intros H. inversion H. right. left. reflexivity.
  - intros H. right. apply IH. exact H.
Qed.

Lemma before_In (e p : ref) (l1 l2 : list ref) :
  NoDup (l1 ++ l2) -> In e l1 ->
  Model.before e (l1 ++ l2) = Some p -> In p l1.
Proof.
  revert l2. induction l1 as [|a l1 IH]; intros l2 Hnd Hin; [destruct Hin|].
  simpl. destruct (l1 ++ l2) as [|y r] eqn:E; [discriminate|].
  destruct (Nat.eqb y e) eqn:Y.
  - intros H. inversion H. left. reflexivity.
  - intros H. right.
    inversion Hnd as [|? ? Hna Hnd']; subst.
    destruct Hin as [Hin|Hin].
    + (* e is the head: it cannot occur again *)
      subst a. exfalso.
      assert (In e (l1 ++ l2)).
      { rewrite E.
        clear - H. revert y H. induction r as [|z r IHr]; intros y H.
        - discriminate.
        - simpl in H. destruct (Nat.eqb z e) eqn:Z.
          + apply Nat.eqb_eq in Z. subst. right. left. reflexivity.
          + right. apply (IHr z). exact H. }
      contradiction.
    + rewrite <- E in H. apply (IH l2); assumption.
Qed.

End ListFacts.

Section ModelFacts.

Lemma NoDup_app_disjoint {A} (l1 l2 : list A) (x : A) :
  NoDup (l1 ++ l2) -> In x l1 -> ~ In x l2.
Proof.
  induction l1 as [|a l1 IH]; simpl; intros Hnd Hin; [destruct Hin|].
  inversion Hnd as [|? ? Hna Hnd']; subst.
  destruct Hin as [->|Hin].
  - intros H. apply Hna. apply in_or_app. right. exact H.
  - apply IH; assumption.
Qed.

Lemma NoDup_app_middle {A} (l1 l2 l2' l3 : list A) :
  NoDup (l1 ++ l2 ++ l3) -> incl l2' l2 -> NoDup l2' ->
  NoDup (l1 ++ l2' ++ l3).
Proof.
  intros Hnd Hincl Hnd'.
  pose proof (NoDup_app_remove_r _ _ Hnd) as H1.
  pose proof (NoDup_app_remove_l _ _ Hnd) as H23.
  pose proof (NoDup_app_remove_l _ _ H23) as H3.
  apply NoDup_app; [exact H1| |].
  - apply NoDup_app; [exact Hnd'|exact H3|].
    intros a Ha. apply (NoDup_app_disjoint l2 l3 a H23). apply Hincl. exact Ha.
  - intros a Ha Hin. apply (NoDup_app_disjoint _ _ a Hnd Ha).
    apply in_app_or in Hin. apply in_or_app.
    destruct Hin as [Hin|Hin]; [left; apply Hincl; exact Hin|right; exact Hin].
Qed.

Lemma idsOf_app (P Q : list Model.Block) :
  Model.idsOf (P ++ Q) = Model.idsOf P ++ Model.idsOf Q.
Proof. apply flat_map_app. Qed.

Lemma idsOf_split (P Q : list Model.Block) (b : Model.Block) :
  Model.idsOf (P ++ b :: Q)
  = Model.idsOf P ++ (Model.block_id b :: Model.leavesOf b) ++ Model.idsOf Q.
Proof. rewrite idsOf_app. reflexivity. Qed.

Lemma leaves_split (P Q : list Model.Block) (b : Model.Block) :
  flat_map Model.leavesOf (P ++ b :: Q)
  = flat_map Model.leavesOf P ++ Model.leavesOf b ++ flat_map Model.leavesOf Q.
Proof. rewrite flat_map_app. reflexivity. Qed.

Lemma leaves_in_ids (bs : list Model.Block) (x : ref) :
  In x (flat_map Model.leavesOf bs) -> In x (Model.idsOf bs).
Proof.
  unfold Model.idsOf. rewrite !in_flat_map. intros (b & Hb & Hx).
  exists b. split; [exact Hb|]. right. exact Hx.
Qed.

Lemma blockId_in_ids (bs : list Model.Block) (b : Model.Block) :
  In b bs -> In (Model.block_id b) (Model.idsOf bs).
Proof.
  intros H. unfold Model.idsOf. apply in_flat_map. exists b.
  split; [exact H|]. left. reflexivity.
Qed.

Lemma NoDup_leaves (bs : list Model.Block) :
  NoDup (Model.idsOf bs) -> NoDup (flat_map Model.leavesOf bs).
Proof.
  induction bs as [|b bs IH]; simpl; intros H; [constructor|].
  inversion H as [|? ? Hn Hnd]; subst.
  apply NoDup_app.
  - exact (NoDup_app_remove_r _ _ Hnd).
  - apply IH. exact (NoDup_app_remove_l _ _ Hnd).
  - intros a Ha Hin. apply (NoDup_app_disjoint _ _ a Hnd Ha).
    apply leaves_in_ids. exact Hin.
Qed.

(** Looking up the container [b] and its leaves in [P ++ b :: Q]. *)
Lemma findBlock_here (P Q : list Model.Block) (b : Model.Block) :
  NoDup (Model.idsOf (P ++ b :: Q)) ->
  Model.findBlock (Model.block_id b) (P ++ b :: Q) = Some b.
Proof.
  unfold Model.findBlock.
  induction P as [|a P IH]; simpl; intros H.
  - rewrite Nat.eqb_refl. reflexivity.
  - inversion H as [|? ? Hn Hnd]; subst.
    destruct (Nat.eqb (Model.block_id a) (Model.block_id b)) eqn:E.
    + apply Nat.eqb_eq in E. exfalso. apply Hn. rewrite E.
      apply in_or_app. right. apply blockId_in_ids.
      apply in_or_app. right. left. reflexivity.
    + apply IH. exact (NoDup_app_remove_l _ _ Hnd).
Qed.

Lemma findLeafIn_some (x : ref) (ls : list Model.Leaf) :
  In x (map Model.leaf_id ls) ->
  exists l, Model.findLeafIn x ls = Some l /\ Model.leaf_id l = x.
Proof.
  unfold Model.findLeafIn.
  induction ls as [|l ls IH]; simpl; [intros []|].
  intros H. destruct (Nat.eqb (Model.leaf_id l) x) eqn:E.
  - exists l. split; [reflexivity|]. apply Nat.eqb_eq. exact E.
  - destruct H as [H|H]; [rewrite H, Nat.eqb_refl in E; discriminate|].
    apply IH. exact H.
Qed.

Lemma findLeafIn_none (x : ref) (ls : list Model.Leaf) :
  ~ In x (map Model.leaf_id ls) -> Model.findLeafIn x ls = None.
Proof.
  unfold Model.findLeafIn.
  induction ls as [|l ls IH]; simpl; [reflexivity|].
  intros H. destruct (Nat.eqb (Model.leaf_id l) x) eqn:E.
  - apply Nat.eqb_eq in E. exfalso. apply H. left. exact E.
  - apply IH. intros Hin. apply H. right. exact Hin.
Qed.

Lemma findLeaf_here (P Q : list Model.Block) (b : Model.Block) (x : ref) :
  NoDup (Model.idsOf (P ++ b :: Q)) ->
  In x (Model.leavesOf b) ->
  exists l, Model.findLeaf x (P ++ b :: Q) = Some (b, l) /\ Model.leaf_id l = x.
Proof.
  intros Hnd Hx.
  induction P as [|a P IH]; simpl.
  - destruct (findLeafIn_some x _ Hx) as (l & Hl & Hid).
    exists l. rewrite Hl. split; [reflexivity|exact Hid].
  - simpl in Hnd. inversion Hnd as [|? ? Hn Hnd']; subst.
    rewrite findLeafIn_none.
    + apply IH. exact (NoDup_app_remove_l _ _ Hnd').
    + intros Hin. apply (NoDup_app_disjoint _ _ x Hnd' Hin).
      apply leaves_in_ids. apply in_flat_map. exists b.
      split; [apply in_or_app; right; left; reflexivity|exact Hx].
Qed.

(** Where the container [b] and the nodes around it stand. *)
Lemma position_block (d : Model.Doc) (P Q : list Model.Block) (b : Model.Block) :
  Model.doc_blocks d = P ++ b :: Q ->
  NoDup (Model.ids d) ->
  Model.position d (Model.block_id b)
  = Z.of_nat (List.length (Model.idsOf P)).
Proof.
  intros Hd Hnd. unfold Model.position, Model.ids in *.
  change (flat_map Model.blockIds (Model.doc_blocks d))
    with (Model.idsOf (Model.doc_blocks d)) in *.
  rewrite Hd in *. rewrite idsOf_split in *.
  assert (Hn : ~ In (Model.block_id b) (Model.idsOf P)).
  { intros H. apply (NoDup_app_disjoint _ _ _ Hnd H). left. reflexivity. }
  rewrite indexOf_app_r by (first [exact Hn | left; reflexivity]).
  simpl. rewrite Nat.eqb_refl.
  replace (Z.of_nat (List.length (Model.idsOf P)) + 0)
    with (Z.of_nat (List.length (Model.idsOf P))) by lia.
  destruct (0 <=? _) eqn:E; [reflexivity|]. apply Z.leb_gt in E. lia.
Qed.

Lemma position_before (d : Model.Doc) (P Q : list Model.Block) (b : Model.Block)
      (e : ref) :
  Model.doc_blocks d = P ++ b :: Q ->
  NoDup (Model.ids d) ->
  In e (Model.idsOf P) ->
  0 <= Model.position d e < Z.of_nat (List.length (Model.idsOf P)).
Proof.
  intros Hd Hnd He. unfold Model.position, Model.ids in *.
  change (flat_map Model.blockIds (Model.doc_blocks d))
    with (Model.idsOf (Model.doc_blocks d)) in *.
  rewrite Hd in *. rewrite idsOf_app in *.
  rewrite indexOf_app_l by exact He.
  pose proof (indexOf_In e _ He). pose proof (indexOf_bounds e (Model.idsOf P)).
  destruct (0 <=? _) eqn:E; [lia|]. apply Z.leb_gt in E. lia.
Qed.

Lemma position_behind (d : Model.Doc) (P Q : list Model.Block) (b : Model.Block)
      (e : ref) :
  Model.doc_blocks d = P ++ b :: Q ->
  NoDup (Model.ids d) ->
  In e (Model.leavesOf b ++ Model.idsOf Q) ->
  Z.of_nat (List.length (Model.idsOf P)) < Model.position d e.
Proof.
  intros Hd Hnd He. unfold Model.position, Model.ids in *.
  change (flat_map Model.blockIds (Model.doc_blocks d))
    with (Model.idsOf (Model.doc_blocks d)) in *.
  rewrite Hd in *. rewrite idsOf_split in *.
  assert (Hin : In e ((Model.block_id b :: Model.leavesOf b) ++ Model.idsOf Q))
    by (right; exact He).
  assert (Hn : ~ In e (Model.idsOf P)).
  { intros H. exact (NoDup_app_disjoint _ _ _ Hnd H Hin). }
  rewrite indexOf_app_r by assumption.
  assert (Hb : Nat.eqb (Model.block_id b) e = false).
  { apply Nat.eqb_neq. intros Heq. subst e.
    apply NoDup_app_remove_l in Hnd. simpl in Hnd.
    inversion Hnd; subst. contradiction. }
  simpl. rewrite Hb.
  pose proof (indexOf_In e _ He).
  destruct (Model.indexOf e _ <? 0) eqn:F; [apply Z.ltb_lt in F; lia|].
  destruct (0 <=? _) eqn:E; [lia|]. apply Z.leb_gt in E. lia.
Qed.

(** *** Defragmenting a run of leaves *)

Lemma sameAttributes_eq (a b : Model.Leaf) :
  Model.sameAttributes a b = true ->
  Model.leaf_url a = Model.leaf_url b /\ Model.leaf_style a = Model.leaf_style b.
Proof.
  unfold Model.sameAttributes. intros H. apply andb_prop in H.
  destruct H as [H1 H2]. split.
  - destruct (Model.leaf_url a), (Model.leaf_url b); try discriminate;
      [|reflexivity].
    apply String.eqb_eq in H1. subst. reflexivity.
  - destruct (list_eq_dec string_dec _ _); [assumption|discriminate].
Qed.

Lemma sameAttributes_glue (a b c : Model.Leaf) :
  Model.sameAttributes a b = true ->
  Model.sameAttributes (Model.glue a b) c = Model.sameAttributes b c.
Proof.
  intros H. apply sameAttributes_eq in H. destruct H as [H1 H2].
  unfold Model.sameAttributes, Model.glue, Model.withValue. simpl.
  rewrite H1, H2. reflexivity.
Qed.

Lemma defragLeaves_stable (ls : list Model.Leaf) :
  Model.stable (Model.defragLeaves ls).
Proof.
  induction ls as [|l rest IH]; simpl; [exact I|].
  destruct (Model.defragLeaves rest) as [|l' rest'] eqn:E; [exact I|].
  destruct (Model.sameAttributes l l') eqn:S.
  - destruct rest' as [|l'' r]; [exact I|].
    simpl in IH. destruct IH as [H1 H2].
    split; [|exact H2]. rewrite sameAttributes_glue by exact S. exact H1.
  - split; [exact S|exact IH].
Qed.

Lemma stable_defragLeaves (ls : list Model.Leaf) :
  Model.stable ls -> Model.defragLeaves ls = ls.
Proof.
  induction ls as [|a rest IH]; [reflexivity|].
  intros H. simpl. destruct rest as [|b r]; [reflexivity|].
  destruct H as [H1 H2]. rewrite (IH H2). rewrite H1. reflexivity.
Qed.

Lemma defragLeaves_idempotent (ls : list Model.Leaf) :
  Model.defragLeaves (Model.defragLeaves ls) = Model.defragLeaves ls.
Proof.
  apply stable_defragLeaves. apply defragLeaves_stable.
Qed.

Lemma defragLeaves_incl (ls : list Model.Leaf) :
  incl (map Model.leaf_id (Model.defragLeaves ls)) (map Model.leaf_id ls).
Proof.
  induction ls as [|l rest IH]; simpl; [intros x H; exact H|].
  destruct (Model.defragLeaves rest) as [|l' rest'] eqn:E.
  - intros x [H|[]]. left. exact H.
  - destruct (Model.sameAttributes l l').
    + intros x [H|H]; [left; exact H|]. right. apply IH. right. exact H.
    + intros x [H|H]; [left; exact H|]. right. apply IH. exact H.
Qed.

Lemma defragLeaves_NoDup (ls : list Model.Leaf) :
  NoDup (map Model.leaf_id ls) ->
  NoDup (map Model.leaf_id (Model.defragLeaves ls)).
Proof.
  induction ls as [|l rest IH]; simpl; intros H; [constructor|].
  inversion H as [|? ? Hn Hnd]; subst. specialize (IH Hnd).
  pose proof (defragLeaves_incl rest) as Hincl.
  destruct (Model.defragLeaves rest) as [|l' rest'] eqn:E.
  - constructor; [intros []|constructor].
  - destruct (Model.sameAttributes l l').
    + simpl. inversion IH; subst. constructor; [|assumption].
      intros Hin. apply Hn. apply Hincl. right. exact Hin.
    + simpl. constructor; [|exact IH].
      intros Hin. apply Hn. apply Hincl. exact Hin.
Qed.

Lemma defragLeaves_nonempty (ls : list Model.Leaf) :
  ls <> [] -> Model.defragLeaves ls <> [].
Proof.
  destruct ls as [|l rest]; [congruence|]. intros _. simpl.
  destruct (Model.defragLeaves rest); [discriminate|].
  destruct (Model.sameAttributes l l0); discriminate.
Qed.

(** *** Defragmenting a container of the tree *)

Lemma blockIds_distinct (P Q : list Model.Block) (b a : Model.Block) :
  NoDup (Model.idsOf (P ++ b :: Q)) ->
  In a (P ++ Q) -> Nat.eqb (Model.block_id a) (Model.block_id b) = false.
Proof.
  intros Hnd Hin. apply Nat.eqb_neq. intros E.
  rewrite idsOf_split in Hnd.
  apply in_app_or in Hin. destruct Hin as [Hin|Hin].
  - apply blockId_in_ids in Hin. rewrite E in Hin.
    apply (NoDup_app_disjoint _ _ _ Hnd Hin). left. reflexivity.
  - apply blockId_in_ids in Hin. rewrite E in Hin.
    apply NoDup_app_remove_l in Hnd. simpl in Hnd.
    inversion Hnd as [|? ? Hn _]; subst. apply Hn.
    apply in_or_app. right. exact Hin.
Qed.

Lemma map_defragBlock (P Q : list Model.Block) (b : Model.Block) :
  NoDup (Model.idsOf (P ++ b :: Q)) ->
  map (Model.defragBlock (Model.block_id b)) (P ++ b :: Q)
  = P ++ Model.defragged b :: Q.
Proof.
  intros Hnd.
  assert (Hother : forall l, (forall a, In a l -> In a (P ++ Q)) ->
                             map (Model.defragBlock (Model.block_id b)) l = l).
  { induction l as [|a l IH]; intros Hl; [reflexivity|]. simpl.
    rewrite IH by (intros x Hx; apply Hl; right; exact Hx).
    unfold Model.defragBlock at 1.
    rewrite (blockIds_distinct P Q b a Hnd) by (apply Hl; left; reflexivity).
    reflexivity. }
  rewrite map_app. simpl.
  rewrite (Hother P) by (intros a Ha; apply in_or_app; left; exact Ha).
  rewrite (Hother Q) by (intros a Ha; apply in_or_app; right; exact Ha).
  unfold Model.defragBlock at 1. rewrite Nat.eqb_refl. reflexivity.
Qed.

Lemma defragged_NoDup (P Q : list Model.Block) (b : Model.Block) :
  NoDup (Model.idsOf (P ++ b :: Q)) ->
  NoDup (Model.idsOf (P ++ Model.defragged b :: Q)).
Proof.
  rewrite !idsOf_split. intros Hnd.
  apply (NoDup_app_middle _ _ _ _ Hnd).
  - intros x [H|H]; [left; exact H|right].
    apply (defragLeaves_incl (Model.block_content b)). exact H.
  - pose proof (NoDup_app_remove_r _ _ (NoDup_app_remove_l _ _ Hnd)) as Hb.
    inversion Hb as [|? ? Hn Hl]; subst.
    simpl. constructor.
    + intros Hin. apply Hn.
      apply (defragLeaves_incl (Model.block_content b)). exact Hin.
    + apply defragLeaves_NoDup. exact Hl.
Qed.

Lemma defragged_fixed (b : Model.Block) : Model.fixedBlock (Model.defragged b).
Proof.
  unfold Model.fixedBlock, Model.defragged. simpl.
  apply defragLeaves_idempotent.
Qed.

Lemma fixed_defragged (b : Model.Block) :
  Model.fixedBlock b -> Model.defragged b = b.
Proof.
  unfold Model.fixedBlock, Model.defragged, Model.withContent.
  intros H. rewrite H. destruct b; reflexivity.
Qed.

(** *** Walking from a container to the next *)

Lemma lastChild_here (d : Model.Doc) (P Q : list Model.Block) (b : Model.Block) :
  Model.doc_blocks d = P ++ b :: Q ->
  NoDup (Model.ids d) ->
  Model.block_content b <> [] ->
  exists L x,
    Model.leavesOf b = L ++ [x] /\
    Model.lastChild d (Model.block_id b) = Some x.
Proof.
  intros Hd Hnd Hne.
  destruct (exists_last Hne) as (L & l & Hl).
  exists (map Model.leaf_id L), (Model.leaf_id l). split.
  - unfold Model.leavesOf. rewrite Hl, map_app. reflexivity.
  - unfold Model.lastChild. rewrite Hd.
    rewrite findBlock_here by (rewrite <- Hd; exact Hnd).
    rewrite Hl, rev_app_distr. reflexivity.
Qed.

Lemma next_here (d : Model.Doc) (P Q : list Model.Block) (b : Model.Block)
      (L : list ref) (x : ref) :
  Model.doc_blocks d = P ++ b :: Q ->
  NoDup (Model.ids d) ->
  Model.leavesOf b = L ++ [x] ->
  Model.next d x = hd_error (flat_map Model.leavesOf Q).
Proof.
  intros Hd Hnd Hl. unfold Model.next, Model.leafIds.
  change (flat_map (fun b0 => map Model.leaf_id (Model.block_content b0))
                   (Model.doc_blocks d))
    with (flat_map Model.leavesOf (Model.doc_blocks d)).
  apply NoDup_leaves in Hnd. fold (Model.idsOf (Model.doc_blocks d)) in Hnd.
  rewrite Hd in *. rewrite leaves_split, Hl in *.
  replace (flat_map Model.leavesOf P ++ (L ++ [x]) ++ flat_map Model.leavesOf Q)
    with ((flat_map Model.leavesOf P ++ L) ++ x :: flat_map Model.leavesOf Q) in *
    by (rewrite <- !app_assoc; reflexivity).
  apply after_here. intros Hin.
  apply (NoDup_app_disjoint _ _ _ Hnd Hin). left. reflexivity.
Qed.

Lemma hd_leaves (Q : list Model.Block) :
  match hd_error (flat_map Model.leavesOf Q) with
  | None => Forall (fun u => Model.block_content u = []) Q
  | Some y =>
      exists E b' Q',
        Q = E ++ b' :: Q' /\
        Forall (fun u => Model.block_content u = []) E /\
        In y (Model.leavesOf b')
  end.
Proof.
  induction Q as [|a Q IH]; simpl; [constructor|].
  destruct (Model.block_content a) as [|l ls] eqn:Ha.
  - unfold Model.leavesOf at 1. rewrite Ha. simpl.
    destruct (hd_error (flat_map Model.leavesOf Q)) as [y|].
    + destruct IH as (E & b' & Q' & HQ & HE & Hy).
      exists (a :: E), b', Q'. subst Q. repeat split; try assumption.
      constructor; assumption.
    + constructor; assumption.
  - unfold Model.leavesOf at 1. rewrite Ha. simpl.
    exists [], a, Q. repeat split; [constructor|].
    unfold Model.leavesOf. rewrite Ha. left. reflexivity.
Qed.

Lemma container_here (d : Model.Doc) (P Q : list Model.Block) (b : Model.Block)
      (x : ref) :
  Model.doc_blocks d = P ++ b :: Q ->
  NoDup (Model.ids d) ->
  In x (Model.leavesOf b) ->
  Model.container d x = Some (Model.block_id b).
Proof.
  intros Hd Hnd Hx. unfold Model.container. rewrite Hd.
  destruct (findLeaf_here P Q b x) as (l & Hl & _);
    [rewrite <- Hd; exact Hnd|exact Hx|].
  rewrite Hl. reflexivity.
Qed.

(** From the last child of the container [b] to the container of the next
    leaf: the first container behind [b] that has a leaf. *)
Lemma next_container (d : Model.Doc) (P Q : list Model.Block) (b : Model.Block) :
  Model.doc_blocks d = P ++ b :: Q ->
  NoDup (Model.ids d) ->
  Model.block_content b <> [] ->
  exists lc,
    Model.lastChild d (Model.block_id b) = Some lc /\
    match match Model.next d lc with
          | Some nx => Model.container d nx
          | None => None
          end with
    | None => Forall (fun u => Model.block_content u = []) Q
    | Some c' =>
        exists E b' Q',
          Q = E ++ b' :: Q' /\
          Forall (fun u => Model.block_content u = []) E /\
          Model.block_content b' <> [] /\
          c' = Model.block_id b'
    end.
Proof.
  intros Hd Hnd Hne.
  destruct (lastChild_here d P Q b Hd Hnd Hne) as (L & x & Hl & Hlc).
  exists x. split; [exact Hlc|].
  rewrite (next_here d P Q b L x Hd Hnd Hl).
  pose proof (hd_leaves Q) as H.
  destruct (hd_error (flat_map Model.leavesOf Q)) as [y|]; [|exact H].
  destruct H as (E & b' & Q' & HQ & HE & Hy).
  assert (Hd' : Model.doc_blocks d = (P ++ b :: E) ++ b' :: Q').
  { rewrite Hd, HQ, <- app_assoc. reflexivity. }
  rewrite (container_here d _ _ b' y Hd' Hnd Hy).
  exists E, b', Q'. repeat split; try assumption.
  intros H0. unfold Model.leavesOf in Hy. rewrite H0 in Hy. destruct Hy.
Qed.

(** *** Nodes of the tree are not [removed] *)

Lemma dropUntil_nonempty (r : ref) (c : list (ref * wmNodeType)) :
  Model.inChain r c = true -> Model.dropUntil r c <> [].
Proof.
  unfold Model.inChain.
  induction c as [|[x ty] c IH]; simpl; [discriminate|].
  destruct (Nat.eqb x r); [intros _; discriminate|]. exact IH.
Qed.

Lemma chainFrom_block (d : Model.Doc) (b : Model.Block) :
  In b (Model.doc_blocks d) -> Model.chainFrom d (Model.block_id b) <> [].
Proof.
  intros Hin. unfold Model.chainFrom.
  destruct (Model.findLeaf (Model.block_id b) (Model.doc_blocks d))
    as [[b0 l0]|]; [discriminate|].
  destruct (find (fun b0 => Model.inChain (Model.block_id b) (Model.chain d b0))
                 (Model.doc_blocks d)) as [b1|] eqn:F.
  - apply find_some in F. destruct F as [_ F].
    exact (dropUntil_nonempty _ _ F).
  - exfalso. apply (find_none _ _ F) in Hin.
    unfold Model.inChain, Model.chain in Hin.
    cbn [existsb fst] in Hin. rewrite Nat.eqb_refl in Hin. discriminate.
Qed.

Lemma block_attached (d : Model.Doc) (b : Model.Block) :
  In b (Model.doc_blocks d) -> Model.removed d (Model.block_id b) = false.
Proof.
  intros Hin. unfold Model.removed, Model.attached.
  pose proof (chainFrom_block d b Hin) as Hne.
  destruct (Model.chainFrom d (Model.block_id b)); [congruence|].
  destruct (Model.isLeaf d (Model.block_id b)); reflexivity.
Qed.

Lemma leaf_attachedTo (d : Model.Doc) (P Q : list Model.Block) (b : Model.Block)
      (x : ref) :
  Model.doc_blocks d = P ++ b :: Q ->
  NoDup (Model.ids d) ->
  In x (Model.leavesOf b) ->
  attachedTo d x (Model.block_id b).
Proof.
  intros Hd Hnd Hx. unfold attachedTo. simpl.
  destruct (findLeaf_here P Q b x) as (l & Hl & _);
    [rewrite <- Hd; exact Hnd|exact Hx|].
  repeat split.
  - unfold Model.removed, Model.attached, Model.isLeaf. rewrite Hd, Hl.
    reflexivity.
  - exact (container_here d P Q b x Hd Hnd Hx).
  - unfold Model.content. rewrite Hd.
    rewrite findBlock_here by (rewrite <- Hd; exact Hnd). exact Hx.
Qed.

End ModelFacts.



Section DefragLoops.

Implicit Types (P Q U E : list Model.Block) (b : Model.Block) (d : Model.Doc).

Lemma inBlock_behind P Q b (j : nat) (e : ref) :
  Model.inBlock (P ++ b :: Q) j e -> (List.length P <= j)%nat ->
  In e (Model.leavesOf b ++ Model.idsOf Q).
Proof.
  intros (u & Hu & He) Hj.
  rewrite nth_error_app2 in Hu by exact Hj.
  destruct (j - List.length P)%nat as [|m] eqn:E; simpl in Hu.
  - inversion Hu; subst. apply in_or_app. left. exact He.
  - apply in_or_app. right. apply leaves_in_ids. apply in_flat_map.
    exists u. split; [exact (nth_error_In _ _ Hu)|exact He].
Qed.

Lemma inBlock_before P Q b (j : nat) (e : ref) :
  Model.inBlock (P ++ b :: Q) j e -> (j < List.length P)%nat ->
  In e (Model.idsOf P).
Proof.
  intros (u & Hu & He) Hj.
  rewrite nth_error_app1 in Hu by exact Hj.
  apply leaves_in_ids. apply in_flat_map.
  exists u. split; [exact (nth_error_In _ _ Hu)|exact He].
Qed.

(** The container [b] comes before the leaf [e] exactly when [e] is in [b]
    or in a later container. *)
Lemma compare_block_leaf d P Q b (j : nat) (e : ref) :
  Model.doc_blocks d = P ++ b :: Q ->
  NoDup (Model.ids d) ->
  Model.inBlock (P ++ b :: Q) j e ->
  (Model.compare d (Model.block_id b) e <? 0) = (List.length P <=? j)%nat.
Proof.
  intros Hd Hnd He. unfold Model.compare.
  rewrite (position_block d P Q b Hd Hnd).
  destruct (Nat.leb_spec (List.length P) j) as [Hj|Hj].
  - pose proof (position_behind d P Q b e Hd Hnd (inBlock_behind _ _ _ _ _ He Hj)).
    apply Z.ltb_lt. lia.
  - pose proof (position_before d P Q b e Hd Hnd (inBlock_before _ _ _ _ _ He Hj)).
    apply Z.ltb_ge. lia.
Qed.

Lemma empty_fixed (u : Model.Block) :
  Model.block_content u = [] -> Model.fixedBlock u.
Proof. unfold Model.fixedBlock. intros ->. reflexivity. Qed.

(** The loop of [containers] that defragments, started on the container
    [b]: it returns, the containers keep their places, and when the end
    leaf [e] is in the [j]-th container, every container from [b] to the
    [j]-th is left with nothing to defragment. *)
Lemma containers_defrag_covers (d0 : Model.Doc) (e : ref) (j : nat) :
  forall (n : nat) P b Q (s : Selection),
    (List.length Q < n)%nat ->
    NoDup (Model.idsOf (P ++ b :: Q)) ->
    Model.block_content b <> [] ->
    end_ s = Some e ->
    ((List.length P <= j)%nat -> Model.inBlock (P ++ b :: Q) j e) ->
    exists U,
      containers_loop n (fun c => mutate (fun t => Tree.defrag t c))
                      (Some (Model.block_id b))
                      (Model.withBlocks d0 (P ++ b :: Q), s)
      = Return tt (Model.withBlocks d0 (P ++ U), s) /\
      NoDup (Model.idsOf (P ++ U)) /\
      map Model.block_id U = map Model.block_id (b :: Q) /\
      (forall m u, (List.length P <= m <= j)%nat ->
                   nth_error (P ++ U) m = Some u -> Model.fixedBlock u).
Proof.
  induction n as [|n IH]; intros P b Q s Hn Hnd Hne He Hin; [lia|].
  rewrite (containers_loop_defrag_step _ _ e _ _ He).
  change (Tree.compare (Model.withBlocks d0 (P ++ b :: Q)) (Model.block_id b) e)
    with (Model.compare (Model.withBlocks d0 (P ++ b :: Q)) (Model.block_id b) e).
  destruct (Model.compare (Model.withBlocks d0 (P ++ b :: Q)) (Model.block_id b) e
            <? 0) eqn:Hc.
  - (* the container is defragmented *)
    change (Tree.defrag (Model.withBlocks d0 (P ++ b :: Q)) (Model.block_id b))
      with (Model.withBlocks d0
              (map (Model.defragBlock (Model.block_id b)) (P ++ b :: Q))).
    rewrite (map_defragBlock P Q b Hnd).
    pose proof (defragged_NoDup P Q b Hnd) as Hnd1.
    assert (Hne1 : Model.block_content (Model.defragged b) <> [])
      by (apply defragLeaves_nonempty; exact Hne).
    destruct (next_container (Model.withBlocks d0 (P ++ Model.defragged b :: Q))
                P Q (Model.defragged b) eq_refl Hnd1 Hne1)
      as (lc & Hlc & Hnext).
    change (Model.block_id (Model.defragged b)) with (Model.block_id b) in Hlc.
    change (Tree.lastChild (Model.withBlocks d0 (P ++ Model.defragged b :: Q))
                           (Model.block_id b))
      with (Model.lastChild (Model.withBlocks d0 (P ++ Model.defragged b :: Q))
                            (Model.block_id b)).
    rewrite Hlc.
    change (match Tree.next (Model.withBlocks d0 (P ++ Model.defragged b :: Q)) lc with
            | Some nx => Tree.container
                           (Model.withBlocks d0 (P ++ Model.defragged b :: Q)) nx
            | None => None
            end)
      with (match Model.next (Model.withBlocks d0 (P ++ Model.defragged b :: Q)) lc with
            | Some nx => Model.container
                           (Model.withBlocks d0 (P ++ Model.defragged b :: Q)) nx
            | None => None
            end).
    destruct (match Model.next _ lc with Some nx => _ | None => None end)
      as [c'|].
    + destruct Hnext as (E & b' & Q' & HQ & HE & Hne' & Hc').
      subst Q c'.
      assert (Hassoc : forall X x, P ++ x :: E ++ X = (P ++ x :: E) ++ X)
        by (intros; rewrite <- app_assoc; reflexivity).
      rewrite (Hassoc (b' :: Q')) in Hnd1 |- *.
      destruct (IH (P ++ Model.defragged b :: E) b' Q' s) as (U & HU & HndU & HidU & HfixU);
        try assumption.
      * rewrite length_app in Hn. simpl in Hn. lia.
      * intros Hj. rewrite length_app in Hj. simpl in Hj.
        destruct Hin as (u & Hu & Hue); [lia|].
        exists u. split; [|exact Hue].
        rewrite <- Hassoc.
        rewrite nth_error_app2 in Hu |- * by lia.
        destruct (j - List.length P)%nat as [|k] eqn:Ek; [lia|]. exact Hu.
      * exists (Model.defragged b :: E ++ U).
        rewrite HU. rewrite <- Hassoc in *.
        repeat split; try assumption.
        -- simpl. rewrite !map_app, HidU. reflexivity.
        -- intros m u Hm Hu.
           destruct (Nat.eq_dec m (List.length P)) as [->|Hm1].
           ++ rewrite nth_error_app2, Nat.sub_diag in Hu by lia.
              inversion Hu; subst. apply defragged_fixed.
           ++ destruct (Nat.lt_ge_cases m (List.length (P ++ Model.defragged b :: E)))
                as [Hlt|Hge].
              ** rewrite Hassoc in Hu. rewrite nth_error_app1 in Hu by exact Hlt.
                 rewrite nth_error_app2 in Hu by lia.
                 destruct (m - List.length P)%nat as [|k] eqn:Ek; [lia|].
                 simpl in Hu. apply nth_error_In in Hu.
                 apply empty_fixed. rewrite Forall_forall in HE. apply HE.
                 exact Hu.
              ** apply (HfixU m u); [|exact Hu].
                 rewrite length_app in Hge. simpl in Hge.
                 rewrite length_app. simpl. lia.
    + rewrite containers_loop_none.
      exists (Model.defragged b :: Q). repeat split; try assumption.
      intros m u Hm Hu.
      destruct (Nat.eq_dec m (List.length P)) as [->|Hm1].
      * rewrite nth_error_app2, Nat.sub_diag in Hu by lia.
        inversion Hu; subst. apply defragged_fixed.
      * rewrite nth_error_app2 in Hu by lia.
        destruct (m - List.length P)%nat as [|k] eqn:Ek; [lia|].
        simpl in Hu. apply nth_error_In in Hu.
        apply empty_fixed. rewrite Forall_forall in Hnext. apply Hnext. exact Hu.
  - (* the loop stops: the end leaf is not behind the container *)
    exists (b :: Q). repeat split; try assumption.
    intros m u Hm Hu. exfalso.
    assert (Hj : (List.length P <= j)%nat) by lia.
    rewrite (compare_block_leaf (Model.withBlocks d0 (P ++ b :: Q)) P Q b j e
               eq_refl Hnd (Hin Hj)) in Hc.
    apply Nat.leb_gt in Hc. lia.
Qed.

(** The same loop on a tree whose containers from [b] to the one of the end
    leaf have nothing to defragment: the tree stays as it is. *)
Lemma containers_defrag_fixed (d0 : Model.Doc) (e : ref) (j : nat) :
  forall (n : nat) P b Q (s : Selection),
    (List.length Q < n)%nat ->
    NoDup (Model.idsOf (P ++ b :: Q)) ->
    Model.block_content b <> [] ->
    end_ s = Some e ->
    Model.inBlock (P ++ b :: Q) j e ->
    (forall m u, (List.length P <= m <= j)%nat ->
                 nth_error (P ++ b :: Q) m = Some u -> Model.fixedBlock u) ->
    containers_loop n (fun c => mutate (fun t => Tree.defrag t c))
                    (Some (Model.block_id b))
                    (Model.withBlocks d0 (P ++ b :: Q), s)
    = Return tt (Model.withBlocks d0 (P ++ b :: Q), s).
Proof.
  induction n as [|n IH]; intros P b Q s Hn Hnd Hne He Hin Hfix; [lia|].
  rewrite (containers_loop_defrag_step _ _ e _ _ He).
  change (Tree.compare (Model.withBlocks d0 (P ++ b :: Q)) (Model.block_id b) e)
    with (Model.compare (Model.withBlocks d0 (P ++ b :: Q)) (Model.block_id b) e).
  rewrite (compare_block_leaf (Model.withBlocks d0 (P ++ b :: Q)) P Q b j e
             eq_refl Hnd Hin).
  destruct (Nat.leb_spec (List.length P) j) as [Hj|Hj]; [|reflexivity].
  assert (Hb : Model.defragged b = b).
  { apply fixed_defragged. apply (Hfix (List.length P)); [lia|].
    rewrite nth_error_app2, Nat.sub_diag by lia. reflexivity. }
  change (Tree.defrag (Model.withBlocks d0 (P ++ b :: Q)) (Model.block_id b))
    with (Model.withBlocks d0
            (map (Model.defragBlock (Model.block_id b)) (P ++ b :: Q))).
  rewrite (map_defragBlock P Q b Hnd), Hb.
  destruct (next_container (Model.withBlocks d0 (P ++ b :: Q))
              P Q b eq_refl Hnd Hne)
    as (lc & Hlc & Hnext).
  change (Tree.lastChild (Model.withBlocks d0 (P ++ b :: Q)) (Model.block_id b))
    with (Model.lastChild (Model.withBlocks d0 (P ++ b :: Q)) (Model.block_id b)).
  rewrite Hlc.
  change (match Tree.next (Model.withBlocks d0 (P ++ b :: Q)) lc with
          | Some nx => Tree.container (Model.withBlocks d0 (P ++ b :: Q)) nx
          | None => None
          end)
    with (match Model.next (Model.withBlocks d0 (P ++ b :: Q)) lc with
          | Some nx => Model.container (Model.withBlocks d0 (P ++ b :: Q)) nx
          | None => None
          end).
  destruct (match Model.next _ lc with Some nx => _ | None => None end)
    as [c'|]; [|apply containers_loop_none].
  destruct Hnext as (E & b' & Q' & HQ & HE & Hne' & Hc').
  subst Q c'.
  assert (Hassoc : forall X x, P ++ x :: E ++ X = (P ++ x :: E) ++ X)
    by (intros; rewrite <- app_assoc; reflexivity).
  rewrite (Hassoc (b' :: Q')) in *.
  apply IH; try assumption.
  - rewrite length_app in Hn. simpl in Hn. lia.
  - intros m u Hm Hu. apply (Hfix m u); [|exact Hu].
    rewrite length_app in Hm. simpl in Hm. lia.
Qed.

(** *** Neighbouring leaves across containers *)

Lemma previous_block (bs : list Model.Block) (j : nat) (e p : ref) :
  NoDup (Model.idsOf bs) ->
  Model.inBlock bs j e ->
  Model.before e (flat_map Model.leavesOf bs) = Some p ->
  exists j', (j' <= j)%nat /\ Model.inBlock bs j' p.
Proof.
  intros Hnd (u & Hu & He) Hp.
  destruct (nth_error_split _ _ Hu) as (P & Q & Hbs & Hlen).
  assert (Hbs' : bs = (P ++ [u]) ++ Q)
    by (rewrite <- app_assoc; exact Hbs).
  apply NoDup_leaves in Hnd. rewrite Hbs' in Hnd, Hp.
  rewrite flat_map_app in Hnd, Hp.
  assert (Hin : In e (flat_map Model.leavesOf (P ++ [u]))).
  { apply in_flat_map. exists u. split; [|exact He].
    apply in_or_app. right. left. reflexivity. }
  pose proof (before_In e p _ _ Hnd Hin Hp) as Hpin.
  apply in_flat_map in Hpin. destruct Hpin as (v & Hv & Hpv).
  apply In_nth_error in Hv. destruct Hv as (m & Hm).
  assert (Hlt : (m < List.length (P ++ [u]))%nat)
    by (apply nth_error_Some; congruence).
  exists m. split.
  - rewrite length_app in Hlt. simpl in Hlt. lia.
  - exists v. split; [|exact Hpv]. rewrite Hbs'.
    rewrite nth_error_app1 by exact Hlt. exact Hm.
Qed.

Lemma next_block (bs : list Model.Block) (i : nat) (a n : ref) :
  NoDup (Model.idsOf bs) ->
  Model.inBlock bs i a ->
  Model.after a (flat_map Model.leavesOf bs) = Some n ->
  exists i', (i <= i')%nat /\ Model.inBlock bs i' n.
Proof.
  intros Hnd (u & Hu & Ha) Hn.
  destruct (nth_error_split _ _ Hu) as (P & Q & Hbs & Hlen).
  apply NoDup_leaves in Hnd. rewrite Hbs in Hnd, Hn.
  rewrite flat_map_app in Hnd, Hn.
  assert (Hin : In a (flat_map Model.leavesOf (u :: Q))).
  { apply in_flat_map. exists u. split; [left; reflexivity|exact Ha]. }
  rewrite after_skip in Hn.
  - apply after_In in Hn. apply in_flat_map in Hn.
    destruct Hn as (v & Hv & Hnv).
    apply In_nth_error in Hv. destruct Hv as (m & Hm).
    exists (List.length P + m)%nat. split; [lia|].
    exists v. split; [|exact Hnv]. rewrite Hbs.
    rewrite nth_error_app2 by lia.
    replace (List.length P + m - List.length P)%nat with m by lia. exact Hm.
  - intros H. exact (NoDup_app_disjoint _ _ _ Hnd H Hin).
Qed.

End DefragLoops.

Section DefragRuns.

#[local] Arguments resolveOfs : simpl never.
#[local] Arguments relPoint : simpl never.
#[local] Arguments Tree.previousText : simpl never.
#[local] Arguments Tree.nextText : simpl never.
#[local] Arguments Tree.length : simpl never.

Lemma withBlocks_self (d : Model.Doc) (bs : list Model.Block) :
  Model.doc_blocks d = bs -> Model.withBlocks d bs = d.
Proof. intros <-. destruct d; reflexivity. Qed.

Lemma nth_same_id (l1 l2 : list Model.Block) (j : nat) (y : Model.Block) :
  map Model.block_id l1 = map Model.block_id l2 ->
  nth_error l2 j = Some y ->
  exists x, nth_error l1 j = Some x /\ Model.block_id x = Model.block_id y.
Proof.
  intros Hmap Hy.
  pose proof (map_nth_error Model.block_id _ _ Hy) as H2.
  rewrite <- Hmap in H2. rewrite nth_error_map in H2.
  destruct (nth_error l1 j) as [x|]; [|discriminate].
  exists x. split; [reflexivity|]. simpl in H2. congruence.
Qed.

Lemma relPoint_inBlock (d : Model.Doc) (m : nat) (u : Model.Block) (o : Z)
      (x : ref) :
  NoDup (Model.ids d) ->
  nth_error (Model.doc_blocks d) m = Some u ->
  fst (relPoint d (Some (Model.block_id u)) o) = Some x ->
  Model.inBlock (Model.doc_blocks d) m x.
Proof.
  intros Hnd Hu Hx. unfold relPoint in Hx.
  apply relPoint_loop_In in Hx.
  change (Tree.content d (Model.block_id u))
    with (Model.content d (Model.block_id u)) in Hx.
  unfold Model.content in Hx.
  destruct (nth_error_split _ _ Hu) as (P & Q & Hbs & _).
  rewrite Hbs in Hx.
  rewrite findBlock_here in Hx by (rewrite <- Hbs; exact Hnd).
  exists u. split; assumption.
Qed.

(** [trim()] moves the start point forwards and the end point backwards
    only. *)
Lemma trim_spans (d : Model.Doc) (s : Selection) (lo hi : nat) :
  NoDup (Model.ids d) ->
  Model.spans (Model.doc_blocks d) lo hi s ->
  exists s',
    trim (d, s) = Return RThis (d, s') /\
    Model.spans (Model.doc_blocks d) lo hi s'.
Proof.
  intros Hnd Hsp. unfold trim. run.
  destruct (valid s) eqn:V; run; [|exists s; split; [reflexivity|exact Hsp]].
  destruct (Hsp V) as (a & e & i & j & Hs & He & Hi & Hj & Hlo & Hhi).
  assert (Hprev : forall p, Tree.previousText d e true = Some p ->
                            exists j', (j' <= j)%nat /\
                                       Model.inBlock (Model.doc_blocks d) j' p)
    by (intros p Hp; exact (previous_block _ j e p Hnd Hj Hp)).
  assert (Hnext : forall n, Tree.nextText d a true = Some n ->
                            exists i', (i <= i')%nat /\
                                       Model.inBlock (Model.doc_blocks d) i' n)
    by (intros n Hn; exact (next_block _ i a n Hnd Hi Hn)).
  assert (Hfin : forall (s' : Selection) a' e' i' j',
             start s' = Some a' -> end_ s' = Some e' ->
             Model.inBlock (Model.doc_blocks d) i' a' ->
             Model.inBlock (Model.doc_blocks d) j' e' ->
             (i <= i')%nat -> (j' <= j)%nat ->
             Model.spans (Model.doc_blocks d) lo hi s').
  { intros s' a' e' i' j' H1 H2 H3 H4 H5 H6 _.
    exists a', e', i', j'. repeat split; try assumption; lia. }
  rewrite He.
  destruct (endOfs s =? 0); run.
  - destruct (Tree.previousText d e true) as [p|] eqn:Hp; run.
    + destruct (Hprev p eq_refl) as (j' & Hj' & Hpj).
      unfold setEnd. run.
      destruct (collapsed _); run;
        [eexists; split; [reflexivity|];
         apply (Hfin _ a p i j'); simpl; auto|].
      rewrite Hs. run.
      destruct (startOfs s =? Z.of_nat (Tree.length d a)); run;
        [|eexists; split; [reflexivity|];
          apply (Hfin _ a p i j'); simpl; auto].
      destruct (Tree.nextText d a true) as [n|] eqn:Hn; run;
        [|eexists; split; [reflexivity|];
          apply (Hfin _ a p i j'); simpl; auto].
      destruct (Hnext n eq_refl) as (i' & Hi' & Hni).
      unfold setStart. run. eexists. split; [reflexivity|].
      apply (Hfin _ n p i' j'); simpl; auto.
    + destruct (collapsed s); run;
        [eexists; split; [reflexivity|];
         apply (Hfin _ a e i j); simpl; auto|].
      rewrite Hs. run.
      destruct (startOfs s =? Z.of_nat (Tree.length d a)); run;
        [|eexists; split; [reflexivity|];
          apply (Hfin _ a e i j); simpl; auto].
      destruct (Tree.nextText d a true) as [n|] eqn:Hn; run;
        [|eexists; split; [reflexivity|];
          apply (Hfin _ a e i j); simpl; auto].
      destruct (Hnext n eq_refl) as (i' & Hi' & Hni).
      unfold setStart. run. eexists. split; [reflexivity|].
      apply (Hfin _ n e i' j); simpl; auto.
  - destruct (collapsed s); run;
      [eexists; split; [reflexivity|];
       apply (Hfin _ a e i j); simpl; auto|].
    rewrite Hs. run.
    destruct (startOfs s =? Z.of_nat (Tree.length d a)); run;
      [|eexists; split; [reflexivity|];
        apply (Hfin _ a e i j); simpl; auto].
    destruct (Tree.nextText d a true) as [n|] eqn:Hn; run;
      [|eexists; split; [reflexivity|];
        apply (Hfin _ a e i j); simpl; auto].
    destruct (Hnext n eq_refl) as (i' & Hi' & Hni).
    unfold setStart. run. eexists. split; [reflexivity|].
    apply (Hfin _ n e i' j); simpl; auto.
Qed.

(** One run of [defrag()] on a well-formed tree, the start leaf in the
    [i]-th container and the end leaf in the [j]-th: it returns, every
    container from the [i]-th to the [j]-th is left with nothing to
    defragment, and the selection it leaves lies within these containers. *)
Lemma defrag_run (fuel : nat) (d : Model.Doc) (s : Selection) (i j : nat)
      (a e : ref) :
  NoDup (Model.ids d) ->
  start s = Some a -> end_ s = Some e ->
  Model.inBlock (Model.doc_blocks d) i a ->
  Model.inBlock (Model.doc_blocks d) j e ->
  (List.length (Model.doc_blocks d) <= fuel)%nat ->
  exists d1 s1,
    defrag fuel (d, s) = Return RThis (d1, s1) /\
    NoDup (Model.ids d1) /\
    List.length (Model.doc_blocks d1) = List.length (Model.doc_blocks d) /\
    (forall m u, (i <= m <= j)%nat ->
                 nth_error (Model.doc_blocks d1) m = Some u ->
                 Model.fixedBlock u) /\
    Model.spans (Model.doc_blocks d1) i j s1.
Proof.
  intros Hnd Hs He Hi Hj Hfuel.
  assert (Hv : valid s = true) by (unfold valid; rewrite Hs, He; reflexivity).
  destruct Hi as (ui & Hui & Hai). destruct Hj as (uj & Huj & Hej).
  destruct (nth_error_split _ _ Hui) as (P & Q & Hbs & HlenP).
  destruct (nth_error_split _ _ Huj) as (Pj & Qj & Hbsj & HlenPj).
  pose proof (leaf_attachedTo d P Q ui a Hbs Hnd Hai) as Hatt_a.
  pose proof (leaf_attachedTo d Pj Qj uj e Hbsj Hnd Hej) as Hatt_e.
  destruct (save_attached d s a e _ _ Hs He Hatt_a Hatt_e)
    as (ps & pe & al & Hsave & Hps & Hpe & Hid).
  rewrite (defrag_valid fuel d s Hv).
  rewrite (bind_return _ _ _ _ _ Hsave).
  (* the loop over the containers *)
  set (s0 := mkSelection (root s) (Some a) (startOfs s) (Some e) (endOfs s)
                         (modified s) (pe :: ps :: stack s) al).
  destruct Hatt_a as (_ & Hca & _).
  assert (Hne : Model.block_content ui <> []).
  { intros H0. unfold Model.leavesOf in Hai. rewrite H0 in Hai. destruct Hai. }
  assert (HndP : NoDup (Model.idsOf (P ++ ui :: Q)))
    by (rewrite <- Hbs; exact Hnd).
  destruct (containers_defrag_covers d e j fuel P ui Q s0) as (U & HU & HndU & HidU & HfixU);
    try assumption; try reflexivity.
  - rewrite Hbs, length_app in Hfuel. simpl in Hfuel. lia.
  - intros _. rewrite <- Hbs. exists uj. split; assumption.
  - rewrite (withBlocks_self d (P ++ ui :: Q) Hbs) in HU.
    set (d1 := Model.withBlocks d (P ++ U)) in *.
    assert (Hcont : containers fuel (fun c => mutate (fun t => Tree.defrag t c))
                               (d, s0) = Return RThis (d1, s0)).
    { rewrite (containers_valid fuel _ d s0 a e eq_refl eq_refl).
      rewrite Hca. unfold bind. rewrite HU. reflexivity. }
    rewrite (bind_return _ _ _ _ _ Hcont).
    assert (Hmap : map Model.block_id (Model.doc_blocks d1)
                   = map Model.block_id (Model.doc_blocks d)).
    { unfold d1. simpl. rewrite Hbs, !map_app, HidU. reflexivity. }
    destruct (nth_same_id _ _ i ui Hmap Hui) as (ui' & Hui' & Hidi).
    destruct (nth_same_id _ _ j uj Hmap Huj) as (uj' & Huj' & Hidj).
    destruct (restore_saved d1 s0 ps pe (stack s) (Model.block_id ui')
                            (Model.block_id uj'))
      as (so & eo & Hrestore); try reflexivity; try congruence.
    + apply block_attached. exact (nth_error_In _ _ Hui').
    + apply block_attached. exact (nth_error_In _ _ Huj').
    + rewrite (bind_return _ _ _ _ _ Hrestore).
      match goal with
      | |- context [bind trim _ (d1, ?sr)] =>
          destruct (trim_spans d1 sr i j HndU) as (s1 & Htrim & Hsp)
      end.
      * intros Hvr. unfold valid in Hvr. simpl in Hvr.
        destruct (fst (relPoint d1 (Some (Model.block_id ui')) (ap_ofs ps)))
          as [x|] eqn:Hx; [|discriminate].
        destruct (fst (relPoint d1 (Some (Model.block_id uj')) (ap_ofs pe)))
          as [y|] eqn:Hy; [|discriminate].
        exists x, y, i, j. repeat split; try reflexivity; try lia.
        -- exact (relPoint_inBlock d1 i ui' _ x HndU Hui' Hx).
        -- exact (relPoint_inBlock d1 j uj' _ y HndU Huj' Hy).
      * rewrite (bind_return _ _ _ _ _ Htrim).
        exists d1, s1. repeat split; try assumption.
        -- apply (f_equal (@List.length _)) in Hmap.
           rewrite !length_map in Hmap. exact Hmap.
        -- intros m u Hm Hu. apply (HfixU m u); [lia|exact Hu].
Qed.

(** A run of [defrag()] on a tree whose containers from the one of the
    start leaf to the one of the end leaf have nothing to defragment: it
    returns and the tree is as before. *)
Lemma defrag_run_fixed (fuel : nat) (d : Model.Doc) (s : Selection) (i j : nat)
      (a e : ref) :
  NoDup (Model.ids d) ->
  start s = Some a -> end_ s = Some e ->
  Model.inBlock (Model.doc_blocks d) i a ->
  Model.inBlock (Model.doc_blocks d) j e ->
  (forall m u, (i <= m <= j)%nat ->
               nth_error (Model.doc_blocks d) m = Some u ->
               Model.fixedBlock u) ->
  (List.length (Model.doc_blocks d) <= fuel)%nat ->
  exists s1, defrag fuel (d, s) = Return RThis (d, s1).
Proof.
  intros Hnd Hs He Hi Hj Hfix Hfuel.
  assert (Hv : valid s = true) by (unfold valid; rewrite Hs, He; reflexivity).
  pose proof Hj as Hj0.
  destruct Hi as (ui & Hui & Hai). destruct Hj as (uj & Huj & Hej).
  destruct (nth_error_split _ _ Hui) as (P & Q & Hbs & HlenP).
  destruct (nth_error_split _ _ Huj) as (Pj & Qj & Hbsj & HlenPj).
  pose proof (leaf_attachedTo d P Q ui a Hbs Hnd Hai) as Hatt_a.
  pose proof (leaf_attachedTo d Pj Qj uj e Hbsj Hnd Hej) as Hatt_e.
  destruct (save_attached d s a e _ _ Hs He Hatt_a Hatt_e)
    as (ps & pe & al & Hsave & Hps & Hpe & Hid).
  rewrite (defrag_valid fuel d s Hv).
  rewrite (bind_return _ _ _ _ _ Hsave).
  set (s0 := mkSelection (root s) (Some a) (startOfs s) (Some e) (endOfs s)
                         (modified s) (pe :: ps :: stack s) al).
  destruct Hatt_a as (_ & Hca & _).
  assert (Hne : Model.block_content ui <> []).
  { intros H0. unfold Model.leavesOf in Hai. rewrite H0 in Hai. destruct Hai. }
  assert (HndP : NoDup (Model.idsOf (P ++ ui :: Q)))
    by (rewrite <- Hbs; exact Hnd).
  assert (Hloop :
    containers_loop fuel (fun c => mutate (fun t => Tree.defrag t c))
                    (Some (Model.block_id ui))
                    (Model.withBlocks d (P ++ ui :: Q), s0)
    = Return tt (Model.withBlocks d (P ++ ui :: Q), s0)).
  { apply (containers_defrag_fixed d e j); try assumption; try reflexivity.
    - rewrite Hbs, length_app in Hfuel. simpl in Hfuel. lia.
    - rewrite <- Hbs. exact Hj0.
    - intros m u Hm Hu. apply (Hfix m u); [lia|]. rewrite Hbs. exact Hu. }
  rewrite (withBlocks_self d (P ++ ui :: Q) Hbs) in Hloop.
  assert (Hcont : containers fuel (fun c => mutate (fun t => Tree.defrag t c))
                             (d, s0) = Return RThis (d, s0)).
  { rewrite (containers_valid fuel _ d s0 a e eq_refl eq_refl).
    rewrite Hca. unfold bind. rewrite Hloop. reflexivity. }
  rewrite (bind_return _ _ _ _ _ Hcont).
  destruct (restore_saved d s0 ps pe (stack s) (Model.block_id ui)
                          (Model.block_id uj))
    as (so & eo & Hrestore); try reflexivity; try congruence.
  - apply block_attached. exact (nth_error_In _ _ Hui).
  - apply block_attached. exact (nth_error_In _ _ Huj).
  - rewrite (bind_return _ _ _ _ _ Hrestore).
    match goal with
    | |- context [bind trim _ (d, ?sr)] =>
        destruct (trim_spans d sr i j Hnd) as (s1 & Htrim & _)
    end.
    + intros Hvr. unfold valid in Hvr. simpl in Hvr.
      destruct (fst (relPoint d (Some (Model.block_id ui)) (ap_ofs ps)))
        as [x|] eqn:Hx; [|discriminate].
      destruct (fst (relPoint d (Some (Model.block_id uj)) (ap_ofs pe)))
        as [y|] eqn:Hy; [|discriminate].
      exists x, y, i, j. repeat split; try reflexivity; try lia.
      * exact (relPoint_inBlock d i ui _ x Hnd Hui Hx).
      * exact (relPoint_inBlock d j uj _ y Hnd Huj Hy).
    + rewrite (bind_return _ _ _ _ _ Htrim). exists s1. reflexivity.
Qed.

Lemma isLeaf_inBlock (d : Model.Doc) (x : ref) :
  Model.isLeaf d x = true -> exists i, Model.inBlock (Model.doc_blocks d) i x.
Proof.
  unfold Model.isLeaf.
  induction (Model.doc_blocks d) as [|b bs IH]; simpl; [discriminate|].
  destruct (Model.findLeafIn x (Model.block_content b)) as [l|] eqn:F.
  - intros _. exists 0%nat, b. split; [reflexivity|].
    unfold Model.findLeafIn in F. apply find_some in F.
    destruct F as [Hin Hid]. apply Nat.eqb_eq in Hid. subst x.
    unfold Model.leavesOf. apply in_map. exact Hin.
  - intros H. destruct (IH H) as (i & u & Hu & Hx).
    exists (S i), u. split; assumption.
Qed.

(** C8: on a well-formed tree, with a fuel that covers its containers,
    [defrag()] on a valid selection whose endpoints are leaves of the tree
    returns, and a second [defrag()] right after it returns with the very
    same tree: the same leaves, with the same text. *)
Theorem defrag_twice (fuel : nat) (d : Model.Doc) (s : Selection) (a e : ref) :
  Model.wellFormed d ->
  start s = Some a -> end_ s = Some e ->
  Model.isLeaf d a = true -> Model.isLeaf d e = true ->
  (List.length (Model.doc_blocks d) <= fuel)%nat ->
  exists d1 s1 d2 s2,
    defrag fuel (d, s) = Return RThis (d1, s1) /\
    defrag fuel (d1, s1) = Return RThis (d2, s2) /\
    d2 = d1 /\
    List.length (Model.leafIds d2) = List.length (Model.leafIds d1) /\
    Model.texts d2 = Model.texts d1.
Proof.
  intros Hwf Hs He Ha Hb Hfuel.
  destruct (isLeaf_inBlock d a Ha) as (i & Hi).
  destruct (isLeaf_inBlock d e Hb) as (j & Hj).
  destruct (defrag_run fuel d s i j a e Hwf Hs He Hi Hj Hfuel)
    as (d1 & s1 & Hrun & Hnd1 & Hlen & Hfix & Hsp).
  exists d1, s1, d1.
  destruct (valid s1) eqn:Hv.
  - destruct (Hsp Hv) as (a' & e' & i' & j' & Hs' & He' & Hi' & Hj' & Hlo & Hhi).
    destruct (defrag_run_fixed fuel d1 s1 i' j' a' e') as (s2 & Hrun2);
      try assumption.
    + intros m u Hm Hu. apply (Hfix m u); [lia|exact Hu].
    + lia.
    + exists s2. repeat split; assumption.
  - exists s1. repeat split; try assumption.
    unfold defrag. unfold bind at 1. unfold getSel. simpl. rewrite Hv.
    reflexivity.
Qed.

End DefragRuns.

(** * The properties on sample documents *)

Section Samples.

Local Open Scope string_scope.

(** Settles a closed equation by running the code. *)
Ltac evaluate := vm_compute; reflexivity.

(** ** move *)

Lemma move_across_containers_witness :
  move 1 1 None (Sample.twoParagraphs, Sample.cursor 3 4)
  = Return RThis
      (Sample.twoParagraphs,
       mkSelection (Some 0%nat) (Some 5%nat) 0 (Some 5%nat) 0 true [] 0).
Proof.
  apply (move_across_containers 1 Sample.twoParagraphs (Sample.cursor 3 4) 3 5);
    first [reflexivity | lia].
Defined.

(** C2 as the spec words it fails: the leaf ["defg"] (3) ends the first
    paragraph, the leaf ["hello world"] (5) starts the second, and [move(+1)]
    takes the cursor [(3, 4)] to [(5, 0)], not to [(5, 1)]. *)
Lemma move_across_containers_counterexample :
  let t := Sample.twoParagraphs in
  Tree.nextText t 3 true = Some 5%nat /\
  Tree.siblings t 5 3 = false /\
  Z.of_nat (Tree.length t 3) = 4 /\
  move 2 1 None (t, Sample.cursor 3 4)
  = Return RThis (t, cursorAt (Sample.cursor 3 4) 5 0) /\
  move 2 1 None (t, Sample.cursor 3 4)
  <> Return RThis (t, cursorAt (Sample.cursor 3 4) 5 1).
Proof.
  repeat split. discriminate.
Qed.

(** Within one container no unit is lost: [move(+3)] takes [(2, 2)] to
    [(3, 2)]. *)
Example move_within_container :
  move 2 3 None (Sample.twoParagraphs, Sample.cursor 2 2)
  = Return RThis (Sample.twoParagraphs, cursorAt (Sample.cursor 2 2) 3 2).
Proof. reflexivity. Qed.

(** ** query *)

Lemma query_swallows_host_exception_witness :
  query (Some (mkDocument Raises)) (Sample.twoParagraphs, Sample.range 2 1 3 2)
  = Return RThis (Sample.twoParagraphs, unmarked (Sample.range 2 1 3 2)) /\
  (forall from (w : World Model.Doc) e w', query from w <> Throw e w').
Proof.
  apply (query_swallows_host_exception (mkDocument Raises)). reflexivity.
Defined.

(** C3 as the spec words it fails: the host raises in [getSelection()], and
    [query] returns with the selection still spanning [(2, 1)] to [(3, 2)],
    not reset to an empty cursor. *)
Lemma query_host_exception_counterexample :
  exists s',
    query (Some (mkDocument Raises)) (Sample.twoParagraphs, Sample.range 2 1 3 2)
    = Return RThis (Sample.twoParagraphs, s') /\
    start s' = Some 2%nat /\ startOfs s' = 1 /\
    end_ s' = Some 3%nat /\ endOfs s' = 2 /\
    valid s' = true.
Proof.
  eexists. split; [evaluate | repeat apply conj; evaluate].
Qed.

(** An exception from inside [fromDom] -- the selection was never attached
    to a root -- after [setStart] has run: the start point is the new one,
    the end point the old one. *)
Example query_exception_midway :
  let range :=
    mkDomRange false (Some (DomText (Some "2") "abc")) 1
               (Some (DomText (Some "3") "defg")) 2 in
  let doc := mkDocument (Gives (Some (mkDomSelection 1 (Gives range)))) in
  query (Some doc)
        (Sample.twoParagraphs,
         mkSelection None (Some 5%nat) 1 (Some 5%nat) 2 true [] 0)
  = Return RThis
      (Sample.twoParagraphs,
       mkSelection None (Some 5%nat) 1 (Some 5%nat) 2 false [] 0).
Proof. reflexivity. Qed.

(** C10, the closing remark as the spec words it, fails: [query] is not the
    only public operation that does not return the selection.  [belongsTo]
    answers with a boolean; and on a selection that was never set
    [unindent()], and [restore()] after [save()], leave by a [TypeError]
    and return nothing. *)
Lemma query_without_document_counterexample :
  let t := Sample.twoParagraphs in
  let s := mkSelection None None 0 None 0 false [] 0 in
  belongsTo t (Sample.cursor 2 1) ty_document = inr true /\
  belongsTo t s ty_document = inr false /\
  unindent 1 (t, s) = Throw TypeError (t, s) /\
  bind save (fun _ => restore) (t, s)
  = Throw TypeError (t, mkSelection None None 0 None 0 false [] 2).
Proof.
  repeat apply conj; evaluate.
Qed.

(** ** save / restore *)

Lemma save_restore_endpoints_witness :
  exists s',
    bind save (fun _ => restore) (Sample.twoParagraphs, Sample.range 2 1 3 2)
    = Return RThis (Sample.twoParagraphs, s') /\
    start s' = Some 2%nat /\ startOfs s' = 1 /\
    end_ s' = Some 3%nat /\ endOfs s' = 2 /\
    stack s' = [].
Proof.
  apply (save_restore_endpoints Sample.twoParagraphs (Sample.range 2 1 3 2) 2 3).
  - reflexivity.
  - reflexivity.
  - split; [reflexivity|]. exists 1%nat, [], [3%nat].
    simpl; repeat split; try reflexivity; try lia; auto.
  - split; [reflexivity|]. exists 1%nat, [2%nat], [].
    simpl; repeat split; try reflexivity; try lia;
      try (intros [H|[]]; discriminate).
Defined.

(** C4 as the spec words it fails: the cursor at offset 0 of the leaf
    ["defg"] (3), the second child of its paragraph, comes back from
    [save()] and [restore()] at the end of the leaf ["abc"] (2). *)
Lemma save_restore_counterexample :
  let t := Sample.twoParagraphs in
  let s := Sample.cursor 3 0 in
  valid s = true /\
  Tree.removed t 3 = false /\
  Tree.container t 3 = Some 1%nat /\
  exists s',
    bind save (fun _ => restore) (t, s) = Return RThis (t, s') /\
    start s' = Some 2%nat /\ startOfs s' = 3 /\
    end_ s' = Some 2%nat /\ endOfs s' = 3.
Proof.
  repeat apply conj; try reflexivity.
  eexists. split; [evaluate | repeat apply conj; evaluate].
Qed.

Lemma restore_after_container_removed_witness :
  exists s1,
    save (Sample.twoParagraphs, Sample.range 2 1 5 3)
    = Return RThis (Sample.twoParagraphs, s1) /\
    forall (t' : Model.Doc) (s1' : Selection),
      stack s1' = stack s1 ->
      Tree.removed t' 1 = true \/ Tree.removed t' 4 = true ->
      exists s2,
        restore (t', s1') = Return RThis (t', s2) /\
        start s2 = None /\ end_ s2 = None.
Proof.
  apply (restore_after_container_removed
           Sample.twoParagraphs (Sample.range 2 1 5 3) 2 5 1 4).
  - reflexivity.
  - reflexivity.
  - repeat split. simpl. auto.
  - repeat split. simpl. auto.
Defined.

(** The start point is [null] and the end point is in ["hello world"] (5),
    a leaf of the second paragraph (4); the selection is saved and the
    second paragraph is taken out of the document. *)
Lemma restore_after_removal_throws_witness :
  let t := Sample.twoParagraphs in
  let t' :=
    Model.mkDoc 0
      [Model.mkBlock 1 ty_paragraph []
         [Model.mkLeaf 2 "abc" None []; Model.mkLeaf 3 "defg" None []]]
      6 [] in
  let s := mkSelection (Some 0%nat) None 0 (Some 5%nat) 3 false [] 0 in
  exists s1,
    save (t, s) = Return RThis (t, s1) /\
    start s1 = None /\ end_ s1 = Some 5%nat /\
    restore (t', s1)
    = Throw TypeError
        (t', mkSelection (Some 0%nat) None 0 (Some 5%nat) 3 false []
                         (allocated s1)).
Proof.
  cbv zeta.
  apply (@restore_after_removal_throws Model.Doc docOps
           Sample.twoParagraphs
           (mkSelection (Some 0%nat) None 0 (Some 5%nat) 3 false [] 0) 5 4).
  - discriminate.
  - reflexivity.
  - repeat split. simpl. auto.
  - reflexivity.
Defined.

(** The selection from inside ["abc"] to inside ["hello world"] is saved and
    then deleted, which takes the second paragraph out of the tree;
    [restore()] leaves an empty selection. *)
Example restore_after_delete :
  exists t' s',
    bind save (fun _ => bind delete (fun _ => restore))
         (Sample.twoParagraphs, Sample.range 2 1 5 3)
    = Return RThis (t', s') /\
    Tree.removed t' 4 = true /\
    start s' = None /\ end_ s' = None.
Proof.
  eexists. eexists. split; [evaluate | repeat apply conj; evaluate].
Qed.

(** ** sort *)

Lemma compare_antisymmetric (d : Model.Doc) (x y : ref) :
  Tree.compare d x y > 0 -> Tree.compare d y x <= 0.
Proof.
  simpl. unfold Model.compare. lia.
Qed.

Lemma sort_orders_endpoints_witness :
  exists s',
    sort (Sample.twoParagraphs, Sample.range 5 3 2 1)
    = Return RThis (Sample.twoParagraphs, s') /\
    ordered Sample.twoParagraphs s' /\
    reversed Sample.twoParagraphs s' = false /\
    (s' = Sample.range 5 3 2 1 \/ s' = swapped (Sample.range 5 3 2 1)).
Proof.
  apply (sort_orders_endpoints Sample.twoParagraphs (Sample.range 5 3 2 1)).
  - reflexivity.
  - apply compare_antisymmetric.
Defined.

Example sort_swaps :
  sort (Sample.twoParagraphs, Sample.range 5 3 2 1)
  = Return RThis (Sample.twoParagraphs, Sample.range 2 1 5 3).
Proof. reflexivity. Qed.

(** ** insert *)

Lemma insert_behind_link_witness :
  insert 0 "!" (Sample.trailingLink, Sample.cursor 3 4)
  = Return RThis
      (Tree.insert (fst (Tree.createTextNext Sample.trailingLink 3 "" None))
                   4 "!" 0,
       cursorAt (Sample.cursor 3 4) 4 1).
Proof.
  apply (insert_behind_link 0 Sample.trailingLink
           (fst (Tree.createTextNext Sample.trailingLink 3 "" None))
           (Sample.cursor 3 4) 3 4 "!");
    first [reflexivity | simpl; lia].
Defined.

(** The link keeps its text, the new leaf [4] is a plain text leaf. *)
Example insert_behind_trailing_link :
  exists t',
    insert 0 "!" (Sample.trailingLink, Sample.cursor 3 4)
    = Return RThis (t', cursorAt (Sample.cursor 3 4) 4 1) /\
    Tree.value t' 3 = "here" /\ Tree.type t' 3 = ty_link /\
    Tree.value t' 4 = "!" /\ Tree.type t' 4 = ty_text /\
    Model.leafIds t' = [2; 3; 4]%nat.
Proof.
  eexists. split; [evaluate | repeat apply conj; evaluate].
Qed.

(** C7 as the spec words it fails: the cursor is at the trailing edge of the
    link ["ab"] (2) and the next leaf ["cd"] (3) is a link too; [insert("x")]
    creates no text leaf and writes into the link [3], which becomes
    ["xcd"]. *)
Lemma insert_behind_link_counterexample :
  let t := Sample.twoLinks in
  let s := Sample.cursor 2 2 in
  collapsed s = true /\
  Tree.type t 2 = ty_link /\
  startOfs s = Z.of_nat (Tree.length t 2) /\
  exists t',
    insert 0 "x" (t, s) = Return RThis (t', cursorAt s 3 1) /\
    Tree.type t' 3 = ty_link /\
    Tree.value t 3 = "cd" /\ Tree.value t' 3 = "xcd" /\
    Model.leafIds t' = Model.leafIds t.
Proof.
  repeat apply conj; try reflexivity.
  eexists. split; [evaluate | repeat apply conj; evaluate].
Qed.

(** ** link *)

(** [link('')] on the selection from inside the link ["ab"] (2) to inside
    the link ["cd"] (3): the two leaves are visited. *)
Lemma link_falsy_is_unlink_witness :
  let t := Sample.twoLinks in
  let s := Sample.range 2 1 3 1 in
  let l := [2%nat; 3%nat] in
  (forall w : World Model.Doc, link 2 (Some "") w = unlink 2 w) /\
  link 2 (Some "") (t, s) = defrag 2 (unlinked t l, s) /\
  (Tree.compare t 2 3 <= 0 -> exists l', l = 2%nat :: l') /\
  (0 < Tree.compare t 2 3 -> l = [] /\ unlinked t l = t).
Proof.
  cbv zeta.
  apply (@link_falsy_is_unlink Model.Doc docOps 2 (Some "")
           Sample.twoLinks (Sample.range 2 1 3 1) 2 3 [2%nat; 3%nat]).
  - reflexivity.
  - reflexivity.
  - reflexivity.
  - simpl. repeat split; vm_compute; discriminate.
  - simpl. lia.
Defined.

(** What that run leaves: one leaf of plain text. *)
Example link_empty_url_over_two_links :
  exists t' s',
    link 2 (Some "") (Sample.twoLinks, Sample.range 2 1 3 1)
    = Return RThis (t', s') /\
    map (Tree.type t') (Model.leafIds t') = [ty_text] /\
    map (Tree.value t') (Model.leafIds t') = ["abcd"].
Proof.
  eexists. eexists. split; [evaluate | repeat apply conj; evaluate].
Qed.

(** C9 as the spec words it fails on a selection that runs backwards: the
    selection from inside the link ["cd"] (3) back to inside the link
    ["ab"] (2) is valid, and [link('')] returns with the tree as it was;
    both selected leaves are links still. *)
Lemma link_falsy_counterexample :
  let t := Sample.twoLinks in
  let s := Sample.range 3 1 2 1 in
  valid s = true /\
  Tree.type t 2 = ty_link /\ Tree.type t 3 = ty_link /\
  exists s',
    link 2 (Some "") (t, s) = Return RThis (t, s') /\
    start s' = Some 3%nat /\ end_ s' = Some 2%nat.
Proof.
  repeat apply conj; try reflexivity.
  eexists. split; [evaluate | repeat apply conj; evaluate].
Qed.

(** [link('')] on a selection over a hyperlink turns the leaf into plain
    text. *)
Example link_empty_url_unlinks :
  exists t' s',
    link 2 (Some "") (Sample.trailingLink, Sample.range 3 0 3 4)
    = Return RThis (t', s') /\
    Tree.type Sample.trailingLink 3 = ty_link /\
    map (Tree.type t') (Model.leafIds t') = [ty_text].
Proof.
  eexists. eexists. split; [evaluate | repeat apply conj; evaluate].
Qed.

(** ** defrag *)

Lemma twoParagraphs_wellFormed : Model.wellFormed Sample.twoParagraphs.
Proof.
  unfold Model.wellFormed. simpl.
  repeat (constructor; [simpl; intuition discriminate|]). constructor.
Defined.

Lemma defrag_twice_witness :
  exists d1 s1 d2 s2,
    defrag 2 (Sample.twoParagraphs, Sample.range 2 1 5 3)
    = Return RThis (d1, s1) /\
    defrag 2 (d1, s1) = Return RThis (d2, s2) /\
    d2 = d1 /\
    List.length (Model.leafIds d2) = List.length (Model.leafIds d1) /\
    Model.texts d2 = Model.texts d1.
Proof.
  apply (defrag_twice 2 Sample.twoParagraphs (Sample.range 2 1 5 3) 2 5).
  - exact twoParagraphs_wellFormed.
  - reflexivity.
  - reflexivity.
  - reflexivity.
  - reflexivity.
  - simpl. lia.
Defined.

(** The first [defrag()] joins ["abc"] and ["defg"]; the second finds
    nothing to join. *)
Example defrag_joins_once :
  exists d1 s1 s2,
    defrag 2 (Sample.twoParagraphs, Sample.range 2 1 5 3)
    = Return RThis (d1, s1) /\
    defrag 2 (d1, s1) = Return RThis (d1, s2) /\
    Model.texts Sample.twoParagraphs = [["abc"; "defg"]; ["hello world"]] /\
    Model.texts d1 = [["abcdefg"]; ["hello world"]].
Proof.
  eexists. eexists. eexists.
  split; [evaluate | repeat apply conj; evaluate].
Qed.

(** ** The editing operations at work *)

(** [wordWrap()] on the cursor at offset 2 of ["hello world"] selects
    offsets 0 to 5. *)
Example wordWrap_hello :
  wordWrap (Sample.twoParagraphs, Sample.cursor 5 2)
  = Return RThis
      (Sample.twoParagraphs,
       mkSelection (Some 0%nat) (Some 5%nat) 0 (Some 5%nat) 5 true [] 0).
Proof. reflexivity. Qed.

(** [insert("x")] at offset 2 of ["abc"] gives ["abxc"] with the cursor at
    3; deleting the character before the cursor gives ["abc"] back, with the
    cursor at 2. *)
Example insert_then_delete :
  exists t1 t2,
    insert 1 "x" (Sample.twoParagraphs, Sample.cursor 2 2)
    = Return RThis (t1, cursorAt (Sample.cursor 2 2) 2 3) /\
    Tree.value t1 2 = "abxc" /\
    bind (set (Some 2%nat) 2 (Some 2%nat) 3) (fun _ => delete)
         (t1, cursorAt (Sample.cursor 2 2) 2 3)
    = Return RThis (t2, cursorAt (Sample.cursor 2 2) 2 2) /\
    Tree.value t2 2 = "abc".
Proof.
  eexists. eexists.
  split; [evaluate | repeat apply conj; evaluate].
Qed.

(** [toggleList('bulleted')] twice leaves the container outside any list. *)
Example toggleList_twice :
  exists t1 t2 s1 s2,
    toggleList 2 ty_bulleted (Sample.twoParagraphs, Sample.cursor 5 0)
    = Return RThis (t1, s1) /\
    Tree.climb t1 5 [ty_bulleted; ty_numbered] = Some 6%nat /\
    toggleList 2 ty_bulleted (t1, s1) = Return RThis (t2, s2) /\
    Tree.climb t2 5 [ty_bulleted; ty_numbered] = None /\
    Model.doc_blocks t2 = Model.doc_blocks Sample.twoParagraphs.
Proof.
  do 4 eexists.
  split; [evaluate | repeat apply conj; evaluate].
Qed.

End Samples.

(** * More of the selection engine

    Properties of the methods of [EditableSelection] beyond the ones above:
    what a method leaves alone, where it leaves the selection, and how the
    methods compose.  They hold for every tree that provides [Tree.Ops]. *)

(** The test a term branches on first: the innermost scrutinee. *)
Ltac scrutinee e :=
  lazymatch e with
  | context [match ?x with _ => _ end] => scrutinee x
  | _ => e
  end.

(** Splits on the test the code branches on next. *)
Ltac branch :=
  lazymatch goal with
  | |- ?g =>
      let x := scrutinee g in
      tryif constr_eq x g then fail else destruct x eqn:?
  end.

(** ** What a method leaves alone *)

Section Frames.

Context {T : Type} {ops : Tree.Ops T} {layout : Layout.Ops T}.
Variable fuel : nat.

#[local] Arguments resolveOfs : simpl never.
#[local] Arguments relPoint : simpl never.

Lemma bind_returns {A B} (m : M T A) (k : A -> M T B) (w w' : World T) (b : B) :
  bind m k w = Return b w' ->
  exists a w1, m w = Return a w1 /\ k a w1 = Return b w'.
Proof.
  unfold bind. destruct (m w) as [a w1| |]; try discriminate.
  intros H. exists a, w1. split; [reflexivity|exact H].
Qed.

Lemma ensures_bind {A B} (J : World T -> Prop) (m : M T A) (k : A -> M T B) :
  ensures J m J -> (forall a, ensures J (k a) J) -> ensures J (bind m k) J.
Proof.
  intros Hm Hk w Hw. specialize (Hm w Hw). unfold bind.
  destruct (m w) as [a w1|e w1|]; [|exact Hm|exact I].
  exact (Hk a w1 Hm).
Qed.

Lemma ensures_ret {A} (J : World T -> Prop) (a : A) : ensures J (ret a) J.
Proof. intros w Hw. exact Hw. Qed.

Lemma ensures_throw {A} (J : World T -> Prop) (e : Exn) :
  ensures J (@throw T A e) J.
Proof. intros w Hw. exact Hw. Qed.

Lemma ensures_outOfFuel {A} (J : World T -> Prop) :
  ensures J (fun _ : World T => @OutOfFuel (World T) A) J.
Proof. intros w Hw. exact I. Qed.

Lemma ensures_getSel (J : World T -> Prop) : ensures J getSel J.
Proof. intros w Hw. exact Hw. Qed.

Lemma ensures_getTree (J : World T -> Prop) : ensures J getTree J.
Proof. intros w Hw. exact Hw. Qed.

Lemma ensures_tryCatch (J : World T -> Prop) (body : M T unit) :
  ensures J body J -> ensures J (tryCatch body) J.
Proof.
  intros H w Hw. specialize (H w Hw). unfold tryCatch.
  destruct (body w); assumption.
Qed.

Lemma tree_putSel (t : T) (s : Selection) :
  ensures (fun w : World T => fst w = t) (putSel s) (fun w => fst w = t).
Proof. intros w Hw. exact Hw. Qed.

Lemma selection_mutate (J : Selection -> Prop) (f : T -> T) :
  ensures (fun w : World T => J (snd w)) (mutate f) (fun w => J (snd w)).
Proof. intros w Hw. exact Hw. Qed.

Lemma selection_mutateGet (J : Selection -> Prop) (f : T -> T * option ref) :
  ensures (fun w : World T => J (snd w)) (mutateGet f) (fun w => J (snd w)).
Proof.
  intros w Hw. unfold mutateGet. destruct (f (fst w)). exact Hw.
Qed.

Lemma points_mark (s : Selection) (m : bool) :
  ensures (fun w : World T => samePoints s (snd w)) (mark m)
          (fun w => samePoints s (snd w)).
Proof. intros w Hw. exact Hw. Qed.

(** Follows the shape of a method, one statement after the other. *)
Ltac frame_with open :=
  repeat match goal with
    | |- ensures _ (ret _) _ => apply ensures_ret
    | |- ensures _ (throw _) _ => apply ensures_throw
    | |- ensures _ (fun _ => OutOfFuel) _ => apply ensures_outOfFuel
    | |- ensures _ getSel _ => apply ensures_getSel
    | |- ensures _ getTree _ => apply ensures_getTree
    | |- ensures _ (putSel _) _ => apply tree_putSel
    | |- ensures _ (mutate _) _ =>
        first [apply selection_mutate
              | apply (selection_mutate (fun s => s = _))]
    | |- ensures _ (mutateGet _) _ => apply selection_mutateGet
    | |- ensures _ (mark _) _ => apply points_mark
    | |- ensures _ (tryCatch _) _ => apply ensures_tryCatch
    | |- ensures _ (bind _ _) _ => apply ensures_bind; [|intros]
    | |- ensures _ (if ?b then _ else _) _ => destruct b
    | |- ensures _ (match ?x with _ => _ end) _ => destruct x
    | |- ensures _ _ _ => progress open
    end.

Ltac open_selection :=
  unfold attach, mark, set, setCursor, collapse, setStart, setEnd,
    move, save, setStack, absPoint, restore, sort, trim, wordWrap, query,
    fromDom, apply, deref, orOutOfFuel, when, host.

Ltac open_structure :=
  unfold indent, unindent, toggleList, toggleQuote, containers, deref, when.

(** X1: the methods that only move or record the selection -- [attach],
    [mark], [set], [setCursor], [collapse], [move], [save], [restore],
    [sort], [trim], [wordWrap], [query] and [apply] -- never change the
    document tree, whether they return or throw. *)
Theorem selection_methods_keep_tree :
  (forall document, keepsTree T (attach document)) /\
  (forall m, keepsTree T (mark m)) /\
  (forall a ao b bo, keepsTree T (set a ao b bo)) /\
  (forall node ofs, keepsTree T (setCursor node ofs)) /\
  keepsTree T collapse /\
  (forall ds de, keepsTree T (move fuel ds de)) /\
  keepsTree T save /\
  keepsTree T restore /\
  keepsTree T sort /\
  keepsTree T trim /\
  keepsTree T wordWrap /\
  (forall from, keepsTree T (query from)) /\
  (forall to, keepsTree T (apply to)).
Proof.
  repeat apply conj; intros; intros t; frame_with open_selection.
Qed.

(** The loop of [containers] with a callback that keeps what holds of the
    selection. *)
Lemma selection_containers_loop (J : Selection -> Prop) (n : nat)
      (cb : ref -> M T unit) (c : option ref) :
  (forall x, ensures (fun w => J (snd w)) (cb x) (fun w => J (snd w))) ->
  ensures (fun w => J (snd w)) (containers_loop n cb c) (fun w => J (snd w)).
Proof.
  intros Hcb. revert c. induction n as [|n IH]; intros c; simpl;
    frame_with open_structure; try apply Hcb; try apply IH.
Qed.

Lemma selection_containers (J : Selection -> Prop) (cb : ref -> M T unit) :
  (forall x, ensures (fun w => J (snd w)) (cb x) (fun w => J (snd w))) ->
  ensures (fun w => J (snd w)) (containers fuel cb) (fun w => J (snd w)).
Proof.
  intros Hcb. frame_with open_structure.
  apply selection_containers_loop. exact Hcb.
Qed.

Lemma points_containers_loop (n : nat) (cb : ref -> M T unit)
      (c : option ref) :
  (forall x, keepsPoints T (cb x)) -> keepsPoints T (containers_loop n cb c).
Proof.
  intros Hcb s. apply (selection_containers_loop (samePoints s)).
  intros x. apply Hcb.
Qed.

Lemma points_containers (cb : ref -> M T unit) :
  (forall x, keepsPoints T (cb x)) -> keepsPoints T (containers fuel cb).
Proof.
  intros Hcb s. apply (selection_containers (samePoints s)).
  intros x. apply Hcb.
Qed.

Lemma points_toggleQuote_loop (n : nat) (node : option ref) :
  keepsPoints T (toggleQuote_loop n node).
Proof.
  revert node. induction n as [|n IH]; intros node s; simpl;
    frame_with open_structure; apply IH.
Qed.

Lemma points_indent : keepsPoints T (indent fuel).
Proof.
  intros s. frame_with open_structure.
  apply points_containers_loop; intros x s'; frame_with open_structure.
Qed.

Lemma points_unindent : keepsPoints T (unindent fuel).
Proof.
  intros s. frame_with open_structure.
  apply points_containers_loop; intros x s'; frame_with open_structure.
Qed.

Lemma points_toggleList (type : wmNodeType) :
  keepsPoints T (toggleList fuel type).
Proof.
  intros s. frame_with open_structure;
    apply points_containers_loop; intros x s'; frame_with open_structure.
Qed.

Lemma points_toggleQuote : keepsPoints T (toggleQuote fuel).
Proof.
  intros s. frame_with open_structure;
    try (apply points_containers_loop; intros x s'; frame_with open_structure);
    try apply points_toggleQuote_loop.
Qed.

(** X2: [indent], [unindent], [toggleList] and [toggleQuote] restructure
    the tree around the selection and leave its two points as they are --
    nodes, offsets, root and stack -- whether they return or throw; of the
    selection they write the [modified] flag only. *)
Theorem indentation_keeps_points :
  keepsPoints T (indent fuel) /\
  keepsPoints T (unindent fuel) /\
  (forall type, keepsPoints T (toggleList fuel type)) /\
  keepsPoints T (toggleQuote fuel).
Proof.
  repeat apply conj.
  - exact points_indent.
  - exact points_unindent.
  - exact points_toggleList.
  - exact points_toggleQuote.
Qed.

(** X3: assigning [align] or [level] never moves the selection.  The
    setter of [align] leaves the selection as it is, the [modified] flag
    included, whether it returns or throws; the setter of [level] keeps the
    points and, when it returns, has the flag say whether the selection is
    valid.  On an invalid selection the getters answer ['left'], [0] and no
    style. *)
Theorem attributes_keep_selection :
  (forall align s,
     ensures (fun w => snd w = s) (putAlign fuel align) (fun w => snd w = s)) /\
  (forall level, keepsPoints T (putLevel fuel level)) /\
  (forall level t s r w',
     putLevel fuel level (t, s) = Return r w' -> modified (snd w') = valid s) /\
  (forall t s,
     valid s = false ->
     getAlign t s = "left"%string /\ getLevel t s = 0 /\ getStyle t s = []).
Proof.
  repeat apply conj.
  - intros align s. unfold putAlign.
    apply ensures_bind; [|intros; apply ensures_ret].
    apply (selection_containers (fun x => x = s)).
    intros x. apply (selection_mutate (fun x => x = s)).
  - intros level s. unfold putLevel.
    apply ensures_bind; [|intros; frame_with open_structure].
    apply (selection_containers (samePoints s)).
    intros x. apply selection_mutate.
  - intros level t s r w'. unfold putLevel. intros H.
    apply bind_returns in H. destruct H as (r1 & [t1 s1] & Hc & H).
    pose proof (selection_containers (fun x => x = s)
                  (fun container =>
                     mutate (fun t => Layout.setLevel t container level))
                  (fun x => selection_mutate (fun x => x = s) _)
                  (t, s) eq_refl) as P.
    rewrite Hc in P. simpl in P. subst s1.
    revert H. unfold mark. run. intros H. inversion H. subst. simpl.
    apply andb_true_r.
  - intros t s H. unfold getAlign, getLevel, getStyle. rewrite H.
    repeat split.
Qed.

End Frames.

(** ** wordWrap and the word edges *)

Section WordEdges.

Context {T : Type} {ops : Tree.Ops T}.

#[local] Arguments resolveOfs : simpl never.

(** The callback of [edges], run over any list of offsets from any pair
    [(before, after)]: [before] grows to the greatest offset at or before
    [index], [after] shrinks to the least offset at or behind it. *)
Lemma edges_fold (index : Z) (l : list Z) (b0 a0 : Z) :
  let r :=
    fold_left
      (fun (acc : Z * Z) (offset : Z) =>
         let before := fst acc in
         let after := snd acc in
         let before :=
           if (offset <=? index) && (offset >? before) then offset else before in
         let after :=
           if (offset >=? index) && (offset <? after) then offset else after in
         (before, after))
      l (b0, a0) in
  b0 <= fst r /\
  (fst r = b0 \/ In (fst r) l /\ fst r <= index) /\
  (forall o, In o l -> o <= index -> o <= fst r) /\
  snd r <= a0 /\
  (snd r = a0 \/ In (snd r) l /\ index <= snd r) /\
  (forall o, In o l -> index <= o -> snd r <= o).
Proof.
  revert b0 a0. induction l as [|x l IH]; intros b0 a0.
  - simpl. repeat split; try lia; try (left; reflexivity);
      intros o [].
  - simpl fold_left. cbv zeta. simpl fst. simpl snd.
    set (b1 := if (x <=? index) && (x >? b0) then x else b0).
    set (a1 := if (x >=? index) && (x <? a0) then x else a0).
    specialize (IH b1 a1). cbv zeta in IH.
    destruct IH as (Hb & Hbo & Hbm & Ha & Hao & Ham).
    assert (Hb1 : b0 <= b1 /\ (b1 = b0 \/ b1 = x /\ x <= index) /\
                  (x <= index -> x <= b1)).
    { unfold b1.
      destruct (x <=? index) eqn:E1; destruct (x >? b0) eqn:E2; simpl;
        try apply Z.leb_le in E1; try apply Z.leb_gt in E1;
        try apply Z.gtb_lt in E2;
        try (assert (x <= b0) by (destruct (Z_le_gt_dec x b0) as [L|G];
               [exact L|apply Z.lt_gt in G; apply Z.gt_lt in G;
                apply Z.gtb_lt in G; congruence]));
        repeat split; try lia; auto. }
    assert (Ha1 : a1 <= a0 /\ (a1 = a0 \/ a1 = x /\ index <= x) /\
                  (index <= x -> a1 <= x)).
    { unfold a1.
      destruct (x >=? index) eqn:E1; destruct (x <? a0) eqn:E2; simpl;
        try apply Z.geb_le in E1; try apply Z.ltb_lt in E2;
        try apply Z.ltb_ge in E2;
        try (assert (x < index) by (destruct (Z_lt_ge_dec x index) as [L|G];
               [exact L|apply Z.ge_le in G; apply Z.geb_le in G; congruence]));
        repeat split; try lia; auto. }
    destruct Hb1 as (Hb1 & Hb1o & Hb1m). destruct Ha1 as (Ha1 & Ha1o & Ha1m).
    repeat split.
    + lia.
    + destruct Hbo as [E|[Hin Hle]].
      * rewrite E. destruct Hb1o as [E'|[E' Hle]]; [left; exact E'|].
        right. split; [left; symmetry; exact E'|lia].
      * right. split; [right; exact Hin|exact Hle].
    + intros o [->|Hin] Hle; [specialize (Hb1m Hle); lia|exact (Hbm o Hin Hle)].
    + lia.
    + destruct Hao as [E|[Hin Hle]].
      * rewrite E. destruct Ha1o as [E'|[E' Hle]]; [left; exact E'|].
        right. split; [left; symmetry; exact E'|lia].
      * right. split; [right; exact Hin|exact Hle].
    + intros o [->|Hin] Hle; [specialize (Ha1m Hle); lia|exact (Ham o Hin Hle)].
Qed.

Lemma wordBoundaries_nonneg (value : string) (o : Z) :
  In o (wordBoundaries value) -> 0 <= o.
Proof.
  unfold wordBoundaries. intros H. apply in_map_iff in H.
  destruct H as (n & <- & _). lia.
Qed.

(** What [edges] returns, in one statement. *)
Lemma edges_spec (value : string) (index : Z) :
  let e := edges value index in
  let len := Z.of_nat (String.length value) in
  0 <= fst e /\
  (fst e = 0 \/ In (fst e) (wordBoundaries value) /\ fst e <= index) /\
  (forall o, In o (wordBoundaries value) -> o <= index -> o <= fst e) /\
  snd e <= len /\
  (snd e = len \/ In (snd e) (wordBoundaries value) /\ index <= snd e) /\
  (forall o, In o (wordBoundaries value) -> index <= o -> snd e <= o).
Proof.
  exact (edges_fold index (wordBoundaries value) 0
                    (Z.of_nat (String.length value))).
Qed.

Lemma edges_nonneg (value : string) (index : Z) :
  0 <= fst (edges value index) /\ 0 <= snd (edges value index).
Proof.
  destruct (edges_spec value index) as (Hb & _ & _ & _ & Ha & _).
  split; [exact Hb|].
  destruct Ha as [E|[Hin _]]; [rewrite E; lia|].
  exact (wordBoundaries_nonneg _ _ Hin).
Qed.

(** The two edges bracket an index that lies within the text. *)
Lemma edges_bracket (value : string) (index : Z) :
  0 <= index <= Z.of_nat (String.length value) ->
  0 <= fst (edges value index) <= index /\
  index <= snd (edges value index) <= Z.of_nat (String.length value).
Proof.
  intros H.
  destruct (edges_spec value index) as (Hb & Hbo & _ & Ha & Hao & _).
  repeat split; try assumption.
  - destruct Hbo as [E|[_ L]]; [rewrite E; lia|exact L].
  - destruct Hao as [E|[_ L]]; [rewrite E; lia|exact L].
Qed.

(** X4: the two offsets [edges] returns are the word boundaries nearest to
    the index: each is a position at which [\b] matches, or the end of the
    text it defaults to (0 before, the length behind), and no boundary lies
    between [before] and the index or between the index and [after]. *)
Theorem edges_nearest_boundaries (value : string) (index : Z) :
  let e := edges value index in
  (fst e = 0 \/ In (fst e) (wordBoundaries value)) /\
  (snd e = Z.of_nat (String.length value) \/ In (snd e) (wordBoundaries value)) /\
  forall o, In o (wordBoundaries value) ->
    ~ (fst e < o <= index) /\ ~ (index <= o < snd e).
Proof.
  destruct (edges_spec value index) as (Hb & Hbo & Hbm & Ha & Hao & Ham).
  cbv zeta. repeat split.
  - destruct Hbo as [E|[Hin _]]; [left; exact E|right; exact Hin].
  - destruct Hao as [E|[Hin _]]; [left; exact E|right; exact Hin].
  - intros [H1 H2]. specialize (Hbm o H H2). lia.
  - intros [H1 H2]. specialize (Ham o H H1). lia.
Qed.

Lemma edges_fst_fixed (value : string) (index : Z) :
  fst (edges value (fst (edges value index))) = fst (edges value index).
Proof.
  destruct (edges_spec value index) as (Hb & Hbo & _).
  destruct (edges_spec value (fst (edges value index)))
    as (Hb' & Hbo' & Hbm' & _).
  destruct Hbo as [E|[Hin _]].
  - destruct Hbo' as [E'|[_ L]]; [congruence|]. lia.
  - specialize (Hbm' _ Hin (Z.le_refl _)).
    destruct Hbo' as [E'|[_ L]]; lia.
Qed.

Lemma edges_snd_fixed (value : string) (index : Z) :
  snd (edges value (snd (edges value index))) = snd (edges value index).
Proof.
  destruct (edges_spec value index) as (_ & _ & _ & Ha & Hao & _).
  destruct (edges_spec value (snd (edges value index)))
    as (_ & _ & _ & Ha' & Hao' & Ham').
  destruct Hao as [E|[Hin _]].
  - destruct Hao' as [E'|[_ L]]; [congruence|]. lia.
  - specialize (Ham' _ Hin (Z.le_refl _)).
    destruct Hao' as [E'|[_ L]]; lia.
Qed.

(** A selection whose offsets are edges already is a fixed point of
    [wordWrap]. *)
Lemma wordWrap_fixed (t : T) (a b : ref) (i j : Z) rt st al :
  let s1 :=
    mkSelection rt (Some a) (fst (edges (Tree.value t a) i))
                (Some b) (snd (edges (Tree.value t b) j)) true st al in
  wordWrap (t, s1) = Return RThis (t, s1).
Proof.
  cbv zeta.
  pose proof (edges_fst_fixed (Tree.value t a) i) as Fa.
  pose proof (edges_snd_fixed (Tree.value t b) j) as Fb.
  unfold wordWrap. run.
  unfold collapsed, single, valid. simpl.
  destruct (Nat.eqb a b) eqn:Eab; simpl.
  - apply Nat.eqb_eq in Eab. subst b.
    destruct (_ =? _) eqn:Eq.
    + apply Z.eqb_eq in Eq.
      unfold set, setStart, setEnd. run.
      rewrite !resolveOfs_nonneg by (apply edges_nonneg).
      rewrite Fa.
      replace (snd (edges (Tree.value t a) (fst (edges (Tree.value t a) i))))
        with (snd (edges (Tree.value t a) j)) by (rewrite Eq, Fb; reflexivity).
      reflexivity.
    + unfold mark. run. rewrite Fa, Fb. reflexivity.
  - unfold mark. run. rewrite Fa, Fb. reflexivity.
Qed.

(** X5: [wordWrap()] on a cursor inside the text of its node selects a
    range of that node around the cursor: the start offset is at most the
    cursor's, the end offset at least, and both lie within the text. *)
Theorem wordWrap_brackets_cursor (t : T) (s : Selection) (a : ref) :
  start s = Some a -> end_ s = Some a ->
  startOfs s = endOfs s ->
  0 <= startOfs s <= Z.of_nat (String.length (Tree.value t a)) ->
  exists b e,
    wordWrap (t, s)
    = Return RThis
        (t, mkSelection (root s) (Some a) b (Some a) e true
                        (stack s) (allocated s)) /\
    0 <= b <= startOfs s /\
    startOfs s <= e <= Z.of_nat (String.length (Tree.value t a)).
Proof.
  intros Hs He Ho Hin.
  destruct (edges_bracket (Tree.value t a) (startOfs s) Hin) as [Hb Ha].
  exists (fst (edges (Tree.value t a) (startOfs s))),
         (snd (edges (Tree.value t a) (startOfs s))).
  split; [|split; assumption].
  unfold wordWrap. run. unfold valid, collapsed, single, valid.
  rewrite Hs, He, <- Ho. simpl. rewrite Nat.eqb_refl, Z.eqb_refl. simpl.
  unfold set, setStart, setEnd. run.
  rewrite !resolveOfs_nonneg by lia. reflexivity.
Qed.

(** X6: [wordWrap()] is idempotent: a second call right after the first
    changes nothing, on a cursor, on a range and on an invalid selection
    alike. *)
Theorem wordWrap_idempotent (w : World T) :
  bind wordWrap (fun _ => wordWrap) w = wordWrap w.
Proof.
  destruct w as [t s].
  destruct (valid s) eqn:Hv.
  2:{ unfold bind at 1. unfold wordWrap. run. rewrite Hv. simpl.
      unfold bind, getSel. simpl. rewrite Hv. reflexivity. }
  pose proof Hv as Hv'. unfold valid in Hv'.
  destruct (start s) as [a|] eqn:Hs; [|discriminate].
  destruct (end_ s) as [b|] eqn:He; [|discriminate]. clear Hv'.
  pose proof (edges_nonneg (Tree.value t a) (startOfs s)) as [Nb Na].
  unfold bind at 1.
  destruct (collapsed s) eqn:Hc.
  - (* a cursor: [set] at the two edges *)
    assert (Hab : a = b /\ startOfs s = endOfs s).
    { pose proof Hc as Hc'.
      unfold collapsed, single in Hc'. rewrite Hs, He in Hc'. simpl in Hc'.
      apply andb_prop in Hc'. destruct Hc' as [H1 H2].
      apply andb_prop in H1. destruct H1 as [_ H1].
      apply Nat.eqb_eq in H1. apply Z.eqb_eq in H2. split; assumption. }
    destruct Hab as [<- Eo].
    assert (W1 : wordWrap (t, s)
                 = Return RThis
                     (t, mkSelection (root s) (Some a)
                           (fst (edges (Tree.value t a) (startOfs s)))
                           (Some a)
                           (snd (edges (Tree.value t a) (startOfs s)))
                           true (stack s) (allocated s))).
    { unfold wordWrap. run. rewrite Hv, Hs. run. rewrite Hc.
      unfold set, setStart, setEnd. run.
      rewrite !resolveOfs_nonneg by assumption. reflexivity. }
    rewrite W1. apply wordWrap_fixed.
  - (* a range: the two offsets are written, [mark()] follows *)
    assert (W1 : wordWrap (t, s)
                 = Return RThis
                     (t, mkSelection (root s) (Some a)
                           (fst (edges (Tree.value t a) (startOfs s)))
                           (Some b)
                           (snd (edges (Tree.value t b) (endOfs s)))
                           true (stack s) (allocated s))).
    { unfold wordWrap. run. rewrite Hv, Hs. run. rewrite Hc, He.
      reflexivity. }
    rewrite W1. apply wordWrap_fixed.
Qed.

End WordEdges.

(** ** query and the host's DOM *)

Section Query.

Context {T : Type} {ops : Tree.Ops T}.

#[local] Arguments resolveOfs : simpl never.

(** X7: with a host document [query] always returns the selection --
    whatever the host's selection, range and DOM nodes are, and whether the
    host or [fromDom] raises on the way -- with the [modified] flag cleared
    and the tree, the root and the stack untouched. *)
Theorem query_always_returns (doc : Document) (t : T) (s : Selection) :
  exists s',
    query (Some doc) (t, s) = Return RThis (t, s') /\
    modified s' = false /\
    root s' = root s /\ stack s' = stack s /\ allocated s' = allocated s.
Proof.
  unfold query, fromDom, setCursor, set, setStart, setEnd, sort, mark.
  run.
  repeat (branch; run);
    eexists; (split; [reflexivity|]); simpl;
    rewrite ?andb_false_r; repeat split; reflexivity.
Qed.

(** Induction on a DOM node, with the property at hand for the children of
    an element. *)
Lemma DomNode_nested_ind (P : DomNode -> Prop) :
  (forall parent data, P (DomText parent data)) ->
  (forall children, Forall P children -> P (DomElement children)) ->
  (forall data, P (DomOther data)) ->
  forall node, P node.
Proof.
  intros Ht He Ho. fix IH 1. intros [parent data|children|data].
  - apply Ht.
  - apply He. induction children as [|c cs IHcs]; constructor;
      [apply IH|exact IHcs].
  - apply Ho.
Qed.

(** X8: the node [fromDom] maps a DOM position to is a text leaf or a link
    leaf, never a container or a structural node, and on an empty leaf the
    offset is 0; [fromDom] itself changes nothing. *)
Theorem fromDom_text_or_link (t : T) (s : Selection) (node : DomNode)
        (offset : Z) (x : ref) (o : Z) (w' : World T) :
  fromDom (Some node) offset (t, s) = Return (Some x, o) w' ->
  w' = (t, s) /\
  (Tree.type t x = ty_text \/ Tree.type t x = ty_link) /\
  (Tree.empty t x = true -> o = 0).
Proof.
  unfold fromDom. run.
  destruct (fromDomNode t (root s) node offset) as [e|p] eqn:E;
    [discriminate|].
  intros H. inversion H. subst p w'. clear H.
  split; [reflexivity|].
  revert offset E. induction node as [parent data|children IH|data]
    using DomNode_nested_ind; intros offset E.
  - simpl in E. destruct (root s) as [r|]; [|discriminate].
    destruct (Tree.walkTree t r parent) as [txt|]; [|discriminate].
    destruct (wmNodeType_eqb (Tree.type t txt) ty_text) eqn:E1;
      destruct (wmNodeType_eqb (Tree.type t txt) ty_link) eqn:E2;
      simpl in E; try discriminate;
      inversion E; subst txt;
      (split; [|destruct (Tree.empty t x); [reflexivity|discriminate]]);
      destruct (Tree.type t x); try discriminate; auto.
  - destruct children as [|c cs]; [discriminate|].
    assert (Hloop : forall l offset,
      Forall (fun node => forall offset,
                fromDomNode t (root s) node offset = inr (Some x, o) ->
                (Tree.type t x = ty_text \/ Tree.type t x = ty_link) /\
                (Tree.empty t x = true -> o = 0)) l ->
      (fix loop (cs : list DomNode) (offset : Z) : Exn + (option ref * Z) :=
         match cs with
         | [] => inr (None, offset)
         | child :: rest =>
             if isElementOrText child then
               let len := Z.of_nat (String.length (textContent child)) in
               if offset <=? len then fromDomNode t (root s) child offset
               else loop rest (offset - len)
             else loop rest offset
         end) l offset = inr (Some x, o) ->
      (Tree.type t x = ty_text \/ Tree.type t x = ty_link) /\
      (Tree.empty t x = true -> o = 0)).
    { clear. induction l as [|c cs IHl]; intros offset IH E; [discriminate|].
      inversion IH as [|c' cs' Hc Hcs]. subst c' cs'.
      destruct (isElementOrText c).
      - cbv zeta in E.
        destruct (offset <=? Z.of_nat (String.length (textContent c))).
        + exact (Hc offset E).
        + exact (IHl _ Hcs E).
      - exact (IHl _ Hcs E). }
    exact (Hloop (c :: cs) offset IH E).
  - discriminate.
Qed.

(** X9: on a selection that was never attached to a document tree,
    [query] facing a range that starts in a text node keeps both endpoints
    as they were: [fromDom] dereferences the missing root, the [TypeError]
    is swallowed, and only the [modified] flag is cleared. *)
Theorem query_before_attach (doc : Document) (sl : DomSelection) (r : DomRange)
        (parent : option string) (data : string) (t : T) (s : Selection) :
  root s = None ->
  getSelection doc = Gives (Some sl) ->
  0 < rangeCount sl ->
  getRangeAt0 sl = Gives r ->
  startContainer r = Some (DomText parent data) ->
  query (Some doc) (t, s) = Return RThis (t, unmarked s).
Proof.
  intros Hr Hs Hc Hg Hn.
  apply Z.gtb_lt in Hc.
  destruct s as [rt a ao b bo m st al]. simpl in Hr. subst rt.
  unfold query, fromDom, unmarked, mark. run.
  rewrite Hs. run. rewrite Hc, Hg. run.
  destruct (range_collapsed r); rewrite Hn; run;
    rewrite andb_false_r; reflexivity.
Qed.

(** X10: when the host document has no selection object or the selection
    has no range, [query] empties the selection: both nodes [null], both
    offsets 0, the [modified] flag cleared. *)
Theorem query_without_range (doc : Document) (t : T) (s : Selection) :
  getSelection doc = Gives None \/
  (exists sl, getSelection doc = Gives (Some sl) /\ rangeCount sl <= 0) ->
  query (Some doc) (t, s)
  = Return RThis
      (t, mkSelection (root s) None 0 None 0 false (stack s) (allocated s)).
Proof.
  intros [H|(sl & H & Hc)]; unfold query, setCursor, set, setStart, setEnd, mark;
    run; rewrite H; run.
  - reflexivity.
  - assert (E : (rangeCount sl >? 0) = false).
    { destruct (rangeCount sl >? 0) eqn:G; [|reflexivity].
      apply Z.gtb_lt in G. lia. }
    rewrite E. run. reflexivity.
Qed.

End Query.

(** ** move *)

Section Move.

Context {T : Type} {ops : Tree.Ops T}.
Variable fuel : nat.

#[local] Arguments resolveOfs : simpl never.

(** The first loop of [movePoint] is left with an offset that is not
    negative. *)
Lemma movePoint_back_nonneg (n : nat) (t : T) (node : ref) (offset : Z)
      (nd : ref) (o : Z) :
  movePoint_back n t node offset = Some (nd, o) -> 0 <= o.
Proof.
  revert node offset. induction n as [|n IH]; intros node offset; simpl.
  - destruct (offset <? 0) eqn:E; [discriminate|].
    intros H. inversion H. subst. apply Z.ltb_ge in E. exact E.
  - destruct (offset <? 0) eqn:E.
    + destruct (Tree.previousText t node true) as [prev|].
      * apply IH.
      * intros H. inversion H. lia.
    + intros H. inversion H. subst. apply Z.ltb_ge in E. exact E.
Qed.

(** The second loop keeps the offset from going negative and is left with
    an offset within the node. *)
Lemma movePoint_forth_bounds (n : nat) (t : T) (node : ref) (offset : Z)
      (nd : ref) (o : Z) :
  0 <= offset ->
  movePoint_forth n t node offset = Some (nd, o) ->
  0 <= o <= Z.of_nat (Tree.length t nd).
Proof.
  revert node offset. induction n as [|n IH]; intros node offset Hpos; simpl.
  - destruct (offset >? Z.of_nat (Tree.length t node)) eqn:E; [discriminate|].
    intros H. inversion H. subst.
    destruct (Z_le_gt_dec o (Z.of_nat (Tree.length t nd))) as [L|G]; [lia|].
    apply Z.gt_lt in G. apply Z.gtb_lt in G. congruence.
  - destruct (offset >? Z.of_nat (Tree.length t node)) eqn:E.
    + apply Z.gtb_lt in E.
      destruct (Tree.nextText t node true) as [next|].
      * apply IH. destruct (negb (Tree.siblings t next node)); lia.
      * intros H. inversion H. subst. lia.
    + intros H. inversion H. subst.
      destruct (Z_le_gt_dec o (Z.of_nat (Tree.length t nd))) as [L|G]; [lia|].
      apply Z.gt_lt in G. apply Z.gtb_lt in G. congruence.
Qed.

Lemma movePoint_bounds (t : T) (node : option ref) (offset delta : Z)
      (r : option ref) (o : Z) :
  movePoint fuel t node offset delta = Some (r, o) ->
  isSome r = isSome node /\ inBounds t r o.
Proof.
  unfold movePoint. destruct node as [node|].
  - destruct (movePoint_back fuel t node (offset + delta)) as [[n1 o1]|] eqn:B;
      [|discriminate].
    destruct (movePoint_forth fuel t n1 o1) as [[n2 o2]|] eqn:F;
      [|discriminate].
    intros H. inversion H. subst. split; [reflexivity|].
    intros n Hn. inversion Hn. subst.
    apply (movePoint_forth_bounds _ _ _ _ _ _ (movePoint_back_nonneg _ _ _ _ _ _ B) F).
  - intros H. inversion H. subst. split; [reflexivity|].
    intros n Hn. discriminate.
Qed.

(** X11: whatever the deltas, whenever [move] returns, each point it leaves
    lies within the text of its node -- the offset is between 0 and the
    length of the node -- and the tree is unchanged.  The start point is
    [null] exactly when it was.  With [deltaEnd] given, the end point is
    moved from the old end point and is [null] exactly when that was; with
    [deltaEnd] omitted the end point is the new start point, whatever the
    old end point was: the selection is a cursor, and a [null] start makes
    the end [null] too. *)
Theorem move_lands_in_bounds (deltaStart : Z) (deltaEnd : option Z)
        (t : T) (s : Selection) (r : Returned) (w' : World T) :
  move fuel deltaStart deltaEnd (t, s) = Return r w' ->
  fst w' = t /\
  inBounds t (start (snd w')) (startOfs (snd w')) /\
  inBounds t (end_ (snd w')) (endOfs (snd w')) /\
  isSome (start (snd w')) = isSome (start s) /\
  isSome (end_ (snd w'))
  = isSome (match deltaEnd with Some _ => end_ s | None => start s end) /\
  (deltaEnd = None -> isCursor (snd w')).
Proof.
  unfold move. run.
  destruct (movePoint fuel t (start s) (startOfs s) deltaStart)
    as [[a ao]|] eqn:Ea; [|discriminate].
  destruct (movePoint_bounds _ _ _ _ _ _ Ea) as [Sa Ba].
  assert (Hset : forall b bo, inBounds t b bo ->
            set a ao b bo (t, s)
            = Return RThis
                (t, mkSelection (root s) a ao b bo true (stack s) (allocated s))).
  { intros b bo Bb. unfold set, setStart, setEnd. run.
    assert (Ra : resolveOfs t a ao = ao).
    { destruct a as [n|]; [|reflexivity].
      apply resolveOfs_nonneg. apply (Ba n eq_refl). }
    assert (Rb : resolveOfs t b bo = bo).
    { destruct b as [n|]; [|reflexivity].
      apply resolveOfs_nonneg. apply (Bb n eq_refl). }
    rewrite Ra, Rb. reflexivity. }
  destruct deltaEnd as [d|].
  - run.
    destruct (movePoint fuel t (end_ s) (endOfs s) d) as [[b bo]|] eqn:Eb;
      [|discriminate].
    destruct (movePoint_bounds _ _ _ _ _ _ Eb) as [Sb Bb].
    run. rewrite (Hset b bo Bb). intros H. inversion H. subst. simpl.
    repeat apply conj; try assumption; [reflexivity|discriminate].
  - run. rewrite (Hset a ao Ba). intros H. inversion H. subst. simpl.
    repeat apply conj; try assumption; try reflexivity.
    intros _. split; reflexivity.
Qed.

(** A move that stays within the leaf shifts the offset, whatever the
    iteration bound. *)
Lemma move_within_leaf (t : T) (s : Selection) (a : ref) (delta : Z) :
  start s = Some a ->
  0 <= startOfs s + delta <= Z.of_nat (Tree.length t a) ->
  move fuel delta None (t, s)
  = Return RThis (t, cursorAt s a (startOfs s + delta)).
Proof.
  intros Hs H. unfold move, movePoint. run. rewrite Hs.
  assert (B : (startOfs s + delta <? 0) = false) by (apply Z.ltb_ge; lia).
  assert (F : (startOfs s + delta >? Z.of_nat (Tree.length t a)) = false).
  { destruct (_ >? _) eqn:G; [|reflexivity]. apply Z.gtb_lt in G. lia. }
  assert (Hb : movePoint_back fuel t a (startOfs s + delta)
               = Some (a, startOfs s + delta))
    by (destruct fuel; simpl; rewrite B; reflexivity).
  assert (Hf : movePoint_forth fuel t a (startOfs s + delta)
               = Some (a, startOfs s + delta))
    by (destruct fuel; simpl; rewrite F; reflexivity).
  rewrite Hb, Hf. run. unfold set, setStart, setEnd. run.
  rewrite !resolveOfs_nonneg by lia. reflexivity.
Qed.

(** What [set] makes of a point within its node. *)
Lemma set_cursor (t : T) (s : Selection) (a : ref) (o : Z) :
  0 <= o ->
  set (Some a) o (Some a) o (t, s) = Return RThis (t, cursorAt s a o).
Proof.
  intros H. unfold set, setStart, setEnd. run.
  rewrite !resolveOfs_nonneg by lia. reflexivity.
Qed.

Lemma movePoint_forth_stops (n : nat) (t : T) (a : ref) (o : Z) :
  o <= Z.of_nat (Tree.length t a) ->
  movePoint_forth n t a o = Some (a, o).
Proof.
  intros H.
  assert (F : (o >? Z.of_nat (Tree.length t a)) = false).
  { destruct (_ >? _) eqn:G; [|reflexivity]. apply Z.gtb_lt in G. lia. }
  destruct n; simpl; rewrite F; reflexivity.
Qed.

Lemma movePoint_back_stops (n : nat) (t : T) (a : ref) (o : Z) :
  0 <= o ->
  movePoint_back n t a o = Some (a, o).
Proof.
  intros H.
  assert (B : (o <? 0) = false) by (apply Z.ltb_ge; lia).
  destruct n; simpl; rewrite B; reflexivity.
Qed.

Lemma movePoint_back_step (n : nat) (t : T) (a : ref) (o : Z) :
  o < 0 ->
  movePoint_back (S n) t a o
  = match Tree.previousText t a true with
    | None => Some (a, 0)
    | Some prev =>
        movePoint_back n t prev
          ((if negb (Tree.siblings t prev a) then o + 1 else o)
           + Z.of_nat (Tree.length t prev))
    end.
Proof.
  intros H. apply Z.ltb_lt in H. simpl. rewrite H. reflexivity.
Qed.

Lemma movePoint_forth_step (n : nat) (t : T) (a : ref) (o : Z) :
  Z.of_nat (Tree.length t a) < o ->
  movePoint_forth (S n) t a o
  = match Tree.nextText t a true with
    | None => Some (a, Z.of_nat (Tree.length t a))
    | Some next =>
        movePoint_forth n t next
          ((if negb (Tree.siblings t next a) then o - 1 else o)
           - Z.of_nat (Tree.length t a))
    end.
Proof.
  intros H. apply Z.gtb_lt in H. simpl. rewrite H. reflexivity.
Qed.

#[local] Arguments movePoint_back : simpl never.
#[local] Arguments movePoint_forth : simpl never.

(** X12: [move] does not leave the text: moving back beyond offset 0 of a
    leaf with no leaf before it stops at offset 0, moving on beyond the end
    of a leaf with no leaf behind it stops at its length. *)
Theorem move_stops_at_document_ends (t : T) (s : Selection) (a : ref)
        (delta : Z) :
  (1 <= fuel)%nat ->
  start s = Some a ->
  (startOfs s + delta < 0 /\ Tree.previousText t a true = None) \/
  (Z.of_nat (Tree.length t a) < startOfs s + delta /\
   Tree.nextText t a true = None) ->
  move fuel delta None (t, s)
  = Return RThis
      (t, cursorAt s a (if startOfs s + delta <? 0 then 0
                        else Z.of_nat (Tree.length t a))).
Proof.
  intros Hf Hs H. destruct fuel as [|n]; [lia|].
  unfold move, movePoint. run. rewrite Hs.
  destruct H as [[Hlt Hp]|[Hgt Hn]].
  - assert (B : (startOfs s + delta <? 0) = true) by (apply Z.ltb_lt; lia).
    rewrite B, movePoint_back_step, Hp by lia.
    rewrite movePoint_forth_stops by lia. run.
    apply set_cursor. lia.
  - assert (B : (startOfs s + delta <? 0) = false) by (apply Z.ltb_ge; lia).
    rewrite B, movePoint_back_stops by lia.
    rewrite movePoint_forth_step, Hn by lia.
    run. apply set_cursor. lia.
Qed.

(** What [move] makes of the point [movePoint] gives for the start. *)
Lemma move_to (t : T) (s : Selection) (x : ref) (o delta : Z) :
  movePoint fuel t (start s) (startOfs s) delta = Some (Some x, o) ->
  0 <= o ->
  move fuel delta None (t, s) = Return RThis (t, cursorAt s x o).
Proof.
  intros H Ho. unfold move. run. rewrite H. run. apply set_cursor. exact Ho.
Qed.

(** One turn of the second loop of [movePoint]: into the leaf behind. *)
Lemma movePoint_next (t : T) (A B : ref) (ofs delta : Z) :
  (1 <= fuel)%nat ->
  Tree.nextText t A true = Some B ->
  let k := if Tree.siblings t B A then 0 else 1 in
  Z.of_nat (Tree.length t A) < ofs + delta ->
  ofs + delta <= Z.of_nat (Tree.length t A) + k + Z.of_nat (Tree.length t B) ->
  movePoint fuel t (Some A) ofs delta
  = Some (Some B, ofs + delta - k - Z.of_nat (Tree.length t A)).
Proof.
  intros Hf Hn k Hlo Hhi. destruct fuel as [|n]; [lia|].
  unfold movePoint.
  rewrite movePoint_back_stops by lia.
  rewrite movePoint_forth_step, Hn by lia.
  assert (E : (if negb (Tree.siblings t B A) then ofs + delta - 1
               else ofs + delta) - Z.of_nat (Tree.length t A)
              = ofs + delta - k - Z.of_nat (Tree.length t A)).
  { unfold k. destruct (Tree.siblings t B A); simpl; lia. }
  rewrite E.
  assert (Hk : 0 <= k <= 1) by (unfold k; destruct (Tree.siblings t B A); lia).
  rewrite movePoint_forth_stops by lia. reflexivity.
Qed.

(** One turn of the first loop of [movePoint]: into the leaf before. *)
Lemma movePoint_previous (t : T) (A P : ref) (ofs delta : Z) :
  (1 <= fuel)%nat ->
  Tree.previousText t A true = Some P ->
  let k := if Tree.siblings t P A then 0 else 1 in
  ofs + delta < 0 ->
  - (k + Z.of_nat (Tree.length t P)) <= ofs + delta ->
  movePoint fuel t (Some A) ofs delta
  = Some (Some P, ofs + delta + k + Z.of_nat (Tree.length t P)).
Proof.
  intros Hf Hp k Hlo Hhi. destruct fuel as [|n]; [lia|].
  unfold movePoint.
  rewrite movePoint_back_step, Hp by lia.
  assert (E : (if negb (Tree.siblings t P A) then ofs + delta + 1
               else ofs + delta) + Z.of_nat (Tree.length t P)
              = ofs + delta + k + Z.of_nat (Tree.length t P)).
  { unfold k. destruct (Tree.siblings t P A); simpl; lia. }
  rewrite E.
  assert (Hk : 0 <= k <= 1) by (unfold k; destruct (Tree.siblings t P A); lia).
  rewrite movePoint_back_stops by lia.
  rewrite movePoint_forth_stops
    by (unfold k in *; destruct (Tree.siblings t P A); lia).
  reflexivity.
Qed.

(** X13: a backward move that crosses the start of a leaf lands in the
    leaf before it; the units moved are counted from the end of that leaf,
    and one of them is consumed by the boundary exactly when the two leaves
    are not siblings. *)
Theorem move_into_previous_leaf (t : T) (s : Selection) (A P : ref)
        (delta : Z) :
  (1 <= fuel)%nat ->
  start s = Some A ->
  Tree.previousText t A true = Some P ->
  let k := if Tree.siblings t P A then 0 else 1 in
  startOfs s + delta < 0 ->
  - (k + Z.of_nat (Tree.length t P)) <= startOfs s + delta ->
  move fuel delta None (t, s)
  = Return RThis
      (t, cursorAt s P (startOfs s + delta + k + Z.of_nat (Tree.length t P))).
Proof.
  intros Hf Hs Hp k Hlo Hhi.
  assert (Hk : 0 <= k <= 1) by (unfold k; destruct (Tree.siblings t P A); lia).
  apply move_to; [|lia].
  rewrite Hs. apply movePoint_previous; assumption.
Qed.

(** X14: [move(delta)] into the leaf that follows, then [move(-delta)],
    takes a cursor back to where it was -- provided it crossed a container
    boundary or did not start at the very end of its leaf.  (From the end of
    a leaf, within one container, the way back stops at offset 0 of the
    sibling.) *)
Theorem move_forth_and_back (t : T) (s : Selection) (A B : ref) (delta : Z) :
  (1 <= fuel)%nat ->
  start s = Some A ->
  Tree.nextText t A true = Some B ->
  Tree.previousText t B true = Some A ->
  Tree.siblings t A B = Tree.siblings t B A ->
  let k := if Tree.siblings t B A then 0 else 1 in
  0 <= startOfs s < Z.of_nat (Tree.length t A) + k ->
  Z.of_nat (Tree.length t A) < startOfs s + delta ->
  startOfs s + delta <= Z.of_nat (Tree.length t A) + k + Z.of_nat (Tree.length t B) ->
  bind (move fuel delta None) (fun _ => move fuel (- delta) None) (t, s)
  = Return RThis (t, cursorAt s A (startOfs s)).
Proof.
  intros Hf Hs Hn Hp Hsib k Hso Hlo Hhi.
  assert (Hk : 0 <= k <= 1) by (unfold k; destruct (Tree.siblings t B A); lia).
  set (o := startOfs s + delta - k - Z.of_nat (Tree.length t A)).
  assert (Forth : move fuel delta None (t, s) = Return RThis (t, cursorAt s B o)).
  { apply move_to; [|unfold o; lia].
    rewrite Hs. apply movePoint_next; assumption. }
  assert (Back : move fuel (- delta) None (t, cursorAt s B o)
                 = Return RThis (t, cursorAt s A (startOfs s))).
  { replace (cursorAt s A (startOfs s))
      with (cursorAt (cursorAt s B o) A
              (o + - delta + k + Z.of_nat (Tree.length t A)))
      by (unfold cursorAt, o; simpl; do 3 f_equal; lia).
    apply move_to; [|unfold o; lia].
    simpl start. simpl startOfs.
    pose proof (movePoint_previous t B A o (- delta) Hf Hp) as M.
    rewrite Hsib in M. apply M; unfold o; fold k; lia. }
  unfold bind. rewrite Forth. exact Back.
Qed.

End Move.

(** ** save, restore and the stack *)

Section SaveRestore.

Context {T : Type} {ops : Tree.Ops T}.
Variable fuel : nat.

#[local] Arguments resolveOfs : simpl never.
#[local] Arguments relPoint : simpl never.

(** The loop of [relPoint] on an offset within the text of the children:
    it stops at a child, and the offset it leaves is the one given less the
    lengths of the children before. *)
Lemma relPoint_loop_within (t : T) (l : list ref) (ofs : Z) :
  l <> [] ->
  ofs <= lengths t l ->
  exists pre x post o,
    l = pre ++ x :: post /\
    relPoint_loop t l ofs = (Some x, o) /\
    ofs = o + lengths t pre /\
    o <= Z.of_nat (Tree.length t x) /\
    (0 <= ofs -> 0 <= o).
Proof.
  revert ofs. induction l as [|c l IH]; intros ofs Hne Hle; [congruence|].
  simpl. destruct (ofs <=? Z.of_nat (Tree.length t c)) eqn:E.
  - apply Z.leb_le in E. exists [], c, l, ofs. simpl.
    repeat split; try lia.
  - apply Z.leb_gt in E. simpl in Hle.
    destruct l as [|c' l'].
    + simpl in Hle. lia.
    + destruct (IH (ofs - Z.of_nat (Tree.length t c))) as
        (pre & x & post & o & Hl & Hr & Ho & Hx & Hpos);
        [discriminate|simpl in *; lia|].
      exists (c :: pre), x, post, o.
      split; [simpl; f_equal; exact Hl|].
      split; [exact Hr|].
      simpl. repeat split; try assumption; lia.
Qed.

(** The loop of [relPoint] on an offset beyond the text of the children. *)
Lemma relPoint_loop_beyond (t : T) (l : list ref) (ofs : Z) :
  lengths t l < ofs -> relPoint_loop t l ofs = (None, 0).
Proof.
  revert ofs. induction l as [|c l IH]; intros ofs H; simpl; [reflexivity|].
  simpl in H. pose proof (lengths_nonneg t l) as Hl.
  assert (E : (ofs <=? Z.of_nat (Tree.length t c)) = false)
    by (apply Z.leb_gt; lia).
  rewrite E. apply IH. lia.
Qed.

(** X15: take a container whose children are distinct leaves of the tree,
    and an absolute offset that does not exceed the length of its text.
    When the container has no child, [relPoint] finds no point: it answers
    [[null, 0]].  When it has one, [relPoint] resolves the offset to a child
    and an offset within that child, and [absPoint] maps that point back to
    the container and the absolute offset. *)
Theorem relPoint_absPoint (t : T) (s : Selection) (c : ref) (ofs : Z) :
  NoDup (Tree.content t c) ->
  (forall x, In x (Tree.content t c) ->
             Tree.removed t x = false /\ Tree.container t x = Some c) ->
  ofs <= lengths t (Tree.content t c) ->
  (Tree.content t c = [] -> relPoint t (Some c) ofs = (None, 0)) /\
  (Tree.content t c <> [] ->
   exists x o,
     relPoint t (Some c) ofs = (Some x, o) /\
     In x (Tree.content t c) /\
     o <= Z.of_nat (Tree.length t x) /\
     (0 <= ofs -> 0 <= o) /\
     absPoint (Some x) o (t, s) = Return (Some c, ofs) (t, s)).
Proof.
  intros Hnd Hch Hle. split.
  { intros E. unfold relPoint. rewrite E. reflexivity. }
  intros Hne.
  destruct (relPoint_loop_within t _ ofs Hne Hle)
    as (pre & x & post & o & Hl & Hr & Ho & Hx & Hpos).
  exists x, o.
  assert (Hin : In x (Tree.content t c))
    by (rewrite Hl; apply in_or_app; right; left; reflexivity).
  destruct (Hch x Hin) as [Hrem Hcont].
  assert (Hnot : ~ In x pre).
  { rewrite Hl in Hnd. apply NoDup_remove_2 in Hnd.
    intros H. apply Hnd. apply in_or_app. left. exact H. }
  split; [unfold relPoint; exact Hr|].
  repeat split; try assumption.
  unfold absPoint. run. rewrite Hrem, Hcont. run.
  rewrite Hl, (absPoint_loop_found t x pre post o Hnot), Hcont, Ho.
  reflexivity.
Qed.

(** X16: both saved points have a container.  When the container of the
    saved start point is still in the tree but now holds less text than the
    saved offset, [restore()] returns with the start point [null] at offset
    0 -- an invalid selection -- and the two saved points popped, whether
    the container of the saved end point is still in the tree or not. *)
Theorem restore_beyond_text (t : T) (s : Selection) (ps pe : AbsPoint)
        (rest : list AbsPoint) (cs ce : ref) :
  stack s = pe :: ps :: rest ->
  ap_node ps = Some cs -> ap_node pe = Some ce ->
  Tree.removed t cs = false ->
  lengths t (Tree.content t cs) < ap_ofs ps ->
  exists s',
    restore (t, s) = Return RThis (t, s') /\
    start s' = None /\ startOfs s' = 0 /\
    valid s' = false /\ stack s' = rest.
Proof.
  intros Hst Hps Hpe Hrs Hlen.
  assert (R : relPoint t (Some cs) (ap_ofs ps) = (None, 0))
    by (unfold relPoint; apply relPoint_loop_beyond; exact Hlen).
  unfold restore. run. rewrite Hst. unfold setStack. run.
  rewrite Hps, Hpe. run. rewrite Hrs.
  destruct (Tree.removed t ce).
  { unfold set, setStart, setEnd. run.
    eexists. split; [reflexivity|]. repeat split. }
  destruct (Nat.eqb (ap_id ps) (ap_id pe)).
  - unfold setCursor, set, setStart, setEnd. run. rewrite R.
    eexists. split; [reflexivity|]. repeat split.
  - unfold setStart, setEnd. run. rewrite R.
    eexists. split; [reflexivity|]. repeat split.
Qed.

(** What [save()] leaves when it returns: the stack two points higher,
    nothing else changed; the two points are one tuple when the selection
    is collapsed, and the first holds what [absPoint] makes of the start
    point. *)
Lemma save_returns (t : T) (s : Selection) (r : Returned) (w' : World T) :
  save (t, s) = Return r w' ->
  exists ps pe al,
    w' = (t, mkSelection (root s) (start s) (startOfs s) (end_ s) (endOfs s)
                         (modified s) (pe :: ps :: stack s) al) /\
    (collapsed s = true -> pe = ps) /\
    absPoint (start s) (startOfs s) (t, s)
    = Return (ap_node ps, ap_ofs ps) (t, s).
Proof.
  unfold save. unfold bind at 1. unfold getSel at 1. cbv beta iota.
  simpl snd. unfold bind at 1.
  assert (Hfr : forall node ofs (w : World T),
            match absPoint node ofs w with
            | Return _ w1 | Throw _ w1 => w1 = w
            | OutOfFuel => True
            end).
  { intros node ofs [t0 s0]. unfold absPoint. run.
    destruct node as [n|]; [|reflexivity].
    destruct (Tree.removed t0 n); [reflexivity|].
    destruct (Tree.container t0 n); reflexivity. }
  pose proof (Hfr (start s) (startOfs s) (t, s)) as F1.
  destruct (absPoint (start s) (startOfs s) (t, s)) as [p w1|e w1|] eqn:Ea;
    try discriminate.
  subst w1. unfold setStack. run.
  destruct (collapsed s) eqn:Hc.
  - run. intros H. inversion H. subst.
    eexists. eexists. eexists. split; [reflexivity|].
    split; [reflexivity|]. simpl. destruct p; reflexivity.
  - run.
    match goal with
    | |- context [absPoint ?n ?o ?w] =>
        pose proof (Hfr n o w) as F2; destruct (absPoint n o w) as [q w2|e w2|]
    end; try discriminate.
    subst w2. run. intros H. inversion H. subst.
    eexists. eexists. eexists. split; [reflexivity|].
    split; [discriminate|]. simpl. destruct p; reflexivity.
Qed.

(** X17: a collapsed selection on a leaf of the tree -- not removed, a
    child of its container -- is stored by [save()], which returns; whatever
    happens to the tree afterwards, the [restore()] that pops the two points
    returns, with the tree as it finds it, a collapsed selection -- one
    point, or none -- and the stack as it was before [save()]. *)
Theorem restore_keeps_cursor (t : T) (s : Selection) (a c : ref) :
  collapsed s = true ->
  start s = Some a ->
  attachedTo t a c ->
  exists s1,
    save (t, s) = Return RThis (t, s1) /\
    forall (t2 : T) (s2 : Selection),
      stack s2 = stack s1 ->
      exists s3,
        restore (t2, s2) = Return RThis (t2, s3) /\
        isCursor s3 /\ stack s3 = stack s.
Proof.
  intros Hc Hs (Hr & Hcn & Hin).
  pose proof (absPoint_loop_in t a (Tree.content t c) (startOfs s) Hin) as E.
  destruct (absPoint_loop t a (Tree.content t c) (startOfs s)) as [x y] eqn:L.
  simpl in E. subst x.
  eexists. split.
  - unfold save. unfold bind at 1. unfold getSel at 1. cbv beta iota.
    simpl snd. unfold bind at 1. unfold absPoint. run.
    rewrite Hs, Hr, Hcn. run. rewrite L, Hcn. unfold setStack. run.
    rewrite Hc. run. reflexivity.
  - intros t2 s2 Hst. simpl in Hst.
    unfold restore. run. rewrite Hst. unfold setStack. run.
    destruct (Tree.removed t2 c).
    + unfold set, setStart, setEnd. run.
      eexists. split; [reflexivity|]. split; [split|]; reflexivity.
    + rewrite Nat.eqb_refl. unfold setCursor, set, setStart, setEnd. run.
      eexists. split; [reflexivity|]. split; [split|]; reflexivity.
Qed.

(** X18: when the start point is [null] or its node is off the tree,
    [save()] stores a point with no container, and the [restore()] that
    pops it throws a [TypeError] -- it reads [removed] of [null] -- leaving
    the endpoints as they are and the two points popped. *)
Theorem restore_without_start_throws (t : T) (s : Selection) (r : Returned)
        (t1 : T) (s1 : Selection) :
  (forall a, start s = Some a -> Tree.removed t a = true) ->
  save (t, s) = Return r (t1, s1) ->
  forall (t2 : T) (s2 : Selection),
    stack s2 = stack s1 ->
    restore (t2, s2)
    = Throw TypeError
        (t2, mkSelection (root s2) (start s2) (startOfs s2) (end_ s2) (endOfs s2)
                         (modified s2) (stack s) (allocated s2)).
Proof.
  intros Hrem Hsave t2 s2 Hst.
  destruct (save_returns _ _ _ _ Hsave) as (ps & pe & al & Hw & _ & Ha).
  inversion Hw. subst t1 s1. simpl in Hst.
  assert (Hnone : ap_node ps = None).
  { revert Ha. unfold absPoint. run.
    destruct (start s) as [a|]; run.
    - rewrite (Hrem a eq_refl). intros H. inversion H. reflexivity.
    - intros H. inversion H. reflexivity. }
  unfold restore. run. rewrite Hst. unfold setStack. run.
  rewrite Hnone. reflexivity.
Qed.

(** What [restore()] leaves of the stack when it returns. *)
Lemma restore_pops (t : T) (s : Selection) (pe ps : AbsPoint)
      (rest : list AbsPoint) (r : Returned) (w' : World T) :
  stack s = pe :: ps :: rest ->
  restore (t, s) = Return r w' ->
  fst w' = t /\ stack (snd w') = rest /\ root (snd w') = root s.
Proof.
  intros Hst. unfold restore, setCursor, set, setStart, setEnd, setStack.
  run. rewrite Hst. run.
  repeat (branch; run); intros H; inversion H; subst; repeat split.
Qed.

Lemma trim_keeps_stack (t : T) (s : Selection) (r : Returned) (w' : World T) :
  trim (t, s) = Return r w' ->
  fst w' = t /\ stack (snd w') = stack s /\ root (snd w') = root s.
Proof.
  unfold trim, setStart, setEnd. run.
  repeat (branch; run); intros H; inversion H; subst; repeat split.
Qed.

(** X19: whenever [defrag()] returns, the stack of saved points and the
    root are as they were: the [restore()] in it pops exactly what its
    [save()] pushed. *)
Theorem defrag_balances_stack (t : T) (s : Selection) (r : Returned)
        (w' : World T) :
  defrag fuel (t, s) = Return r w' ->
  stack (snd w') = stack s /\ root (snd w') = root s.
Proof.
  destruct (valid s) eqn:Hv.
  2:{ unfold defrag. run. rewrite Hv. simpl. intros H. inversion H.
      split; reflexivity. }
  rewrite (defrag_valid fuel t s Hv). intros H.
  apply bind_returns in H. destruct H as (r1 & w1 & Hsave & H).
  destruct (save_returns _ _ _ _ Hsave) as (ps & pe & al & -> & _ & _).
  apply bind_returns in H. destruct H as (r2 & [t2 s2] & Hcont & H).
  set (s1 := mkSelection (root s) (start s) (startOfs s) (end_ s)
                         (endOfs s) (modified s) (pe :: ps :: stack s) al)
    in *.
  assert (Hp : samePoints s1 s2).
  { pose proof (points_containers fuel
                  (fun c => mutate (fun t => Tree.defrag t c))
                  (fun x s0 => selection_mutate (samePoints s0) _) s1 (t, s1)) as P.
    simpl in P. rewrite Hcont in P. apply P. repeat split. }
  destruct Hp as (Hroot & _ & _ & _ & _ & Hstack & _). simpl in Hroot, Hstack.
  apply bind_returns in H. destruct H as (r3 & [t3 s3] & Hrest & H).
  destruct (restore_pops _ _ _ _ _ _ _ Hstack Hrest) as (_ & Hst3 & Hrt3).
  simpl in Hst3, Hrt3.
  apply bind_returns in H. destruct H as (r4 & [t4 s4] & Htrim & H).
  destruct (trim_keeps_stack _ _ _ _ Htrim) as (_ & Hst4 & Hrt4).
  simpl in Hst4, Hrt4.
  inversion H. subst. simpl. split; congruence.
Qed.

End SaveRestore.

(** ** Editing *)

Section Editing.

Context {T : Type} {ops : Tree.Ops T}.
Variable fuel : nat.

#[local] Arguments resolveOfs : simpl never.
#[local] Arguments relPoint : simpl never.
#[local] Arguments delete : simpl never.

Lemma valid_points (s : Selection) :
  valid s = true -> exists a b, start s = Some a /\ end_ s = Some b.
Proof.
  unfold valid. destruct (start s) as [a|]; [|discriminate].
  destruct (end_ s) as [b|]; [|discriminate].
  intros _. exists a, b. split; reflexivity.
Qed.

(** [delete()] on a valid selection. *)
Lemma delete_on_valid (t : T) (s : Selection) :
  valid s = true ->
  exists t' s',
    delete (t, s) = Return RThis (t', s') /\
    root s' = root s /\ stack s' = stack s /\
    collapsed s' = true /\ modified s' = true.
Proof.
  intros Hv.
  destruct (valid_points s Hv) as (a & b & Hs & He).
  destruct s as [rt a0 ao b0 bo m st al]. simpl in Hs, He. subst a0 b0.
  clear Hv.
  unfold delete, collapse, setCursor, set, setStart, setEnd, setStartNode,
    setEndNode, orElse.
  run.
  repeat (branch; run);
    eexists; eexists; (split; [reflexivity|]); simpl;
    (split; [reflexivity|]); (split; [reflexivity|]);
    unfold collapsed, single, valid; simpl;
    rewrite ?Nat.eqb_refl, ?Z.eqb_refl; split; reflexivity.
Qed.

(** X20: [delete()] never throws: it returns the selection, and on a
    valid selection it leaves a collapsed cursor marked as modified; the
    root and the stack are untouched. *)
Theorem delete_leaves_cursor (t : T) (s : Selection) :
  exists t' s',
    delete (t, s) = Return RThis (t', s') /\
    root s' = root s /\ stack s' = stack s /\
    (valid s = true ->
     collapsed s' = true /\ modified s' = true).
Proof.
  destruct (valid s) eqn:Hv.
  - destruct (delete_on_valid t s Hv) as (t' & s' & Hd & Hr & Hst & Hc & Hm).
    exists t', s'. repeat split; assumption.
  - exists t, s. unfold delete. run. rewrite Hv. simpl.
    repeat split; discriminate.
Qed.

Lemma resolveOfs_zero (t : T) (node : option ref) : resolveOfs t node 0 = 0.
Proof. destruct node; reflexivity. Qed.

Lemma resolveOfs_last (t : T) (n : ref) :
  resolveOfs t (Some n) (-1) = Z.of_nat (Tree.length t n).
Proof. reflexivity. Qed.

(** X21: on a valid selection [split()] returns, marked as modified, with
    the start offset 0 and -- when the tree's [split] handed back both nodes
    -- the end offset at the length of the end node: the selection covers
    whole nodes. *)
Theorem split_covers_whole_nodes (t : T) (s : Selection) :
  valid s = true ->
  exists t' s',
    split (t, s) = Return RThis (t', s') /\
    modified s' = true /\
    startOfs s' = 0 /\
    (valid s' = true -> whole t' s' = true).
Proof.
  intros Hv. destruct (valid_points s Hv) as (a & b & Hs & He).
  destruct s as [rt a0 ao b0 bo m st al]. simpl in Hs, He. subst a0 b0.
  clear Hv.
  unfold split, set, setStart, setEnd. run.
  repeat (branch; run);
    rewrite ?resolveOfs_zero;
    eexists; eexists; (split; [reflexivity|]); simpl;
    (split; [reflexivity|]); (split; [reflexivity|]);
    unfold whole, valid; simpl;
    repeat match goal with
           | |- context [match ?x with _ => _ end] => destruct x
           end;
    simpl; try discriminate;
    rewrite ?resolveOfs_last, ?Z.eqb_refl, ?andb_true_r, ?andb_false_r;
    trivial.
Qed.

Lemma collapsed_valid (s : Selection) : collapsed s = true -> valid s = true.
Proof.
  unfold collapsed, single. intros H.
  apply andb_prop in H. destruct H as [H _].
  apply andb_prop in H. destruct H as [H _]. exact H.
Qed.

(** X22: on a valid selection that is not collapsed, [insert(char)] is
    [delete()] followed by [insert(char)], and [break(newline)] is [delete()]
    followed by [break(newline)]. *)
Theorem editing_a_range_deletes_first (t : T) (s : Selection) :
  valid s = true -> collapsed s = false ->
  (forall char,
     insert fuel char (t, s) = bind delete (fun _ => insert fuel char) (t, s)) /\
  (forall newline,
     break fuel newline (t, s)
     = bind delete (fun _ => break fuel newline) (t, s)).
Proof.
  intros Hv Hc.
  destruct (delete_on_valid t s Hv) as (t' & s' & Hd & _ & _ & Hc' & _).
  pose proof (collapsed_valid _ Hc') as Hv'.
  split; intros x.
  - assert (R : bind delete (fun _ => insert fuel x) (t, s)
                = insert fuel x (t', s'))
      by (unfold bind; rewrite Hd; reflexivity).
    rewrite R. unfold insert. run. rewrite Hv, Hc. simpl negb. run.
    rewrite Hd. run. rewrite Hv', Hc'. reflexivity.
  - assert (R : bind delete (fun _ => break fuel x) (t, s)
                = break fuel x (t', s'))
      by (unfold bind; rewrite Hd; reflexivity).
    rewrite R. unfold break. run. rewrite Hv, Hc. simpl negb. run.
    rewrite Hd. run. rewrite Hv', Hc'. reflexivity.
Qed.

(** X23: [break] inserts a newline character, exactly as [insert] of that
    character does, when it is asked for a soft break on a cursor that is not
    at the trailing edge of a link, and -- asked or not -- on a cursor inside
    a link: a link is never split into two containers. *)
Theorem break_as_newline (t : T) (s : Selection) (a : ref) (newline : bool) :
  collapsed s = true ->
  start s = Some a ->
  (newline = true /\
   (Tree.type t a <> ty_link \/ startOfs s <> Z.of_nat (Tree.length t a))) \/
  (Tree.type t a = ty_link /\ startOfs s < Z.of_nat (Tree.length t a)) ->
  break fuel newline (t, s) = insert fuel newlineChar (t, s).
Proof.
  intros Hc Hs Hcase. pose proof (collapsed_valid _ Hc) as Hv.
  assert (E : wmNodeType_eqb (Tree.type t a) ty_link &&
              (startOfs s =? Z.of_nat (Tree.length t a)) = false).
  { destruct Hcase as [[_ [H|H]]|[_ H]].
    - destruct (Tree.type t a); try reflexivity. congruence.
    - apply Z.eqb_neq in H. rewrite H. apply andb_false_r.
    - assert (N : startOfs s <> Z.of_nat (Tree.length t a)) by lia.
      apply Z.eqb_neq in N. rewrite N. apply andb_false_r. }
  assert (F : (if newline then true
               else wmNodeType_eqb (Tree.type t a) ty_link &&
                    (startOfs s <? Z.of_nat (Tree.length t a))) = true).
  { destruct Hcase as [[-> _]|[Hty Hlt]]; [reflexivity|].
    destruct newline; [reflexivity|].
    rewrite Hty. apply Z.ltb_lt in Hlt. rewrite Hlt. reflexivity. }
  unfold break, insert. run. rewrite Hv, Hc. run. rewrite Hs. run.
  rewrite E. run. rewrite Hs.
  destruct newline; run; [reflexivity|].
  simpl in F. rewrite F. reflexivity.
Qed.

(** X24: typing advances the cursor by what was typed: on a cursor that is
    not at the trailing edge of a link, [insert(char)] writes the text into
    the leaf at the cursor and leaves the cursor behind it, in the same
    leaf.  The tree's [insert] is taken to make the leaf long enough to hold
    the text. *)
Theorem insert_advances_cursor (t : T) (s : Selection) (a : ref)
        (char : string) :
  collapsed s = true ->
  start s = Some a ->
  0 <= startOfs s ->
  Tree.type t a <> ty_link \/ startOfs s <> Z.of_nat (Tree.length t a) ->
  startOfs s + Z.of_nat (String.length char)
  <= Z.of_nat (Tree.length (Tree.insert t a char (startOfs s)) a) ->
  insert fuel char (t, s)
  = Return RThis
      (Tree.insert t a char (startOfs s),
       cursorAt s a (startOfs s + Z.of_nat (String.length char))).
Proof.
  intros Hc Hs Hpos Hedge Hlen. pose proof (collapsed_valid _ Hc) as Hv.
  assert (E : wmNodeType_eqb (Tree.type t a) ty_link &&
              (startOfs s =? Z.of_nat (Tree.length t a)) = false).
  { destruct Hedge as [H|H].
    - destruct (Tree.type t a); try reflexivity. congruence.
    - apply Z.eqb_neq in H. rewrite H. apply andb_false_r. }
  unfold insert. run. rewrite Hv, Hc. run. rewrite Hs. run.
  rewrite E. run. rewrite Hs. run.
  apply move_within_leaf; [exact Hs|lia].
Qed.

(** X25: [trim()] on a cursor at offset 0 of a leaf that is not empty and
    has a leaf before it moves the end point, and only the end point, to the
    end of that leaf: the selection is no longer collapsed, and it runs
    backwards when the leaf before comes first in document order. *)
Theorem trim_cursor_at_leaf_start (t : T) (s : Selection) (a p : ref) :
  start s = Some a -> end_ s = Some a ->
  startOfs s = 0 -> endOfs s = 0 ->
  Tree.previousText t a true = Some p ->
  p <> a ->
  (0 < Tree.length t a)%nat ->
  let s' :=
    mkSelection (root s) (Some a) 0 (Some p) (Z.of_nat (Tree.length t p))
                true (stack s) (allocated s) in
  collapsed s = true /\
  trim (t, s) = Return RThis (t, s') /\
  collapsed s' = false /\
  (0 < Tree.compare t a p -> reversed t s' = true).
Proof.
  intros Hs He Hso Heo Hp Hne Hlen. cbv zeta.
  destruct s as [rt a0 ao b0 bo m st al]. simpl in *. subst.
  assert (Hap : Nat.eqb a p = false) by (apply Nat.eqb_neq; congruence).
  repeat apply conj.
  - unfold collapsed, single, valid. simpl.
    rewrite Nat.eqb_refl. reflexivity.
  - unfold trim, setEnd, setStart. run. rewrite Hp. run.
    unfold collapsed, single, valid. simpl. rewrite Hap. simpl.
    destruct (Tree.length t a); [lia|]. reflexivity.
  - unfold collapsed, single, valid. simpl. rewrite Hap. reflexivity.
  - intros Hcmp. unfold reversed. simpl. rewrite Hap. simpl.
    apply Z.gtb_lt. lia.
Qed.

(** X26: [belongsTo(type)] does not depend on the direction of the
    selection: with the two points exchanged it gives the same answer, or
    throws the same [TypeError], for every node type. *)
Theorem belongsTo_either_direction (t : T) (s : Selection) (type : wmNodeType) :
  belongsTo t (swapped s) type = belongsTo t s type.
Proof.
  destruct s as [rt a ao b bo m st al].
  unfold belongsTo, swapped, contained, single, valid. simpl.
  destruct a as [a|], b as [b|]; try reflexivity. simpl.
  rewrite (Nat.eqb_sym b a).
  destruct (Nat.eqb a b) eqn:E.
  - apply Nat.eqb_eq in E. subst b. reflexivity.
  - destruct type; try reflexivity; simpl.
    + destruct (Tree.climb t a [ty_blockquote]) as [x|],
               (Tree.climb t b [ty_blockquote]) as [y|]; simpl;
        try reflexivity. rewrite Nat.eqb_sym. reflexivity.
    + destruct (Tree.climb t a [ty_bulleted]) as [x|],
               (Tree.climb t b [ty_bulleted]) as [y|]; simpl;
        try reflexivity. rewrite Nat.eqb_sym. reflexivity.
    + destruct (Tree.climb t a [ty_numbered]) as [x|],
               (Tree.climb t b [ty_numbered]) as [y|]; simpl;
        try reflexivity. rewrite Nat.eqb_sym. reflexivity.
    + destruct (Tree.container t a) as [x|],
               (Tree.container t b) as [y|]; simpl; try reflexivity.
      rewrite (Nat.eqb_sym y x).
      destruct (Nat.eqb x y) eqn:Exy; [|reflexivity].
      apply Nat.eqb_eq in Exy. subst y. reflexivity.
    + destruct (Tree.climb t a [ty_table]) as [x|],
               (Tree.climb t b [ty_table]) as [y|]; simpl;
        try reflexivity. rewrite Nat.eqb_sym. reflexivity.
    + destruct (Tree.climb t a [ty_row]) as [x|],
               (Tree.climb t b [ty_row]) as [y|]; simpl;
        try reflexivity. rewrite Nat.eqb_sym. reflexivity.
    + destruct (Tree.container t a) as [x|],
               (Tree.container t b) as [y|]; simpl; try reflexivity.
      rewrite (Nat.eqb_sym y x).
      destruct (Nat.eqb x y) eqn:Exy; [|reflexivity].
      apply Nat.eqb_eq in Exy. subst y. reflexivity.
Qed.

(** X27: [sort()] is idempotent when [compare] is the document order it is
    meant to be ([y] does not come after [x] when [x] comes after [y]): a
    second call right after the first changes nothing. *)
Theorem sort_idempotent (t : T) (s : Selection) :
  (forall x y, Tree.compare t x y > 0 -> Tree.compare t y x <= 0) ->
  bind sort (fun _ => sort) (t, s) = sort (t, s).
Proof.
  intros Hanti.
  assert (Hfix : forall s0, reversed t s0 = false ->
                 sort (t, s0) = Return RThis (t, s0)).
  { intros s0 H. unfold sort. run. rewrite H. run. destruct s0; reflexivity. }
  destruct (reversed t s) eqn:Hrev.
  - assert (S1 : sort (t, s) = Return RThis (t, swapped s))
      by (unfold sort; run; rewrite Hrev; reflexivity).
    unfold bind. rewrite S1. apply Hfix.
    unfold reversed in *. unfold swapped. simpl.
    destruct (start s) as [a|]; [|discriminate].
    destruct (end_ s) as [b|]; [|discriminate].
    apply orb_prop in Hrev. apply orb_false_intro.
    + destruct (Nat.eqb b a) eqn:E; [|reflexivity]. simpl.
      apply Nat.eqb_eq in E. subst b.
      destruct Hrev as [H|H].
      * apply andb_prop in H. destruct H as [_ H]. apply Z.gtb_lt in H.
        destruct (endOfs s >? startOfs s) eqn:G; [|reflexivity].
        apply Z.gtb_lt in G. lia.
      * apply Z.gtb_lt in H. specialize (Hanti a a). lia.
    + destruct (Tree.compare t b a >? 0) eqn:G; [|reflexivity].
      apply Z.gtb_lt in G.
      destruct Hrev as [H|H].
      * apply andb_prop in H. destruct H as [H _].
        apply Nat.eqb_eq in H. subst b. specialize (Hanti a a). lia.
      * apply Z.gtb_lt in H. specialize (Hanti a b). lia.
  - unfold bind. rewrite (Hfix s Hrev). apply Hfix. exact Hrev.
Qed.

End Editing.

(** ** Links *)

Section Links.

Context {T : Type} {ops : Tree.Ops T}.
Variable fuel : nat.

#[local] Arguments resolveOfs : simpl never.
#[local] Arguments relPoint : simpl never.
#[local] Arguments delete : simpl never.

(** X28: whenever [link(url)] with a proper url returns on a valid
    selection, the last write to the tree turned the start node into a link
    to [url], and the selection covers that one node from offset 0 to its
    length, marked as modified. *)
Theorem link_selects_the_link (t : T) (s : Selection) (url : string)
        (r : Returned) (w' : World T) :
  url <> EmptyString ->
  valid s = true ->
  link fuel (Some url) (t, s) = Return r w' ->
  exists a t0,
    fst w' = Tree.link t0 a (Some url) /\
    start (snd w') = Some a /\ startOfs (snd w') = 0 /\
    end_ (snd w') = Some a /\
    endOfs (snd w') = Z.of_nat (Tree.length (fst w') a) /\
    modified (snd w') = true.
Proof.
  intros Hurl Hv.
  assert (F : falsy (Some url) = false).
  { simpl. destruct url; [congruence|reflexivity]. }
  unfold link. rewrite F.
  intros H. apply bind_returns in H. destruct H as (s0 & w0 & H0 & H).
  inversion H0. subst s0 w0. clear H0. simpl snd in H. rewrite Hv in H.
  simpl negb in H. cbv iota in H.
  apply bind_returns in H. destruct H as (u1 & w1 & _ & H).
  apply bind_returns in H. destruct H as (u2 & w2 & _ & H).
  apply bind_returns in H. destruct H as (u3 & w3 & _ & H).
  apply bind_returns in H. destruct H as (s3 & w3' & H3 & H).
  apply bind_returns in H. destruct H as (u4 & w4 & _ & H).
  apply bind_returns in H. destruct H as (s4 & w4' & H4 & H).
  inversion H4. subst s4 w4'. clear H4.
  apply bind_returns in H. destruct H as (a & w5 & H5 & H).
  destruct w4 as [t4 s4]. simpl snd in *.
  destruct (start s4) as [a'|] eqn:Hs4; [|discriminate].
  inversion H5. subst a' w5. clear H5.
  revert H. unfold set, setStart, setEnd. run.
  intros H. inversion H. subst. simpl.
  exists a, t4. repeat split.
Qed.

(** The loop of [nodes] does not run when the node it starts at lies behind
    the end node. *)
Lemma nodes_loop_behind (n : nat) (cb : ref -> M T unit) (t : T)
      (s : Selection) (a b : ref) :
  end_ s = Some b ->
  0 < Tree.compare t a b ->
  nodes_loop n cb (Some a) (t, s) = Return tt (t, s).
Proof.
  intros He Hcmp.
  assert (E : (Tree.compare t a b <=? 0) = false) by (apply Z.leb_gt; lia).
  destruct n; simpl; run; rewrite He; run; rewrite E; reflexivity.
Qed.

(** X29: on a selection whose start node comes after its end node, the
    loop of [nodes] visits no node at all; [unlink()] then unlinks nothing
    and is [defrag()]. *)
Theorem backwards_selection_visits_no_node (t : T) (s : Selection) (a b : ref) :
  start s = Some a -> end_ s = Some b ->
  0 < Tree.compare t a b ->
  (forall callbackfn, nodes fuel callbackfn (t, s) = Return RThis (t, s)) /\
  unlink fuel (t, s) = defrag fuel (t, s).
Proof.
  intros Hs He Hcmp.
  assert (Hv : valid s = true) by (unfold valid; rewrite Hs, He; reflexivity).
  assert (Hn : forall cb, nodes fuel cb (t, s) = Return RThis (t, s)).
  { intros cb. unfold nodes. run. rewrite Hv. simpl. rewrite Hs.
    unfold bind. rewrite (nodes_loop_behind fuel cb t s a b He Hcmp).
    reflexivity. }
  split; [exact Hn|].
  unfold unlink, bind, getSel. cbn [snd]. rewrite Hv. cbn [negb].
  rewrite Hn. reflexivity.
Qed.

End Links.

(** ** Valid selections *)

Section Valid.

Context {T : Type} {ops : Tree.Ops T}.
Variable fuel : nat.

#[local] Arguments resolveOfs : simpl never.
#[local] Arguments relPoint : simpl never.
#[local] Arguments delete : simpl never.
#[local] Arguments movePoint : simpl never.

Lemma points_keep_valid {A} (m : M T A) : keepsPoints T m -> keepsValid T m.
Proof.
  intros H [t s] Hv. specialize (H s (t, s)). simpl in *.
  assert (P : samePoints s s) by (repeat split).
  specialize (H P).
  destruct (m (t, s)) as [a [t' s']|e [t' s']|]; trivial;
    destruct H as (_ & Hs & _ & He & _); simpl in *;
    unfold valid in *; rewrite Hs, He; exact Hv.
Qed.

(** Opens a valid selection into its fields. *)
Ltac open_valid t s Hv :=
  intros [t s] Hv; simpl in Hv;
  let a := fresh "a" in
  let b := fresh "b" in
  let Hs := fresh "Hs" in
  let He := fresh "He" in
  destruct (valid_points s Hv) as (a & b & Hs & He);
  destruct s; simpl in Hs, He; subst; clear Hv.

(** X30: [attach], [mark], [collapse], [move], [save], [sort], [trim],
    [wordWrap], [apply], [delete], [indent], [unindent], [toggleList] and
    [toggleQuote] never lose the selection: started on a valid selection they
    end, returning or throwing, on a valid one. *)
Theorem valid_selection_stays_valid :
  (forall document, keepsValid T (attach document)) /\
  (forall m, keepsValid T (mark m)) /\
  keepsValid T collapse /\
  (forall ds de, keepsValid T (move fuel ds de)) /\
  keepsValid T save /\
  keepsValid T sort /\
  keepsValid T trim /\
  keepsValid T wordWrap /\
  (forall to, keepsValid T (apply to)) /\
  keepsValid T delete /\
  keepsValid T (indent fuel) /\
  keepsValid T (unindent fuel) /\
  (forall type, keepsValid T (toggleList fuel type)) /\
  keepsValid T (toggleQuote fuel).
Proof.
  repeat apply conj; intros.
  - open_valid t s Hv. reflexivity.
  - open_valid t s Hv. reflexivity.
  - open_valid t s Hv. reflexivity.
  - intros [t s] Hv. simpl in Hv.
    destruct (valid_points s Hv) as (a & b & Hs & He).
    unfold move. run. rewrite Hs, He.
    destruct (movePoint fuel t (Some a) (startOfs s) ds) as [[x xo]|] eqn:Ex;
      [|exact I].
    destruct (movePoint_bounds fuel _ _ _ _ _ _ Ex) as [Sx _].
    destruct x as [x|]; [|discriminate].
    destruct de as [d|]; run.
    + destruct (movePoint fuel t (Some b) (endOfs s) d) as [[y yo]|] eqn:Ey;
        [|exact I].
      destruct (movePoint_bounds fuel _ _ _ _ _ _ Ey) as [Sy _].
      destruct y as [y|]; [|discriminate]. reflexivity.
    + reflexivity.
  - open_valid t s Hv. unfold save, absPoint, setStack. run.
    repeat (branch; run); reflexivity.
  - open_valid t s Hv. unfold sort. run. repeat (branch; run); reflexivity.
  - open_valid t s Hv. unfold trim, setStart, setEnd. run.
    repeat (branch; run); reflexivity.
  - open_valid t s Hv. unfold wordWrap, set, setStart, setEnd, mark. run.
    repeat (branch; run); reflexivity.
  - open_valid t s Hv. unfold apply, mark. run.
    repeat (branch; run); reflexivity.
  - intros [t s] Hv. simpl in Hv.
    destruct (delete_on_valid t s Hv) as (t' & s' & Hd & _ & _ & Hc & _).
    rewrite Hd. simpl. apply collapsed_valid. exact Hc.
  - apply points_keep_valid. apply points_indent.
  - apply points_keep_valid. apply points_unindent.
  - apply points_keep_valid. apply points_toggleList.
  - apply points_keep_valid. apply points_toggleQuote.
Qed.

End Valid.

(** ** The properties on sample documents *)

Section MoreSamples.

Local Open Scope string_scope.

(** Settles a closed equation by running the code. *)
Ltac evaluate := vm_compute; reflexivity.

(** The cursor at offset 2 of ["hello world"]: the word around it. *)
Lemma wordWrap_brackets_cursor_witness :
  exists b e,
    wordWrap (Sample.twoParagraphs, Sample.cursor 5 2)
    = Return RThis
        (Sample.twoParagraphs,
         mkSelection (Some 0%nat) (Some 5%nat) b (Some 5%nat) e true [] 0) /\
    0 <= b <= 2 /\ 2 <= e <= 11.
Proof.
  exact (@wordWrap_brackets_cursor Model.Doc docOps
           Sample.twoParagraphs (Sample.cursor 5 2) 5
           eq_refl eq_refl eq_refl ltac:(simpl; lia)).
Defined.

(** A text node under the element of the leaf ["hello world"] (5). *)
Lemma fromDom_text_or_link_witness :
  (Sample.twoParagraphs, Sample.cursor 2 0)
  = (Sample.twoParagraphs, Sample.cursor 2 0) /\
  (Tree.type Sample.twoParagraphs 5 = ty_text \/
   Tree.type Sample.twoParagraphs 5 = ty_link) /\
  (Tree.empty Sample.twoParagraphs 5 = true -> 3 = 0).
Proof.
  apply (fromDom_text_or_link Sample.twoParagraphs (Sample.cursor 2 0)
           (DomElement [DomOther "c"; DomText (Some "5") "hello world"]) 3 5 3).
  reflexivity.
Defined.

(** A selection with no root, a range that starts in a text node. *)
Lemma query_before_attach_witness :
  let r :=
    mkDomRange false (Some (DomText (Some "2") "abc")) 1
               (Some (DomText (Some "3") "defg")) 2 in
  let sl := mkDomSelection 1 (Gives r) in
  let s := mkSelection None (Some 5%nat) 1 (Some 5%nat) 2 true [] 0 in
  query (Some (mkDocument (Gives (Some sl)))) (Sample.twoParagraphs, s)
  = Return RThis (Sample.twoParagraphs, unmarked s).
Proof.
  cbv zeta.
  apply (query_before_attach
           (mkDocument (Gives (Some (mkDomSelection 1 (Gives
              (mkDomRange false (Some (DomText (Some "2") "abc")) 1
                          (Some (DomText (Some "3") "defg")) 2))))))
           (mkDomSelection 1 (Gives
              (mkDomRange false (Some (DomText (Some "2") "abc")) 1
                          (Some (DomText (Some "3") "defg")) 2)))
           (mkDomRange false (Some (DomText (Some "2") "abc")) 1
                       (Some (DomText (Some "3") "defg")) 2)
           (Some "2") "abc");
    first [reflexivity | simpl; lia].
Defined.

(** The host has no selection object. *)
Lemma query_without_range_witness :
  query (Some (mkDocument (Gives None)))
        (Sample.twoParagraphs, Sample.range 2 1 3 2)
  = Return RThis
      (Sample.twoParagraphs,
       mkSelection (Some 0%nat) None 0 None 0 false [] 0).
Proof.
  apply (query_without_range (mkDocument (Gives None)) Sample.twoParagraphs
           (Sample.range 2 1 3 2)).
  left. reflexivity.
Defined.

(** [move(+3)] from [(2, 2)] ends at [(3, 2)], within ["defg"]. *)
Lemma move_lands_in_bounds_witness :
  let t := Sample.twoParagraphs in
  let s' := cursorAt (Sample.cursor 2 2) 3 2 in
  fst (t, s') = t /\
  inBounds t (start s') (startOfs s') /\
  inBounds t (end_ s') (endOfs s') /\
  isSome (start s') = isSome (start (Sample.cursor 2 2)) /\
  isSome (end_ s') = isSome (start (Sample.cursor 2 2)) /\
  (@None Z = None -> isCursor s').
Proof.
  apply (move_lands_in_bounds 2 3 None Sample.twoParagraphs (Sample.cursor 2 2)
           RThis (Sample.twoParagraphs, cursorAt (Sample.cursor 2 2) 3 2)).
  reflexivity.
Defined.

(** ["hello world"] (5) is the last leaf: [move(+100)] stops at its end. *)
Lemma move_stops_at_document_ends_witness :
  move 1 100 None (Sample.twoParagraphs, Sample.cursor 5 5)
  = Return RThis (Sample.twoParagraphs, cursorAt (Sample.cursor 5 5) 5 11).
Proof.
  exact (@move_stops_at_document_ends Model.Doc docOps 1
           Sample.twoParagraphs (Sample.cursor 5 5) 5 100
           ltac:(lia) eq_refl
           ltac:(right; split; [simpl; lia|reflexivity])).
Defined.

(** From the start of the second paragraph [move(-1)] goes to the end of the
    first: the one unit is the container boundary. *)
Lemma move_into_previous_leaf_witness :
  move 1 (-1) None (Sample.twoParagraphs, Sample.cursor 5 0)
  = Return RThis (Sample.twoParagraphs, cursorAt (Sample.cursor 5 0) 3 4).
Proof.
  exact (@move_into_previous_leaf Model.Doc docOps 1
           Sample.twoParagraphs (Sample.cursor 5 0) 5 3 (-1)
           ltac:(lia) eq_refl eq_refl ltac:(simpl; lia) ltac:(simpl; lia)).
Defined.

(** Across the two paragraphs and back. *)
Lemma move_forth_and_back_witness :
  bind (move 1 3 None) (fun _ => move 1 (- 3) None)
       (Sample.twoParagraphs, Sample.cursor 3 2)
  = Return RThis (Sample.twoParagraphs, cursorAt (Sample.cursor 3 2) 3 2).
Proof.
  exact (@move_forth_and_back Model.Doc docOps 1
           Sample.twoParagraphs (Sample.cursor 3 2) 3 5 3
           ltac:(lia) eq_refl eq_refl eq_refl eq_refl
           ltac:(simpl; lia) ltac:(simpl; lia) ltac:(simpl; lia)).
Defined.

(** Offset 5 of the first paragraph is offset 2 of ["defg"]. *)
Lemma relPoint_absPoint_witness :
  exists x o,
    relPoint Sample.twoParagraphs (Some 1%nat) 5 = (Some x, o) /\
    In x (Tree.content Sample.twoParagraphs 1) /\
    o <= Z.of_nat (Tree.length Sample.twoParagraphs x) /\
    (0 <= 5 -> 0 <= o) /\
    absPoint (Some x) o (Sample.twoParagraphs, Sample.cursor 2 0)
    = Return (Some 1%nat, 5) (Sample.twoParagraphs, Sample.cursor 2 0).
Proof.
  refine (proj2 (@relPoint_absPoint Model.Doc docOps Sample.twoParagraphs
                   (Sample.cursor 2 0) 1 5 _ _ _) _).
  - simpl. repeat (constructor; [simpl; intuition discriminate|]). constructor.
  - simpl. intros x [<-|[<-|[]]]; split; reflexivity.
  - simpl. lia.
  - discriminate.
Defined.

(** A point saved at offset 100 of the first paragraph, which holds 7
    characters. *)
Lemma restore_beyond_text_witness :
  let p := mkAbsPoint 0 (Some 1%nat) 100 in
  exists s',
    restore (Sample.twoParagraphs,
             mkSelection (Some 0%nat) None 0 None 0 false [p; p] 1)
    = Return RThis (Sample.twoParagraphs, s') /\
    start s' = None /\ startOfs s' = 0 /\
    valid s' = false /\ stack s' = [].
Proof.
  cbv zeta.
  apply (restore_beyond_text Sample.twoParagraphs
           (mkSelection (Some 0%nat) None 0 None 0 false
                        [mkAbsPoint 0 (Some 1%nat) 100;
                         mkAbsPoint 0 (Some 1%nat) 100] 1)
           (mkAbsPoint 0 (Some 1%nat) 100) (mkAbsPoint 0 (Some 1%nat) 100)
           [] 1 1);
    first [reflexivity | simpl; lia].
Defined.

(** The cursor at the start of ["defg"], a leaf of the first paragraph. *)
Lemma restore_keeps_cursor_witness :
  exists s1,
    save (Sample.twoParagraphs, Sample.cursor 3 0)
    = Return RThis (Sample.twoParagraphs, s1) /\
    forall (t2 : Model.Doc) (s2 : Selection),
      stack s2 = stack s1 ->
      exists s3,
        restore (t2, s2) = Return RThis (t2, s3) /\
        isCursor s3 /\ stack s3 = stack (Sample.cursor 3 0).
Proof.
  apply (@restore_keeps_cursor Model.Doc docOps
           Sample.twoParagraphs (Sample.cursor 3 0) 3 1).
  - reflexivity.
  - reflexivity.
  - repeat split. simpl. auto.
Defined.

(** The leaf 9 is not part of the document. *)
Lemma restore_without_start_throws_witness :
  let s1 :=
    mkSelection (Some 0%nat) (Some 9%nat) 0 (Some 9%nat) 0 false
                [mkAbsPoint 0 None 0; mkAbsPoint 0 None 0] 1 in
  restore (Sample.twoParagraphs, s1)
  = Throw TypeError
      (Sample.twoParagraphs,
       mkSelection (Some 0%nat) (Some 9%nat) 0 (Some 9%nat) 0 false [] 1).
Proof.
  cbv zeta.
  apply (restore_without_start_throws Sample.twoParagraphs (Sample.cursor 9 0)
           RThis Sample.twoParagraphs
           (mkSelection (Some 0%nat) (Some 9%nat) 0 (Some 9%nat) 0 false
              [mkAbsPoint 0 None 0; mkAbsPoint 0 None 0] 1)).
  - intros a H. inversion H. reflexivity.
  - reflexivity.
  - reflexivity.
Defined.

Lemma defrag_balances_stack_witness :
  exists w',
    defrag 2 (Sample.twoParagraphs, Sample.range 2 1 5 3) = Return RThis w' /\
    stack (snd w') = [] /\ root (snd w') = Some 0%nat.
Proof.
  eexists. split; [evaluate|].
  apply (defrag_balances_stack 2 Sample.twoParagraphs (Sample.range 2 1 5 3)
           RThis).
  evaluate.
Defined.

Lemma split_covers_whole_nodes_witness :
  exists t' s',
    split (Sample.twoParagraphs, Sample.range 2 1 3 2)
    = Return RThis (t', s') /\
    modified s' = true /\
    startOfs s' = 0 /\
    (valid s' = true -> whole t' s' = true).
Proof.
  apply (split_covers_whole_nodes Sample.twoParagraphs (Sample.range 2 1 3 2)).
  reflexivity.
Defined.

Lemma editing_a_range_deletes_first_witness :
  let w := (Sample.twoParagraphs, Sample.range 2 1 3 2) in
  (forall char, insert 2 char w = bind delete (fun _ => insert 2 char) w) /\
  (forall newline,
     break 2 newline w = bind delete (fun _ => break 2 newline) w).
Proof.
  apply (editing_a_range_deletes_first 2 Sample.twoParagraphs
           (Sample.range 2 1 3 2));
    reflexivity.
Defined.

(** Inside the link ["here"], [break()] adds a line to the link. *)
Lemma break_as_newline_witness :
  break 1 false (Sample.trailingLink, Sample.cursor 3 2)
  = insert 1 newlineChar (Sample.trailingLink, Sample.cursor 3 2).
Proof.
  apply (break_as_newline 1 Sample.trailingLink (Sample.cursor 3 2) 3 false).
  - reflexivity.
  - reflexivity.
  - right. split; [reflexivity|simpl; lia].
Defined.

Lemma insert_advances_cursor_witness :
  insert 0 "xy" (Sample.twoParagraphs, Sample.cursor 2 1)
  = Return RThis
      (Tree.insert Sample.twoParagraphs 2 "xy" 1,
       cursorAt (Sample.cursor 2 1) 2 3).
Proof.
  apply (insert_advances_cursor 0 Sample.twoParagraphs (Sample.cursor 2 1) 2 "xy").
  - reflexivity.
  - reflexivity.
  - simpl. lia.
  - left. discriminate.
  - vm_compute. discriminate.
Defined.

(** The cursor at the start of the second paragraph: [trim()] takes the end
    point to the end of the first. *)
Lemma trim_cursor_at_leaf_start_witness :
  let t := Sample.twoParagraphs in
  let s' :=
    mkSelection (Some 0%nat) (Some 5%nat) 0 (Some 3%nat) 4 true [] 0 in
  collapsed (Sample.cursor 5 0) = true /\
  trim (t, Sample.cursor 5 0) = Return RThis (t, s') /\
  collapsed s' = false /\
  (0 < Tree.compare t 5 3 -> reversed t s' = true).
Proof.
  exact (@trim_cursor_at_leaf_start Model.Doc docOps
           Sample.twoParagraphs (Sample.cursor 5 0) 5 3
           eq_refl eq_refl eq_refl eq_refl eq_refl
           ltac:(discriminate) ltac:(vm_compute; lia)).
Defined.

Lemma sort_idempotent_witness :
  bind sort (fun _ => sort) (Sample.twoParagraphs, Sample.range 5 3 2 1)
  = sort (Sample.twoParagraphs, Sample.range 5 3 2 1).
Proof.
  apply (sort_idempotent Sample.twoParagraphs (Sample.range 5 3 2 1)).
  apply compare_antisymmetric.
Defined.

(** ["see "] becomes a link. *)
Lemma link_selects_the_link_witness :
  exists w' a t0,
    link 2 (Some "https://b.example")
         (Sample.trailingLink, Sample.range 2 0 2 4)
    = Return RThis w' /\
    fst w' = Tree.link t0 a (Some "https://b.example") /\
    start (snd w') = Some a /\ startOfs (snd w') = 0 /\
    end_ (snd w') = Some a /\
    endOfs (snd w') = Z.of_nat (Tree.length (fst w') a) /\
    modified (snd w') = true.
Proof.
  eexists.
  match goal with
  | |- exists a t0, ?E /\ _ =>
      assert (He : E) by evaluate;
      destruct (@link_selects_the_link Model.Doc docOps 2 Sample.trailingLink
                  (Sample.range 2 0 2 4) "https://b.example" RThis _
                  ltac:(discriminate) eq_refl He) as (a & t0 & H);
      exists a, t0; split; [exact He|exact H]
  end.
Defined.

(** From ["hello world"] back to ["abc"]: nothing is visited. *)
Lemma backwards_selection_visits_no_node_witness :
  let w := (Sample.twoParagraphs, Sample.range 5 3 2 1) in
  (forall callbackfn, nodes 2 callbackfn w = Return RThis w) /\
  unlink 2 w = defrag 2 w.
Proof.
  apply (backwards_selection_visits_no_node 2 Sample.twoParagraphs
           (Sample.range 5 3 2 1) 5 2);
    first [reflexivity | simpl; lia].
Defined.

End MoreSamples.
